(** * FlowPDF: the run-level substitution engine, loop expansion, mapping
    validation and schema derivation, embedded from

    - [app/services/docx_parser_service.py]
    - [app/services/template_designer_service.py]
    - [app/services/db_repository.py]
    - [app/api/v1/designer.py]

    Python values are modelled as follows.  A [str] is a list of characters
    ([list ascii]; nothing below depends on the alphabet).  An [int] is a [Z],
    so that differences of offsets are integer differences and slices take
    Python's treatment of negative bounds.  A Python list updated by index is
    a list with stdpp's lookup and insert, and an access out of range raises
    [IndexError].  A [dict] with string keys is a [gmap] keyed by texts, so
    that a key that is present with the value [None] differs from an absent
    key.  A function that may raise returns in the monad [res].

    A paragraph is the list of its inline items, runs and hyperlinks:
    [paragraph.runs] holds the runs, and [paragraph.text] the texts of the
    runs and of the hyperlinks in document order, as python-docx 1.0 and
    later have it; a paragraph without hyperlinks is [of_runs runs], and its
    text is the concatenation of the texts of its runs.  The cells of the
    tables are objects of the document that the rows refer to, so that a
    merged cell is one cell at every position it spans.  A document is read
    before an operation and handed back after it, which stands for
    [Document(path)] and [doc.save(path)]. *)

From Stdlib Require Import ZArith Ascii String Lia DecimalString.
From stdpp Require Import base option list gmap strings.

Abbreviation text := (list ascii).

(** A string literal as a Python [str]. *)
Definition txt (s : string) : text := list_ascii_of_string s.

(** ** Exceptions *)

Inductive exn : Type := KeyError | IndexError | TypeError | ValueError.

Inductive res (A : Type) : Type :=
  | Ok (a : A)
  | Raise (e : exn).
Arguments Ok {A} a.
Arguments Raise {A} e.

#[global] Instance res_ret : MRet res := @Ok.
#[global] Instance res_bind : MBind res := λ A B f m,
  match m with Ok a => f a | Raise e => Raise e end.

(** [for x in xs: acc = body(acc, x)], stopping at the first exception. *)
Fixpoint for_each {A S : Type} (body : S → A → res S) (xs : list A) (acc : S) : res S :=
  match xs with
  | [] => Ok acc
  | x :: rest => acc' ← body acc x; for_each body rest acc'
  end.

(** ** Built-ins on [str] and [list] *)

(** [s.startswith(t)]. *)
Fixpoint starts_with (t s : text) : bool :=
  match t, s with
  | [], _ => true
  | _ :: _, [] => false
  | a :: t', b :: s' => bool_decide (a = b) && starts_with t' s'
  end.

(** [s.find(t)], with [None] for Python's [-1]: the lowest index at which
    [t] occurs in [s]. *)
Fixpoint str_find (t s : text) : option nat :=
  if starts_with t s then Some 0
  else match s with
       | [] => None
       | _ :: s' => S <$> str_find t s'
       end.

(** [t in s]. *)
Definition str_contains (t s : text) : bool :=
  match str_find t s with Some _ => true | None => false end.

(** [s.index(t)]: as [find], but raises [ValueError] when [t] is absent. *)
Definition str_index (t s : text) : res Z :=
  match str_find t s with
  | Some i => Ok (Z.of_nat i)
  | None => Raise ValueError
  end.

(** A slice bound [k] of a sequence of length [n]: a negative bound counts
    from the end, and every bound is clamped to [0..n]. *)
Definition py_bound (n k : Z) : Z :=
  if (k <? 0)%Z then Z.max 0 (n + k) else Z.min k n.

(** [l[lo:hi]], each bound optional. *)
Definition py_slice {A : Type} (l : list A) (lo hi : option Z) : list A :=
  let n := Z.of_nat (length l) in
  let a := from_option (py_bound n) 0%Z lo in
  let b := from_option (py_bound n) n hi in
  take (Z.to_nat (b - a)) (drop (Z.to_nat a) l).

(** [l[i]] for an index produced by [enumerate]. *)
Definition py_getitem {A : Type} (l : list A) (i : nat) : res A :=
  match l !! i with
  | Some x => Ok x
  | None => Raise IndexError
  end.

(** ** Runs and paragraphs *)

(** The formatting attributes of a run; python-docx reports each of [bold],
    [italic] and [underline] as tri-state. *)
Record RunFormat : Type := mkFormat {
  bold : option bool;
  italic : option bool;
  underline : option bool;
  font_name : option text;
  font_size : option Z;
}.

Record Run : Type := mkRun {
  run_text : text;
  run_format : RunFormat;
}.

(** [run.text = s]: only the text changes. *)
Definition with_text (r : Run) (s : text) : Run :=
  {| run_text := s; run_format := run_format r |}.

(** An inline item of a paragraph: a run, or a hyperlink with its visible
    text. *)
Inductive Inline : Type :=
  | IRun (r : Run)
  | ILink (s : text).

Abbreviation Paragraph := (list Inline).

Definition inline_text (i : Inline) : text :=
  match i with
  | IRun r => run_text r
  | ILink s => s
  end.

(** [paragraph.text]: the texts of the runs and of the hyperlinks, in
    document order. *)
Definition paragraph_text (paragraph : Paragraph) : text :=
  concat (inline_text <$> paragraph).

(** [paragraph.runs]: the runs of the paragraph itself; the runs inside a
    hyperlink are not among them. *)
Definition paragraph_runs (paragraph : Paragraph) : list Run :=
  omap (λ i, match i with IRun r => Some r | ILink _ => None end) paragraph.

(** The runs of [paragraph.runs] are the paragraph's own: what is written to
    them is written to the paragraph.  [with_runs paragraph runs] is the
    paragraph once its runs have become [runs], in order. *)
Fixpoint with_runs (paragraph : Paragraph) (runs : list Run) : Paragraph :=
  match paragraph with
  | [] => []
  | ILink s :: rest => ILink s :: with_runs rest runs
  | IRun r :: rest =>
      match runs with
      | [] => IRun r :: with_runs rest []
      | r' :: runs' => IRun r' :: with_runs rest runs'
      end
  end.

(** [runs[idx].text = s]. *)
Definition set_run_text (idx : nat) (s : text) (runs : list Run) : res (list Run) :=
  r ← py_getitem runs idx;
  Ok (<[idx := with_text r s]> runs).

(** ** [_find_and_replace_in_paragraph] *)

(** An entry [(run_start, run_end, idx)] of the run position map. *)
Abbreviation run_position := (Z * Z * nat)%type.

(** The loop building [run_positions], from [current_pos] and the index [idx]
    that [enumerate] has reached. *)
Fixpoint build_run_positions (current_pos : Z) (idx : nat) (runs : list Run)
  : list run_position :=
  match runs with
  | [] => []
  | run :: rest =>
      let run_start := current_pos in
      let run_end := (current_pos + Z.of_nat (length (run_text run)))%Z in
      (run_start, run_end, idx) :: build_run_positions run_end (S idx) rest
  end.

(** [run_end > start_offset and run_start < end_offset]. *)
Definition is_affected (start_offset end_offset : Z) (p : run_position) : Prop :=
  (p.1.2 > start_offset)%Z ∧ (p.1.1 < end_offset)%Z.

#[global] Instance is_affected_dec s e p : Decision (is_affected s e p).
Proof. unfold is_affected. apply _. Defined.

Definition find_and_replace_in_paragraph
    (paragraph : Paragraph) (target_text replacement : text) : res (bool * Paragraph) :=
  let full_text := paragraph_text paragraph in
  if negb (str_contains target_text full_text) then Ok (false, paragraph)
  else
    start_offset ← str_index target_text full_text;
    let end_offset := (start_offset + Z.of_nat (length target_text))%Z in
    let runs := paragraph_runs paragraph in
    match runs with
    | [] => Ok (false, paragraph)
    | _ :: _ =>
        let run_positions := build_run_positions 0 0 runs in
        let affected_runs := filter (is_affected start_offset end_offset) run_positions in
        match head affected_runs, last affected_runs with
        | Some (first_run_start, _, first_run_idx), Some (last_run_start, _, last_run_idx) =>
            first_run ← py_getitem runs first_run_idx;
            last_run ← py_getitem runs last_run_idx;
            let prefix :=
              py_slice (run_text first_run) None (Some (start_offset - first_run_start)%Z) in
            let suffix :=
              py_slice (run_text last_run) (Some (end_offset - last_run_start)%Z) None in
            if bool_decide (first_run_idx = last_run_idx) then
              runs1 ← set_run_text first_run_idx (prefix ++ replacement ++ suffix) runs;
              Ok (true, with_runs paragraph runs1)
            else
              runs1 ← set_run_text first_run_idx (prefix ++ replacement) runs;
              runs2 ← for_each (λ rs p, set_run_text p.2 [] rs)
                        (py_slice affected_runs (Some 1%Z) (Some (-1)%Z)) runs1;
              runs3 ← set_run_text last_run_idx suffix runs2;
              Ok (true, with_runs paragraph runs3)
        | _, _ => Ok (false, paragraph)
        end
    end.

(** [_find_and_replace_in_cell]: the paragraphs of the cell are tried in
    order, and the first successful substitution ends the search. *)
Fixpoint find_and_replace_in_cell
    (paragraphs : list Paragraph) (target_text replacement : text)
  : res (bool * list Paragraph) :=
  match paragraphs with
  | [] => Ok (false, [])
  | para :: rest =>
      '(done, para') ← find_and_replace_in_paragraph para target_text replacement;
      if (done : bool) then Ok (true, para' :: rest)
      else
        '(found, rest') ← find_and_replace_in_cell rest target_text replacement;
        Ok (found, para' :: rest')
  end.

(** ** Python values *)

(** The scalars of a JSON document; floating-point numbers are left out. *)
Inductive scalar : Type :=
  | SNone
  | SBool (b : bool)
  | SInt (z : Z)
  | SStr (s : text).

#[global] Instance scalar_eq_dec : EqDecision scalar.
Proof. solve_decision. Defined.

(** An element of a JSON array of the mappings or of the render data: an
    object with scalar fields (a cell label, a loop item), or a scalar. *)
Inductive item : Type :=
  | IScalar (s : scalar)
  | IDict (d : gmap text scalar).

#[global] Instance item_eq_dec : EqDecision item.
Proof. solve_decision. Defined.

(** A value of a mapping or of the render data. *)
Inductive pyval : Type :=
  | VScalar (s : scalar)
  | VList (l : list item).

#[global] Instance pyval_eq_dec : EqDecision pyval.
Proof. solve_decision. Defined.

Abbreviation VNone := (VScalar SNone).
Abbreviation VTrue := (VScalar (SBool true)).
Definition VInt (z : Z) : pyval := VScalar (SInt z).
Definition VStr (s : string) : pyval := VScalar (SStr (txt s)).

(** A [dict] with string keys. *)
Abbreviation dict := (gmap text pyval).

(** [d.get(key, default)]. *)
Definition dict_get {V : Type} (d : gmap text V) (key : string) (dflt : V) : V :=
  default dflt (d !! txt key).

(** [d[key]]. *)
Definition dict_item {V : Type} (d : gmap text V) (key : string) : res V :=
  match d !! txt key with
  | Some v => Ok v
  | None => Raise KeyError
  end.

(** [key in d]. *)
Definition dict_has {V : Type} (d : gmap text V) (key : string) : bool :=
  bool_decide (is_Some (d !! txt key)).

(** [str(z)] for an [int]. *)
Definition str_of_int (z : Z) : text :=
  list_ascii_of_string (NilZero.string_of_int (Z.to_int z)).

(** [str(x)] for a scalar. *)
Definition py_str (x : scalar) : text :=
  match x with
  | SNone => txt "None"
  | SBool true => txt "True"
  | SBool false => txt "False"
  | SInt z => str_of_int z
  | SStr s => s
  end.

(** The truth value of a scalar, and of a value. *)
Definition truthy (x : scalar) : bool :=
  match x with
  | SNone => false
  | SBool b => b
  | SInt z => negb (z =? 0)%Z
  | SStr s => negb (bool_decide (s = []))
  end.

Definition truthy_val (v : pyval) : bool :=
  match v with
  | VScalar x => truthy x
  | VList l => negb (bool_decide (l = []))
  end.

(** A value used as an [int], in a comparison with a length or as an index
    ([bool] is a subclass of [int]); anything else raises [TypeError]. *)
Definition as_int (v : pyval) : res Z :=
  match v with
  | VScalar (SInt z) => Ok z
  | VScalar (SBool b) => Ok (Z.b2z b)
  | _ => Raise TypeError
  end.

(** A value used where only a [str] will do. *)
Definition as_str (v : pyval) : res text :=
  match v with
  | VScalar (SStr s) => Ok s
  | _ => Raise TypeError
  end.

(** [for x in v]: a list yields its elements and a [str] its characters;
    no other value is iterable. *)
Definition py_iter (v : pyval) : res (list item) :=
  match v with
  | VList l => Ok l
  | VScalar (SStr s) => Ok ((λ c, IScalar (SStr [c])) <$> s)
  | _ => Raise TypeError
  end.

(** The position that the index [i] denotes in a sequence of length [n]:
    a negative index counts from the end. *)
Definition py_position (n : nat) (i : Z) : res nat :=
  let j := if (i <? 0)%Z then (Z.of_nat n + i)%Z else i in
  if ((0 <=? j) && (j <? Z.of_nat n))%Z then Ok (Z.to_nat j) else Raise IndexError.

(** [l[i]] for an [int] index. *)
Definition py_index {A : Type} (l : list A) (i : Z) : res A :=
  k ← py_position (length l) i; py_getitem l k.

(** ** Documents, as python-docx presents them *)

(** A cell is the list of its paragraphs.  The cells are objects of the
    document: [row.cells] has one entry per grid column, and python-docx
    puts the same cell at every column that a merged cell spans.  A row is
    therefore the list of the references of its cells, a reference being the
    position of the cell among the cells of the document; what is written to
    a cell shows at every position that refers to it.  The rows of a
    document refer to cells that it has; following a reference to no cell
    raises [IndexError], which python-docx has no occasion for. *)
Abbreviation Cell := (list Paragraph).
Abbreviation Row := (list nat).
Abbreviation Table := (list Row).

Record Document : Type := mkDocument {
  doc_paragraphs : list Paragraph;
  doc_tables : list Table;
  doc_cells : list Cell;
}.

(** [_find_and_replace_in_cell] called with a target of any type: the test
    [target_text not in full_text] of the first paragraph raises [TypeError]
    unless the target is a [str]; a cell without paragraphs tests nothing. *)
Definition call_find_and_replace_in_cell
    (cell : Cell) (target : pyval) (replacement : text) : res (bool * Cell) :=
  match cell with
  | [] => Ok (false, [])
  | _ :: _ => t ← as_str target; find_and_replace_in_cell cell t replacement
  end.

(** The [else] branch of the loop-cell marking: the first run of every
    paragraph takes the marker and the other runs are emptied. *)
Definition overwrite_paragraph (marker : text) (para : Paragraph) : Paragraph :=
  match paragraph_runs para with
  | [] => para
  | first :: others =>
      with_runs para (with_text first marker :: ((λ r, with_text r []) <$> others))
  end.

(** ** Table rows as XML elements, as [expand_table_loops] handles them *)

#[warnings="-register-all"]
Inductive xml : Type :=
  | Element (tag : text) (content : option text) (children : list xml).

(** [qn('w:t')], the tag of a text leaf. *)
Definition w_t : text := txt "w:t".

(** [s.replace(old, new)], scanning from the left; [skip] characters of a
    match just replaced are still to be passed over. *)
Fixpoint replace_from (old new : text) (skip : nat) (s : text) : text :=
  match s with
  | [] => []
  | c :: s' =>
      match skip with
      | S k => replace_from old new k s'
      | O =>
          if starts_with old s then new ++ replace_from old new (length old - 1) s'
          else c :: replace_from old new 0 s'
      end
  end.

Definition py_replace (old new s : text) : text :=
  match old with
  | [] => new ++ concat ((λ c, c :: new) <$> s)
  | _ :: _ => replace_from old new 0 s
  end.

(** [f"__LOOP__{loop_var}__{label}__"] for a scalar loop variable and label. *)
Definition loop_marker (loop_var label : text) : text :=
  txt "__LOOP__" ++ loop_var ++ txt "__" ++ label ++ txt "__".

(** [item.get(key, '')] on a loop item, whose keys are strings. *)
Definition item_get (d : gmap text scalar) (key : scalar) : scalar :=
  match key with
  | SStr k => default (SStr []) (d !! k)
  | _ => SStr []
  end.

(** [if not isinstance(item, dict): item = {"value": str(item)}]. *)
Definition coerce_item (it : item) : gmap text scalar :=
  match it with
  | IDict d => d
  | IScalar x => {[ txt "value" := SStr (py_str x) ]}
  end.

(** [cl['label']] for an element [cl] of [cell_labels]. *)
Definition cell_label_of (cl : item) : res scalar :=
  match cl with
  | IDict d => dict_item d "label"
  | IScalar _ => Raise TypeError
  end.

(** The body of [for cl in cell_labels] on the text of one leaf. *)
Definition replace_marker (loop_var : scalar) (it : gmap text scalar)
    (content : text) (cl : item) : res text :=
  label ← cell_label_of cl;
  let marker := loop_marker (py_str loop_var) (py_str label) in
  if str_contains marker content then
    let value := py_str (item_get it label) in
    Ok (py_replace marker value content)
  else Ok content.

(** The body of [for t_elem in new_tr.iter(qn('w:t'))] on the text of one
    leaf: nothing happens to a leaf whose text is [None] or empty. *)
Definition fill_leaf (loop_var : scalar) (cell_labels : pyval)
    (it : gmap text scalar) (content : option text) : res (option text) :=
  match content with
  | None => Ok None
  | Some [] => Ok (Some [])
  | Some s =>
      cls ← py_iter cell_labels;
      s' ← for_each (replace_marker loop_var it) cls s;
      Ok (Some s')
  end.

(** The clone of an element with every [w:t] descendant filled, in document
    order. *)
Fixpoint fill_element (fill : option text → res (option text)) (x : xml) : res xml :=
  match x with
  | Element tag content children =>
      content' ← (if bool_decide (tag = w_t) then fill content else Ok content);
      children' ←
        (fix fill_all (xs : list xml) : res (list xml) :=
           match xs with
           | [] => Ok []
           | c :: rest =>
               c' ← fill_element fill c;
               rest' ← fill_all rest;
               Ok (c' :: rest')
           end) children;
      Ok (Element tag content' children')
  end.

(** One pass of the loop over [items]: the clone of the template row for
    one item. *)
Definition clone_row (loop_var : scalar) (cell_labels : pyval)
    (template_tr : xml) (it : item) : res xml :=
  fill_element (fill_leaf loop_var cell_labels (coerce_item it)) template_tr.

(** [for x in xs: out.append(f(x))]. *)
Fixpoint map_res {A B : Type} (f : A → res B) (xs : list A) : res (list B) :=
  match xs with
  | [] => Ok []
  | x :: rest => y ← f x; ys ← map_res f rest; Ok (y :: ys)
  end.

(** [template_tr.addnext(new_tr)] for the row at position [k]. *)
Definition addnext {A : Type} (k : nat) (new_tr : A) (rows : list A) : list A :=
  take (S k) rows ++ new_tr :: drop (S k) rows.

(** [data.get(loop_var, [])]: an unhashable key raises [TypeError], and a
    key that is no [str] is no key of the render data. *)
Definition data_get (data : dict) (loop_var : pyval) : res pyval :=
  match loop_var with
  | VList _ => Raise TypeError
  | VScalar (SStr k) => Ok (default (VList []) (data !! k))
  | VScalar _ => Ok (VList [])
  end.

Definition scalar_of (v : pyval) : scalar :=
  match v with VScalar x => x | VList _ => SNone end.

(** The body of [for mapping in loop_mappings] in [expand_table_loops], on
    the tables of the document, each a list of row elements. *)
Definition expand_loop (data : dict) (tables : list (list xml)) (mapping : dict)
  : res (list (list xml)) :=
  let table_idx := dict_get mapping "table_index" (VInt 0) in
  let loop_var := dict_get mapping "loop_variable" (VStr "items") in
  let data_row_idx := dict_get mapping "data_row_index" (VInt 1) in
  let cell_labels := dict_get mapping "cell_labels" (VList []) in
  items ← data_get data loop_var;
  if negb (truthy_val items) then Ok tables
  else
    ti ← as_int table_idx;
    if (ti >=? Z.of_nat (length tables))%Z then Ok tables
    else
      tpos ← py_position (length tables) ti;
      table ← py_getitem tables tpos;
      di ← as_int data_row_idx;
      if (di >=? Z.of_nat (length table))%Z then Ok tables
      else
        k ← py_position (length table) di;
        template_tr ← py_getitem table k;
        its ← py_iter items;
        new_rows ← map_res (clone_row (scalar_of loop_var) cell_labels template_tr) its;
        let inserted := foldl (λ rows new_tr, addnext k new_tr rows) table (reverse new_rows) in
        let table' := delete k inserted in
        Ok (<[tpos := table']> tables).

(** [m.get("mapping_type") == kind]. *)
Definition has_mapping_type (kind : string) (m : dict) : Prop :=
  dict_get m "mapping_type" VNone = VStr kind.

#[global] Instance has_mapping_type_dec kind m : Decision (has_mapping_type kind m).
Proof. unfold has_mapping_type. apply _. Defined.

(** [expand_table_loops], from the tables of the loaded template to the
    tables of the saved document. *)
Definition expand_table_loops (tables : list (list xml)) (data : dict)
    (mappings : list dict) : res (list (list xml)) :=
  let loop_mappings := filter (has_mapping_type "table_loop") mappings in
  for_each (expand_loop data) loop_mappings tables.

(** The contents of the [w:t] descendants of an element, in document order. *)
Fixpoint leaf_contents (x : xml) : list (option text) :=
  match x with
  | Element tag content children =>
      (if bool_decide (tag = w_t) then [content] else [])
      ++ concat (List.map leaf_contents children)
  end.


(** The replacement passes of one leaf, for the labels of [cell_labels] in
    order: each pass is a [str.replace] of the label's marker by the
    stringified field of the item. *)
Definition replace_all_markers (loop_var : scalar) (it : gmap text scalar)
    (labels : list scalar) (content : text) : text :=
  foldl (λ s label,
           py_replace (loop_marker (py_str loop_var) (py_str label))
                      (py_str (item_get it label)) s)
        content labels.

(** Python's [==] and [hash] identify [True] with [1] and [False] with [0]:
    the key under which a scalar is found in a [set]. *)
Definition hash_key (x : scalar) : scalar :=
  match x with
  | SBool b => SInt (Z.b2z b)
  | _ => x
  end.

Definition scalar_encode (x : scalar) : unit + bool + Z + text :=
  match x with
  | SNone => inl (inl (inl ()))
  | SBool b => inl (inl (inr b))
  | SInt z => inl (inr z)
  | SStr s => inr s
  end.

Definition scalar_decode (c : unit + bool + Z + text) : scalar :=
  match c with
  | inl (inl (inl _)) => SNone
  | inl (inl (inr b)) => SBool b
  | inl (inr z) => SInt z
  | inr s => SStr s
  end.

#[global] Program Instance scalar_countable : Countable scalar :=
  inj_countable' scalar_encode scalar_decode _.
Next Obligation. by intros []. Qed.

(** ** Materialization, mapping validation and schema derivation *)

Section Formatting.

(** [repr] of a list, which formats a list inside an f-string; the results
    below hold whatever it prints. *)
Variable repr_list : list item → text.

(** [f"{v}"]. *)
Definition py_format (v : pyval) : text :=
  match v with
  | VScalar x => py_str x
  | VList l => repr_list l
  end.

(** ["{{" + label + "}}"]. *)
Definition jinja_var (label : pyval) : res text :=
  l ← as_str label; Ok (txt "{{" ++ l ++ txt "}}").

(** The body of [for mapping in para_mappings]. *)
Definition apply_paragraph_mapping (doc : Document) (mapping : dict) : res Document :=
  let para_idx := dict_get mapping "paragraph_index" (VInt 0) in
  original_text ← dict_item mapping "original_text";
  label ← dict_item mapping "label";
  jinja ← jinja_var label;
  pi ← as_int para_idx;
  if (pi <? Z.of_nat (length (doc_paragraphs doc)))%Z then
    k ← py_position (length (doc_paragraphs doc)) pi;
    para ← py_getitem (doc_paragraphs doc) k;
    target ← as_str original_text;
    '(_, para') ← find_and_replace_in_paragraph para target jinja;
    Ok (mkDocument (<[k := para']> (doc_paragraphs doc)) (doc_tables doc) (doc_cells doc))
  else Ok doc.

(** The body of [for mapping in cell_mappings]. *)
Definition apply_cell_mapping (doc : Document) (mapping : dict) : res Document :=
  let table_idx := dict_get mapping "table_index" (VInt 0) in
  let row_idx := dict_get mapping "row_index" (VInt 0) in
  let col_idx := dict_get mapping "col_index" (VInt 0) in
  original_text ← dict_item mapping "original_text";
  label ← dict_item mapping "label";
  ti ← as_int table_idx;
  if (ti <? Z.of_nat (length (doc_tables doc)))%Z then
    tpos ← py_position (length (doc_tables doc)) ti;
    table ← py_getitem (doc_tables doc) tpos;
    ri ← as_int row_idx;
    if (ri <? Z.of_nat (length table))%Z then
      rpos ← py_position (length table) ri;
      row ← py_getitem table rpos;
      ci ← as_int col_idx;
      if (ci <? Z.of_nat (length row))%Z then
        cpos ← py_position (length row) ci;
        ref ← py_getitem row cpos;
        cell ← py_getitem (doc_cells doc) ref;
        jinja ← jinja_var label;
        '(_, cell') ← call_find_and_replace_in_cell cell original_text jinja;
        Ok (mkDocument (doc_paragraphs doc) (doc_tables doc)
              (<[ref := cell']> (doc_cells doc)))
      else Ok doc
    else Ok doc
  else Ok doc.

(** The marking of one loop cell: the original text gives way to the marker
    when there is one, and the marker overwrites the cell otherwise. *)
Definition mark_cell (cell : Cell) (original : scalar) (marker : text) : res Cell :=
  if truthy original then
    '(_, cell') ← call_find_and_replace_in_cell cell (VScalar original) marker;
    Ok cell'
  else Ok (overwrite_paragraph marker <$> cell).

(** The body of [for cell_map in cell_labels], on the cells of the
    document. *)
Definition mark_loop_cell (loop_var : pyval) (data_row : Row)
    (cells : list Cell) (cell_map : item) : res (list Cell) :=
  match cell_map with
  | IScalar _ => Raise TypeError
  | IDict d =>
      col ← dict_item d "col_index";
      label ← dict_item d "label";
      let original := dict_get d "original_text" (SStr []) in
      ci ← as_int (VScalar col);
      if (ci <? Z.of_nat (length data_row))%Z then
        cpos ← py_position (length data_row) ci;
        ref ← py_getitem data_row cpos;
        cell ← py_getitem cells ref;
        let marker := loop_marker (py_format loop_var) (py_str label) in
        cell' ← mark_cell cell original marker;
        Ok (<[ref := cell']> cells)
      else Ok cells
  end.

(** The body of [for mapping in loop_mappings]. *)
Definition apply_loop_mapping (doc : Document) (mapping : dict) : res Document :=
  let table_idx := dict_get mapping "table_index" (VInt 0) in
  let loop_var := dict_get mapping "loop_variable" (VStr "items") in
  let data_row_idx := dict_get mapping "data_row_index" (VInt 1) in
  let cell_labels := dict_get mapping "cell_labels" (VList []) in
  ti ← as_int table_idx;
  if (ti <? Z.of_nat (length (doc_tables doc)))%Z then
    tpos ← py_position (length (doc_tables doc)) ti;
    table ← py_getitem (doc_tables doc) tpos;
    di ← as_int data_row_idx;
    if (di <? Z.of_nat (length table))%Z then
      rpos ← py_position (length table) di;
      data_row ← py_getitem table rpos;
      cls ← py_iter cell_labels;
      cells ← for_each (mark_loop_cell loop_var data_row) cls (doc_cells doc);
      Ok (mkDocument (doc_paragraphs doc) (doc_tables doc) cells)
    else Ok doc
  else Ok doc.

(** [m.get("mapping_type", "paragraph") == "paragraph"]. *)
Definition is_paragraph_mapping (m : dict) : Prop :=
  dict_get m "mapping_type" (VStr "paragraph") = VStr "paragraph".

#[global] Instance is_paragraph_mapping_dec m : Decision (is_paragraph_mapping m).
Proof. unfold is_paragraph_mapping. apply _. Defined.

(** [apply_mappings_to_document], from the loaded source document to the
    returned flag and the saved document. *)
Definition apply_mappings_to_document (doc : Document) (mappings : list dict)
  : res (bool * Document) :=
  let para_mappings := filter is_paragraph_mapping mappings in
  let cell_mappings := filter (has_mapping_type "table_cell") mappings in
  let loop_mappings := filter (has_mapping_type "table_loop") mappings in
  doc1 ← for_each apply_paragraph_mapping para_mappings doc;
  doc2 ← for_each apply_cell_mapping cell_mappings doc1;
  doc3 ← for_each apply_loop_mapping loop_mappings doc2;
  Ok (true, doc3).

(** *** Mapping creation *)

(** A row of [templates], as far as the mapping code reads it. *)
Record Template : Type := mkTemplate {
  template_name : text;
  template_status : text;
}.

(** The parameters of the [INSERT] of [db_create_mapping], which is also the
    row that [db_get_mapping] then reads back: the database is taken to
    store the parameters as they are ([created_at], which the database
    fills in, is left out).  [cell_labels] goes through [json.dumps] only
    when truthy, and is NULL otherwise. *)
Definition db_create_mapping (mapping_id template_id : text) (mapping_data : dict) : dict :=
  let cell_labels := dict_get mapping_data "cell_labels" VNone in
  list_to_map [
    (txt "id", VScalar (SStr mapping_id));
    (txt "template_id", VScalar (SStr template_id));
    (txt "mapping_type", dict_get mapping_data "mapping_type" (VStr "paragraph"));
    (txt "label", dict_get mapping_data "label" VNone);
    (txt "paragraph_index", dict_get mapping_data "paragraph_index" VNone);
    (txt "table_index", dict_get mapping_data "table_index" VNone);
    (txt "row_index", dict_get mapping_data "row_index" VNone);
    (txt "col_index", dict_get mapping_data "col_index" VNone);
    (txt "original_text", dict_get mapping_data "original_text" VNone);
    (txt "required", dict_get mapping_data "required" VTrue);
    (txt "field_type", dict_get mapping_data "field_type" (VStr "string"));
    (txt "data_row_index", dict_get mapping_data "data_row_index" VNone);
    (txt "loop_variable", dict_get mapping_data "loop_variable" VNone);
    (txt "cell_labels", if truthy_val cell_labels then cell_labels else VNone)
  ].

(** [create_mapping] of the designer service; [template] is what
    [get_template] returns for the template id. *)
Definition create_mapping (template : option Template)
    (mapping_id template_id : text) (mapping_data : dict) : option dict :=
  match template with
  | None => None
  | Some t =>
      if bool_decide (template_status t = txt "published") then None
      else
        let mapping_type := dict_get mapping_data "mapping_type" (VStr "paragraph") in
        if bool_decide (mapping_type ∉ [VStr "paragraph"; VStr "table_cell"; VStr "table_loop"])
        then None
        else Some (db_create_mapping mapping_id template_id mapping_data)
  end.

(** What the endpoint answers: an [HTTPException], or the created mapping. *)
Inductive response : Type :=
  | HTTPException (status_code : Z) (detail : text)
  | MappingCreated (mapping : dict).

(** [for f in fields: if f not in mapping: raise ...]: the field that raises. *)
Definition first_missing (fields : list string) (mapping : dict) : option string :=
  List.find (λ f, negb (dict_has mapping f)) fields.

Definition required_detail (f variant : string) : text :=
  txt "'" ++ txt f ++ txt "' is required for " ++ txt variant ++ txt " mapping".

(** The checks of [create_template_mapping] before the service is called:
    the exception raised, if any. *)
Definition check_mapping (mapping : dict) : option response :=
  let mapping_type := dict_get mapping "mapping_type" (VStr "paragraph") in
  if bool_decide (mapping_type = VStr "paragraph") then
    (λ f, HTTPException 400 (required_detail f "paragraph"))
      <$> first_missing ["paragraph_index"; "original_text"; "label"]%string mapping
  else if bool_decide (mapping_type = VStr "table_cell") then
    (λ f, HTTPException 400 (required_detail f "table_cell"))
      <$> first_missing
            ["table_index"; "row_index"; "col_index"; "original_text"; "label"]%string mapping
  else if bool_decide (mapping_type = VStr "table_loop") then
    (λ f, HTTPException 400 (required_detail f "table_loop"))
      <$> first_missing
            ["table_index"; "data_row_index"; "loop_variable"; "cell_labels"]%string mapping
  else
    Some (HTTPException 400 (txt "Unknown mapping_type: " ++ py_format mapping_type)).

(** [create_template_mapping]. *)
Definition create_template_mapping (template : option Template)
    (mapping_id template_id : text) (mapping : dict) : response :=
  match check_mapping mapping with
  | Some raised => raised
  | None =>
      match create_mapping template mapping_id template_id mapping with
      | None =>
          HTTPException 400 (txt "Cannot create mapping (template not found or published)")
      | Some result => MappingCreated result
      end
  end.

End Formatting.

(** *** Schema derivation *)

Record SubField : Type := mkSubField {
  sub_name : scalar;
  sub_type : scalar;
  sub_original_text : scalar;
}.

Record Field : Type := mkField {
  field_name : pyval;
  field_type : pyval;
  field_required : pyval;
  field_original_text : pyval;
  field_sub_fields : option (list SubField);
}.

Record Schema : Type := mkSchema {
  schema_template_id : text;
  schema_template_name : text;
  schema_status : text;
  schema_fields : list Field;
}.

(** The body of [for cl in cell_labels] of the schema. *)
Definition sub_field_of (cl : item) : res SubField :=
  match cl with
  | IScalar _ => Raise TypeError
  | IDict d =>
      name ← dict_item d "label";
      Ok (mkSubField name (dict_get d "field_type" (SStr (txt "string")))
                     (dict_get d "original_text" (SStr [])))
  end.

(** The body of [for mapping in mappings] of [get_template_schema], on the
    fields emitted so far and the labels seen so far. *)
Definition schema_step (acc : list Field * gset scalar) (mapping : dict)
  : res (list Field * gset scalar) :=
  let '(fields, seen_labels) := acc in
  let mtype := dict_get mapping "mapping_type" (VStr "paragraph") in
  if bool_decide (mtype ∈ [VStr "paragraph"; VStr "table_cell"]) then
    label ← dict_item mapping "label";
    match label with
    | VList _ => Raise TypeError
    | VScalar l =>
        if bool_decide (hash_key l ∉ seen_labels) then
          Ok (fields ++ [mkField label
                           (dict_get mapping "field_type" (VStr "string"))
                           (dict_get mapping "required" VTrue)
                           (dict_get mapping "original_text" (VScalar (SStr [])))
                           None],
              {[ hash_key l ]} ∪ seen_labels)
        else Ok (fields, seen_labels)
    end
  else if bool_decide (mtype = VStr "table_loop") then
    loop_var ← dict_item mapping "loop_variable";
    let cell_labels := dict_get mapping "cell_labels" (VList []) in
    cls ← py_iter cell_labels;
    sub_fields ← map_res sub_field_of cls;
    Ok (fields ++ [mkField loop_var (VStr "array") VTrue
                     (VScalar (SStr (txt "Table loop ("
                                     ++ str_of_int (Z.of_nat (length sub_fields))
                                     ++ txt " columns)")))
                     (Some sub_fields)],
        seen_labels)
  else Ok (fields, seen_labels).

(** [get_template_schema]; [template] is what [get_template] returns and
    [mappings] what [list_mappings] returns, in registry order. *)
Definition get_template_schema (template : option Template) (template_id : text)
    (mappings : list dict) : res (option Schema) :=
  match template with
  | None => Ok None
  | Some t =>
      '(fields, _) ← for_each schema_step mappings ([], ∅);
      Ok (Some (mkSchema template_id (template_name t) (template_status t) fields))
  end.

(* ================================================================== *)
(** * The vocabulary of the claims, and sample data *)
(* ================================================================== *)

(** ** Occurrences of a text in another *)

(** [t] occurs in [s] at offset [i]. *)
Definition occurs_at (t s : text) (i : nat) : Prop :=
  ∃ pre post, s = pre ++ t ++ post ∧ length pre = i.

(** [t] is a substring of [s]. *)
Definition is_substring (t s : text) : Prop :=
  ∃ pre post, s = pre ++ t ++ post.

(** ** Paragraphs and the texts of their runs *)

(** The concatenation of the runs' texts. *)
Definition runs_text (runs : list Run) : text :=
  concat (run_text <$> runs).

(** The paragraph that consists of the runs [runs] and holds no hyperlink:
    its text is the concatenation of the runs' texts. *)
Definition of_runs (runs : list Run) : Paragraph := IRun <$> runs.

(** The text of all runs of a cell, paragraph after paragraph. *)
Definition cell_runs_text (cell : Cell) : text :=
  concat ((λ p, runs_text (paragraph_runs p)) <$> cell).

(** ** The run position map *)

(** The offset at which run [i] starts in the position map, which adds up
    the lengths of the runs before it. *)
Definition run_start (runs : list Run) (i : nat) : Z :=
  Z.of_nat (length (runs_text (take i runs))).

(** Run [j] overlaps the span [[s, e)]: the test of the "affected runs" loop
    on the half-open interval of the run. *)
Definition overlaps (runs : list Run) (s e : Z) (j : nat) : Prop :=
  ∃ r, runs !! j = Some r ∧
       (run_start runs j + Z.of_nat (length (run_text r)) > s)%Z ∧ (run_start runs j < e)%Z.

(** ** The rewritten runs in closed form *)

(** What the substitution of the span [[s, e)] by [repl] leaves of a text [t]
    that starts at offset [o]: the part of [t] before the span, [repl] when
    the span starts inside [t], and the part of [t] after the span. *)
Definition rewritten_text (o s e : Z) (repl t : text) : text :=
  take (Z.to_nat (s - o)) t
  ++ (if bool_decide (o ≤ s < o + Z.of_nat (length t))%Z then repl else [])
  ++ drop (Z.to_nat (e - o)) t.

Fixpoint rewrite_runs (pos s e : Z) (repl : text) (runs : list Run) : list Run :=
  match runs with
  | [] => []
  | r :: rest =>
      with_text r (rewritten_text pos s e repl (run_text r))
      :: rewrite_runs (pos + Z.of_nat (length (run_text r))) s e repl rest
  end.

(** ** Substitution *)

Definition no_format : RunFormat := mkFormat None None None None None.

Definition plain (s : string) : Run := mkRun (txt s) no_format.

Definition styled (s : string) (b i : bool) : Run :=
  mkRun (txt s) (mkFormat (Some b) (Some i) None (Some (txt "Arial")) (Some 12%Z)).

(** Only the run [i], of text [t], overlaps the span. *)
Definition only_overlap (runs : list Run) (s e : Z) (i : nat) : Prop :=
  overlaps runs s e i ∧ ∀ j, overlaps runs s e j → j = i.

(** Several runs overlap the span, and [i] is the first of them. *)
Definition first_overlap (runs : list Run) (s e : Z) (i : nat) : Prop :=
  overlaps runs s e i ∧ (∀ j, overlaps runs s e j → i ≤ j) ∧
  ∃ j, overlaps runs s e j ∧ i < j.

(** Several runs overlap the span, and [i] is the last of them. *)
Definition last_overlap (runs : list Run) (s e : Z) (i : nat) : Prop :=
  overlaps runs s e i ∧ (∀ j, overlaps runs s e j → j ≤ i) ∧
  ∃ j, overlaps runs s e j ∧ j < i.

(** Run [i] lies strictly between two runs that overlap the span. *)
Definition between_overlaps (runs : list Run) (s e : Z) (i : nat) : Prop :=
  (∃ j, overlaps runs s e j ∧ j < i) ∧ (∃ k, overlaps runs s e k ∧ i < k).

(** The claim C1 as the spec states it, of the runs of a paragraph: the
    target is matched at its leftmost occurrence in the concatenation of the
    runs' texts, a non-empty target is replaced, every run keeps its
    formatting, and the runs that overlap the matched span are rewritten as
    the spec lists them. *)
Definition rewrites_affected_runs (p : Paragraph) (target replacement : text) : Prop :=
  let runs := paragraph_runs p in
  ∃ start p',
    occurs_at target (runs_text runs) start ∧
    (∀ j, occurs_at target (runs_text runs) j → start ≤ j) ∧
    find_and_replace_in_paragraph p target replacement
      = Ok (bool_decide (target ≠ []), p') ∧
    length (paragraph_runs p') = length runs ∧
    ∀ i r, runs !! i = Some r →
      ∃ r', paragraph_runs p' !! i = Some r' ∧ run_format r' = run_format r ∧
        let s := Z.of_nat start in
        let e := (s + Z.of_nat (length target))%Z in
        let prefix := take (Z.to_nat (s - run_start runs i)) (run_text r) in
        let suffix := drop (Z.to_nat (e - run_start runs i)) (run_text r) in
        (only_overlap runs s e i → run_text r' = prefix ++ replacement ++ suffix) ∧
        (first_overlap runs s e i → run_text r' = prefix ++ replacement) ∧
        (between_overlaps runs s e i → run_text r' = []) ∧
        (last_overlap runs s e i → run_text r' = suffix) ∧
        (¬ overlaps runs s e i → run_text r' = run_text r).

(** The claim C2 as the spec states it: substitution replaces the leftmost
    occurrence of the target in the concatenation of the runs' texts, and
    leaves the rest of that text as it was. *)
Definition replaces_leftmost (p : Paragraph) (target replacement : text) : Prop :=
  let before := runs_text (paragraph_runs p) in
  ∃ start p',
    occurs_at target before start ∧
    (∀ j, occurs_at target before j → start ≤ j) ∧
    find_and_replace_in_paragraph p target replacement = Ok (true, p') ∧
    runs_text (paragraph_runs p') =
      take start before ++ replacement ++ drop (start + length target) before.

(** The claim C3 as the spec states it, of a paragraph and of a cell: a
    call that returns true changes the length of the concatenation of the
    runs' texts by the length of the replacement minus that of the target. *)
Definition length_accounted (p : Paragraph) (target replacement : text) : Prop :=
  ∀ p', find_and_replace_in_paragraph p target replacement = Ok (true, p') →
    Z.of_nat (length (runs_text (paragraph_runs p'))) =
    (Z.of_nat (length (runs_text (paragraph_runs p))) - Z.of_nat (length target)
     + Z.of_nat (length replacement))%Z.

Definition cell_length_accounted (cell : Cell) (target replacement : text) : Prop :=
  ∀ cell', find_and_replace_in_cell cell target replacement = Ok (true, cell') →
    Z.of_nat (length (cell_runs_text cell')) =
    (Z.of_nat (length (cell_runs_text cell)) - Z.of_nat (length target)
     + Z.of_nat (length replacement))%Z.


(** Paragraphs that hold a hyperlink between or before their runs. *)
Definition split_by_link : Paragraph :=
  [IRun (plain "ab"); ILink (txt "X"); IRun (plain "cd")].

Definition linked_world (tail : string) : Paragraph :=
  [IRun (plain "Hello "); ILink (txt "World"); IRun (plain tail)].

Definition link_first : Paragraph :=
  [ILink (txt "Z"); IRun (plain "A-X-B-X")].

(** ** Loop expansion *)

(** Induction on an element, with the property for all of its children. *)
Fixpoint xml_ind_nested (P : xml → Prop)
    (step : ∀ tag content children, Forall P children → P (Element tag content children))
    (x : xml) : P x :=
  match x with
  | Element tag content children =>
      step tag content children
        ((fix all (xs : list xml) : Forall P xs :=
            match xs with
            | [] => @List.Forall_nil xml P
            | y :: rest => @List.Forall_cons xml P y rest (xml_ind_nested P step y) (all rest)
            end) children)
  end.

(** A row and a cell with one paragraph of one run, as python-docx
    writes them. *)
Definition w_tr (children : list xml) : xml := Element (txt "w:tr") None children.

Definition w_tc (s : text) : xml :=
  Element (txt "w:tc") None
    [Element (txt "w:p") None [Element (txt "w:r") None [Element w_t (Some s) []]]].

Definition invoice_table : list xml :=
  [ w_tr [w_tc (txt "No"); w_tc (txt "Amount")];
    w_tr [w_tc (loop_marker (txt "items") (txt "stt"));
          w_tc (loop_marker (txt "items") (txt "amount"))];
    w_tr [w_tc (txt "Total"); w_tc (txt "{{total}}")] ].

Definition invoice_cell_labels : list item :=
  [ IDict {[ txt "col_index" := SInt 0; txt "label" := SStr (txt "stt") ]};
    IDict {[ txt "col_index" := SInt 1; txt "label" := SStr (txt "amount") ]} ].

Definition invoice_mapping : dict :=
  {[ txt "mapping_type" := VStr "table_loop";
     txt "table_index" := VInt 0;
     txt "data_row_index" := VInt 1;
     txt "loop_variable" := VStr "items";
     txt "cell_labels" := VList invoice_cell_labels ]}.

Definition invoice_items : list item :=
  [ IDict {[ txt "stt" := SInt 1; txt "amount" := SStr (txt "5.000") ]};
    IDict {[ txt "stt" := SInt 2 ]};
    IScalar (SStr (txt "n/a")) ].

Definition invoice_data : dict := {[ txt "items" := VList invoice_items ]}.

(** The claim C5 as the spec states it: no text leaf of a new row holds the
    marker of a listed label. *)
Definition markers_exhausted (loop_var : scalar) (cls : list item) (row' : xml) : Prop :=
  ∀ s cl label,
    Some s ∈ leaf_contents row' → cl ∈ cls → cell_label_of cl = Ok label →
    ¬ is_substring (loop_marker (py_str loop_var) (py_str label)) s.

(** ** Materialization *)

(** The substitution of a paragraph mapping has nothing to replace: the
    mapping addresses the paragraph [k] of the document, and its original
    text does not occur there. *)
Definition text_not_found (doc : Document) (m : dict) : Prop :=
  ∃ k para t l,
    is_paragraph_mapping m ∧
    m !! txt "paragraph_index" = Some (VInt (Z.of_nat k)) ∧
    m !! txt "original_text" = Some (VScalar (SStr t)) ∧
    m !! txt "label" = Some (VScalar (SStr l)) ∧
    doc_paragraphs doc !! k = Some para ∧
    ¬ is_substring t (paragraph_text para).

(** The claim C7 as the spec states it: a substitution that fails shows in
    what the operation returns, which then is not plain success. *)
Definition surfaces_failures (repr_list : list item → text)
    (doc : Document) (mappings : list dict) : Prop :=
  (∃ m, m ∈ mappings ∧ text_not_found doc m) →
  ∀ doc', apply_mappings_to_document repr_list doc mappings ≠ Ok (true, doc').

Definition greeting : Document :=
  mkDocument [of_runs [plain "Hello "; plain "World"]] [] [].

Definition farewell_mapping : dict :=
  {[ txt "mapping_type" := VStr "paragraph";
     txt "paragraph_index" := VInt 0;
     txt "original_text" := VStr "Goodbye";
     txt "label" := VStr "name" ]}.

(** ** Mapping validation *)

(** The variant tag of a submitted mapping; a mapping without tag is a
    paragraph mapping. *)
Definition variant_of (m : dict) : pyval :=
  dict_get m "mapping_type" (VStr "paragraph").

(** The fields that each of the three variants requires. *)
Definition required_fields (variant : pyval) : option (list string) :=
  if bool_decide (variant = VStr "paragraph") then
    Some ["paragraph_index"; "original_text"; "label"]%string
  else if bool_decide (variant = VStr "table_cell") then
    Some ["table_index"; "row_index"; "col_index"; "original_text"; "label"]%string
  else if bool_decide (variant = VStr "table_loop") then
    Some ["table_index"; "data_row_index"; "loop_variable"; "cell_labels"]%string
  else None.

Definition missing_required_field (m : dict) : Prop :=
  ∃ fields f,
    required_fields (variant_of m) = Some fields ∧ f ∈ fields ∧ m !! txt f = None.

Definition unknown_variant (m : dict) : Prop :=
  required_fields (variant_of m) = None.

Definition empty_original_text (m : dict) : Prop :=
  variant_of m ∈ [VStr "paragraph"; VStr "table_cell"] ∧
  m !! txt "original_text" = Some (VScalar (SStr [])).

(** The [col_index] values of the entries of [cell_labels]. *)
Definition col_indexes (cls : list item) : list scalar :=
  omap (λ cl, match cl with IDict d => d !! txt "col_index" | IScalar _ => None end) cls.

Definition bad_cell_labels (m : dict) : Prop :=
  variant_of m = VStr "table_loop" ∧
  ∃ cls, m !! txt "cell_labels" = Some (VList cls) ∧ (cls = [] ∨ ¬ NoDup (col_indexes cls)).

(** The rejections that the spec lists for mapping validation. *)
Definition spec_rejects (m : dict) : Prop :=
  missing_required_field m ∨ unknown_variant m ∨ empty_original_text m ∨ bad_cell_labels m.

Definition rejected (r : response) : Prop :=
  ∃ status_code detail, r = HTTPException status_code detail.

Definition draft_template : Template := mkTemplate (txt "contract.docx") (txt "draft").

Definition empty_text_mapping : dict :=
  {[ txt "mapping_type" := VStr "paragraph";
     txt "paragraph_index" := VInt 2;
     txt "original_text" := VScalar (SStr []);
     txt "label" := VStr "customer_name" ]}.

(** ** Schema derivation *)

Definition is_scalar_mapping (m : dict) : Prop :=
  variant_of m ∈ [VStr "paragraph"; VStr "table_cell"].

Definition is_loop_mapping (m : dict) : Prop :=
  variant_of m = VStr "table_loop".

(** The key under which the label of a scalar mapping is remembered. *)
Definition label_key (m : dict) : option scalar :=
  match m !! txt "label" with
  | Some (VScalar l) => Some (hash_key l)
  | _ => None
  end.

(** The field of a scalar mapping. *)
Definition scalar_field (m : dict) : Field :=
  mkField (dict_get m "label" VNone)
          (dict_get m "field_type" (VStr "string"))
          (dict_get m "required" VTrue)
          (dict_get m "original_text" (VScalar (SStr [])))
          None.

(** The field of a loop mapping with the sub-fields [subs]. *)
Definition loop_field (m : dict) (subs : list SubField) : Field :=
  mkField (dict_get m "loop_variable" VNone) (VStr "array") VTrue
          (VScalar (SStr (txt "Table loop (" ++ str_of_int (Z.of_nat (length subs))
                          ++ txt " columns)")))
          (Some subs).

(** What the mapping [m] adds to the schema after the mappings [earlier]:
    a scalar mapping adds its field unless an earlier scalar mapping had the
    same label; a loop mapping adds an array field with one sub-field per
    cell label, in order; any other mapping adds nothing. *)
Inductive emits (earlier : list dict) (m : dict) : list Field → Prop :=
  | emits_first :
      is_scalar_mapping m →
      (∀ m', m' ∈ earlier → is_scalar_mapping m' → label_key m' ≠ label_key m) →
      emits earlier m [scalar_field m]
  | emits_repeated m' :
      is_scalar_mapping m → m' ∈ earlier → is_scalar_mapping m' →
      label_key m' = label_key m →
      emits earlier m []
  | emits_loop cls subs :
      is_loop_mapping m →
      dict_get m "cell_labels" (VList []) = VList cls →
      Forall2 (λ cl sub, sub_field_of cl = Ok sub) cls subs →
      emits earlier m [loop_field m subs]
  | emits_nothing :
      ¬ is_scalar_mapping m → ¬ is_loop_mapping m → emits earlier m [].

(** A row of the registry that schema derivation can read: a scalar mapping
    has a scalar label (a string, or NULL), and a loop mapping has a loop
    variable and a list of cell labels that each carry a label. *)
Definition readable_row (m : dict) : Prop :=
  (is_scalar_mapping m → ∃ l, m !! txt "label" = Some (VScalar l)) ∧
  (is_loop_mapping m →
   is_Some (m !! txt "loop_variable") ∧
   ∃ cls, dict_get m "cell_labels" (VList []) = VList cls ∧
          Forall (λ cl, ∃ d l, cl = IDict d ∧ d !! txt "label" = Some l) cls).

(** The labels seen after the mappings [prev]. *)
Definition seen_after (prev : list dict) (seen : gset scalar) : Prop :=
  ∀ k, k ∈ seen ↔ ∃ m', m' ∈ prev ∧ is_scalar_mapping m' ∧ label_key m' = Some k.

Definition name_mapping : dict :=
  {[ txt "mapping_type" := VStr "paragraph"; txt "paragraph_index" := VInt 2;
     txt "original_text" := VStr "Nguyen Van A"; txt "label" := VStr "customer_name" ]}.

Definition second_name_mapping : dict :=
  {[ txt "mapping_type" := VStr "table_cell"; txt "table_index" := VInt 0;
     txt "row_index" := VInt 0; txt "col_index" := VInt 1;
     txt "original_text" := VStr "Tran Binh"; txt "label" := VStr "customer_name";
     txt "required" := VScalar (SBool false) ]}.

Definition registry : list dict :=
  [ db_create_mapping (txt "m1") (txt "t1") name_mapping;
    db_create_mapping (txt "m2") (txt "t1") invoice_mapping;
    db_create_mapping (txt "m3") (txt "t1") second_name_mapping ].

(** A loop mapping submitted with an empty list of cell labels. *)
Definition empty_loop_mapping : dict :=
  {[ txt "mapping_type" := VStr "table_loop";
     txt "table_index" := VInt 0;
     txt "data_row_index" := VInt 1;
     txt "loop_variable" := VStr "items";
     txt "cell_labels" := VList [] ]}.

(** ** Formats of a document *)

(** What a paragraph, a cell and a document keep of themselves when the
    texts of the runs are erased: the formatting of every run and the text
    of every hyperlink, in place; for a document, also the rows of its
    tables with the cells they refer to. *)
Definition paragraph_formats (p : Paragraph) : list (RunFormat + text) :=
  (λ i, match i with IRun r => inl (run_format r) | ILink s => inr s end) <$> p.

Definition cell_formats (c : Cell) : list (list (RunFormat + text)) :=
  paragraph_formats <$> c.

Definition doc_formats (doc : Document)
  : list (list (RunFormat + text)) * list Table * list (list (list (RunFormat + text))) :=
  (paragraph_formats <$> doc_paragraphs doc, doc_tables doc,
   cell_formats <$> doc_cells doc).

(** The target can be substituted in the paragraph: it is not empty, and
    some run overlaps the span at which the text of the paragraph first
    holds it, the runs being laid out one after the other from offset 0. *)
Definition substitutable (p : Paragraph) (target : text) : Prop :=
  target ≠ [] ∧
  ∃ s, str_find target (paragraph_text p) = Some s ∧
       ∃ j, overlaps (paragraph_runs p)
              (Z.of_nat s) (Z.of_nat s + Z.of_nat (length target)) j.

(** A paragraph mapping with its three fields: the index, the original text
    and the label. *)
Definition paragraph_mapping_of (m : dict) (index : Z) (original label : text) : Prop :=
  is_paragraph_mapping m ∧
  m !! txt "paragraph_index" = Some (VInt index) ∧
  m !! txt "original_text" = Some (VScalar (SStr original)) ∧
  m !! txt "label" = Some (VScalar (SStr label)).

(** A paragraph mapping that lacks its original text or its label, or
    whose label is no string. *)
Definition incomplete_paragraph_mapping (m : dict) : Prop :=
  is_paragraph_mapping m ∧
  (m !! txt "original_text" = None ∨ m !! txt "label" = None ∨
   ∃ v, m !! txt "label" = Some v ∧ ∀ s, v ≠ VScalar (SStr s)).

Definition two_paragraphs : Document :=
  mkDocument [of_runs [plain "Dear "; styled "Nguyen Van A" true false; plain ","];
              of_runs [plain "Total: "; plain "5.000.000"]] [] [].

Definition customer_mapping : dict :=
  {[ txt "mapping_type" := VStr "paragraph";
     txt "paragraph_index" := VInt 0;
     txt "original_text" := VStr "Nguyen Van A";
     txt "label" := VStr "customer_name" ]}.

Definition last_paragraph_mapping : dict :=
  {[ txt "paragraph_index" := VInt (-1);
     txt "original_text" := VStr "5.000.000";
     txt "label" := VStr "amount" ]}.

(** A mapping that addresses nothing in the document: its index, read as an
    [int], is not below the number of paragraphs, tables, rows or cells
    that it is compared with; or its type is none of the three. *)
Definition addresses_nothing (doc : Document) (m : dict) : Prop :=
  (∃ idx t l, paragraph_mapping_of m idx t l ∧
              (Z.of_nat (length (doc_paragraphs doc)) ≤ idx)%Z) ∨
  (has_mapping_type "table_cell" m ∧
   is_Some (m !! txt "original_text") ∧ is_Some (m !! txt "label") ∧
   ∃ ti, as_int (dict_get m "table_index" (VInt 0)) = Ok ti ∧
     ((Z.of_nat (length (doc_tables doc)) ≤ ti)%Z ∨
      ∃ table ri, doc_tables doc !! Z.to_nat ti = Some table ∧ (0 ≤ ti)%Z ∧
        as_int (dict_get m "row_index" (VInt 0)) = Ok ri ∧
        ((Z.of_nat (length table) ≤ ri)%Z ∨
         ∃ row ci, table !! Z.to_nat ri = Some row ∧ (0 ≤ ri)%Z ∧
           as_int (dict_get m "col_index" (VInt 0)) = Ok ci ∧
           (Z.of_nat (length row) ≤ ci)%Z))) ∨
  (has_mapping_type "table_loop" m ∧
   ∃ ti, as_int (dict_get m "table_index" (VInt 0)) = Ok ti ∧
     ((Z.of_nat (length (doc_tables doc)) ≤ ti)%Z ∨
      ∃ table di, doc_tables doc !! Z.to_nat ti = Some table ∧ (0 ≤ ti)%Z ∧
        as_int (dict_get m "data_row_index" (VInt 1)) = Ok di ∧
        (Z.of_nat (length table) ≤ di)%Z)) ∨
  (¬ is_paragraph_mapping m ∧ ¬ has_mapping_type "table_cell" m ∧
   ¬ has_mapping_type "table_loop" m).

(** A mapping that [expand_table_loops] passes over: it is no loop mapping,
    or the render data holds nothing truthy under its loop variable, or its
    table or row index is not below the number of tables or rows. *)
Definition expands_nothing (tables : list (list xml)) (data : dict) (m : dict) : Prop :=
  ¬ has_mapping_type "table_loop" m ∨
  ∃ lv, dict_get m "loop_variable" (VStr "items") = VScalar (SStr lv) ∧
    ((∀ v, data !! lv = Some v → truthy_val v = false) ∨
     ∃ ti, as_int (dict_get m "table_index" (VInt 0)) = Ok ti ∧
       ((Z.of_nat (length tables) ≤ ti)%Z ∨
        ∃ table di, tables !! Z.to_nat ti = Some table ∧ (0 ≤ ti)%Z ∧
          as_int (dict_get m "data_row_index" (VInt 1)) = Ok di ∧
          (Z.of_nat (length table) ≤ di)%Z)).

(** An element without the text of its [w:t] descendants: what a clone and
    its template row have in common. *)
Fixpoint without_text (x : xml) : xml :=
  match x with
  | Element tag content children =>
      Element tag (if bool_decide (tag = w_t) then None else content)
              (List.map without_text children)
  end.

(** ** Rendering *)

(** [name not in data] for the render data, a dict with string keys: a name
    that is no string is no key, and an unhashable name raises [TypeError]. *)
Definition not_in_data (data : dict) (name : pyval) : res bool :=
  match name with
  | VList _ => Raise TypeError
  | VScalar (SStr k) => Ok (bool_decide (data !! k = None))
  | VScalar _ => Ok true
  end.

(** The body of [for field in schema["fields"]] of [render_document]. *)
Definition require_field (data : dict) (_ : unit) (field : Field) : res unit :=
  if truthy_val (field_required field) then
    missing ← not_in_data data (field_name field);
    if missing : bool then Raise ValueError else Ok ()
  else Ok ().

(** The validation of the required fields. *)
Definition validate_required (schema : option Schema) (data : dict) : res unit :=
  match schema with
  | None => Ok ()
  | Some s => for_each (require_field data) (schema_fields s) ()
  end.

(** [any(p(x) for x in xs)], which stops at the first hit. *)
Fixpoint any_res {A : Type} (p : A → res bool) (xs : list A) : res bool :=
  match xs with
  | [] => Ok false
  | x :: rest => b ← p x; if b : bool then Ok true else any_res p rest
  end.

(** [m["loop_variable"] == k]. *)
Definition is_loop_variable (k : text) (m : dict) : res bool :=
  v ← dict_item m "loop_variable"; Ok (bool_decide (v = VScalar (SStr k))).

(** The context handed to docxtpl after loop expansion: the render data
    without the keys that a loop mapping names.  The items of the data are
    visited in the order of the map, which differs from Python's only in
    which of several [KeyError]s would come first. *)
Definition docxtpl_data (loop_mappings : list dict) (data : dict) : res dict :=
  for_each (λ (acc : dict) (kv : text * pyval),
              named ← any_res (is_loop_variable kv.1) loop_mappings;
              Ok (if named : bool then acc else <[kv.1 := kv.2]> acc))
           (map_to_list data) ∅.

(** The call of [render_template] that [render_document] makes: the tables
    of the document that docxtpl is given, and its context. *)
Record RenderCall : Type := mkRenderCall {
  call_tables : list (list xml);
  call_context : dict;
}.

(** [render_document] up to its call of [render_template]: [None] is the
    early return, [template_path_exists] says that the template has a
    published file that exists, and [tables] are the tables of that file. *)
Definition render_document (template : option Template) (template_path_exists : bool)
    (template_id : text) (mappings : list dict) (tables : list (list xml)) (data : dict)
  : res (option RenderCall) :=
  match template with
  | None => Ok None
  | Some t =>
      if bool_decide (template_status t ≠ txt "published") then Ok None
      else if negb template_path_exists then Ok None
      else
        schema ← get_template_schema template template_id mappings;
        _ ← validate_required schema data;
        let loop_mappings := filter (has_mapping_type "table_loop") mappings in
        match loop_mappings with
        | _ :: _ =>
            expanded ← expand_table_loops tables data mappings;
            context ← docxtpl_data loop_mappings data;
            Ok (Some (mkRenderCall expanded context))
        | [] => Ok (Some (mkRenderCall tables data))
        end
  end.

(** The field is provided: it is not required, or its name is a key of the
    render data. *)
Definition provided (data : dict) (field : Field) : Prop :=
  truthy_val (field_required field) = true →
  ∃ k, field_name field = VScalar (SStr k) ∧ is_Some (data !! k).

(** Some loop mapping names the key [k] as its loop variable. *)
Definition loop_variable_of (mappings : list dict) (k : text) : Prop :=
  ∃ m, m ∈ mappings ∧ has_mapping_type "table_loop" m ∧
       m !! txt "loop_variable" = Some (VScalar (SStr k)).

Definition published_template : Template :=
  mkTemplate (txt "contract.docx") (txt "published").

(** A cell mapping that addresses the cell [ci] of the row [ri] of the
    table [ti], with its original text and its label. *)
Definition cell_mapping_of (m : dict) (ti ri ci : nat) (original label : text) : Prop :=
  has_mapping_type "table_cell" m ∧
  m !! txt "table_index" = Some (VInt (Z.of_nat ti)) ∧
  m !! txt "row_index" = Some (VInt (Z.of_nat ri)) ∧
  m !! txt "col_index" = Some (VInt (Z.of_nat ci)) ∧
  m !! txt "original_text" = Some (VScalar (SStr original)) ∧
  m !! txt "label" = Some (VScalar (SStr label)).

(** A document with one table of two rows and two columns; the cells are
    numbered row by row. *)
Definition price_table : Table := [ [0; 1]; [2; 3] ].

Definition price_list : Document :=
  mkDocument [] [price_table]
    [ [of_runs [plain "Item"]]; [of_runs [plain "Price"]];
      [of_runs [plain "Consulting"]];
      [of_runs [plain "n/a"]; of_runs [plain "5.000"; styled ".000" true false]] ].

(** A table whose second row is one merged cell: both columns of the row
    refer to the cell 2. *)
Definition merged_price_list : Document :=
  mkDocument [] [ [ [0; 1]; [2; 2] ] ]
    [ [of_runs [plain "Item"]]; [of_runs [plain "Price"]];
      [of_runs [plain "Consulting"; plain ": 5.000"];
       of_runs [plain "5.000"; styled ".000" true false]] ].

(** The cells that the named columns of a row refer to, a column beyond
    the row referring to none. *)
Definition named_refs (row : Row) (specs : list (nat * text)) : list nat :=
  omap (λ spec, row !! spec.1) specs.

Definition price_mapping : dict :=
  {[ txt "mapping_type" := VStr "table_cell"; txt "table_index" := VInt 0;
     txt "row_index" := VInt 1; txt "col_index" := VInt 1;
     txt "original_text" := VStr "5.000.000"; txt "label" := VStr "amount" ]}.

(** An element of [cell_labels] that names the column [col] and the label
    [label] and carries no original text: its cell is overwritten. *)
Definition overwrites (cl : item) (col : nat) (label : text) : Prop :=
  ∃ d, cl = IDict d ∧ d !! txt "col_index" = Some (SInt (Z.of_nat col)) ∧
       d !! txt "label" = Some (SStr label) ∧
       truthy (dict_get d "original_text" (SStr [])) = false.

(** The paragraph [p'] is the paragraph [p] overwritten by the marker: it
    has as many runs, and its runs read as the marker unless it has none. *)
Definition overwritten_by (marker : text) (p p' : Paragraph) : Prop :=
  length (paragraph_runs p') = length (paragraph_runs p) ∧
  (paragraph_runs p ≠ [] → runs_text (paragraph_runs p') = marker).

(** ** Updating a mapping, and publishing *)

(** [{**mapping, **{k: v for k, v in update_data.items() if v is not None}}]. *)
Definition merge_update (mapping update_data : dict) : dict :=
  filter (λ kv, kv.2 ≠ VNone) update_data ∪ mapping.

(** [update_mapping] of the designer service: [mapping] is what
    [get_mapping] returns, [template] what [get_template] returns, and
    [mapping_id] the id that [db_create_mapping] draws for the new row. *)
Definition update_mapping (mapping : option dict) (template : option Template)
    (mapping_id template_id : text) (update_data : dict) : option dict :=
  match mapping with
  | None => None
  | Some row =>
      let recreated :=
        Some (db_create_mapping mapping_id template_id (merge_update row update_data)) in
      match template with
      | Some t => if bool_decide (template_status t = txt "published") then None else recreated
      | None => recreated
      end
  end.

(** [delete_mapping] of the designer service; [deleted] is what
    [db_delete_mapping] returns when it is reached. *)
Definition delete_mapping (template : option Template) (deleted : bool) : bool :=
  match template with
  | Some t => if bool_decide (template_status t = txt "published") then false else deleted
  | None => deleted
  end.

(** [db_update_template(template_id, status="published", ...)], as far as
    the row is modelled: the row read back after the [UPDATE]. *)
Definition db_update_template (t : Template) : option Template :=
  Some (mkTemplate (template_name t) (txt "published")).

(** [publish_template]: [doc] is the document at the template's
    [file_path]; the result is the updated row, with the document saved at
    [template_path]. *)
Definition publish_template (repr_list : list item → text) (template : option Template)
    (mappings : list dict) (doc : Document) : res (option (Template * Document)) :=
  match template with
  | None => Ok None
  | Some t =>
      match mappings with
      | [] => Ok None
      | _ :: _ =>
          '(success, saved) ← apply_mappings_to_document repr_list doc mappings;
          if negb success then Ok None
          else Ok ((λ updated, (updated, saved)) <$> db_update_template t)
      end
  end.

(** What the publish endpoint answers. *)
Inductive publish_response : Type :=
  | PublishRefused (status_code : Z) (detail : text)
  | Published (template : Template) (saved : Document).

(** The [publish] endpoint. *)
Definition publish (repr_list : list item → text) (template : option Template)
    (mappings : list dict) (doc : Document) : res publish_response :=
  match template with
  | None => Ok (PublishRefused 404 (txt "Template not found"))
  | Some t =>
      if bool_decide (template_status t = txt "published") then
        Ok (PublishRefused 400 (txt "Already published"))
      else
        match mappings with
        | [] => Ok (PublishRefused 400 (txt "No mappings defined"))
        | _ :: _ =>
            result ← publish_template repr_list template mappings doc;
            match result with
            | None => Ok (PublishRefused 500 (txt "Publish failed"))
            | Some (updated, saved) => Ok (Published updated saved)
            end
        end
  end.

(** The columns of a row of [template_mappings] that an update can set to
    any value but [None]. *)
Definition settable_columns : list text :=
  txt <$> ["mapping_type"; "label"; "paragraph_index"; "table_index"; "row_index";
           "col_index"; "original_text"; "required"; "field_type"; "data_row_index";
           "loop_variable"]%string.

(** The update leaves the column alone: it has no value for it, or [None]. *)
Definition unset (update_data : dict) (column : text) : Prop :=
  update_data !! column = None ∨ update_data !! column = Some VNone.

(** The runs that a call of [_find_and_replace_in_paragraph] leaves. *)
Definition substituted (para : Paragraph) (target replacement : text) : Paragraph :=
  match find_and_replace_in_paragraph para target replacement with
  | Ok (_, para') => para'
  | Raise _ => para
  end.

(** A submitted mapping whose labels schema derivation will be able to
    read once it is stored: the label of a scalar mapping is no list, and
    the cell labels of a loop mapping are a non-empty list of dicts that
    each carry a label. *)
Definition well_labelled (m : dict) : Prop :=
  (is_scalar_mapping m → ∀ l, m !! txt "label" ≠ Some (VList l)) ∧
  (is_loop_mapping m →
   ∃ cls, m !! txt "cell_labels" = Some (VList cls) ∧ cls ≠ [] ∧
          Forall (λ cl, ∃ d l, cl = IDict d ∧ d !! txt "label" = Some l) cls).

Definition stored_name_mapping : dict :=
  db_create_mapping (txt "m1") (txt "t1") name_mapping.

(* ================================================================== *)
(** * Properties of the substitution engine *)
(* ================================================================== *)

Lemma starts_with_prefix t s : starts_with t s = true ↔ t `prefix_of` s.
Proof.
  revert s; induction t as [|a t IH]; intros [|b s]; simpl.
  - split; [intros _; apply prefix_nil | done].
  - split; [intros _; apply prefix_nil | done].
  - split; [done | intros H; by apply prefix_nil_not in H].
  - rewrite andb_true_iff, bool_decide_eq_true, IH. split.
    + intros [-> H]. by apply prefix_cons.
    + intros H. split; [by eapply prefix_cons_inv_1 | by eapply prefix_cons_inv_2].
Qed.

Lemma occurs_at_0 t s : occurs_at t s 0 ↔ t `prefix_of` s.
Proof.
  split.
  - intros (pre & post & -> & Hl). destruct pre; [|done]. by exists post.
  - intros [post ->]. by exists [], post.
Qed.

Lemma occurs_at_S t c s j : occurs_at t (c :: s) (S j) ↔ occurs_at t s j.
Proof.
  split.
  - intros (pre & post & Heq & Hl). destruct pre as [|c' pre]; [done|].
    simpl in *. exists pre, post. split; [congruence | lia].
  - intros (pre & post & -> & Hl). exists (c :: pre), post. simpl. split; [done | lia].
Qed.

Lemma occurs_at_nil t j : occurs_at t [] j → t = [] ∧ j = 0.
Proof.
  intros (pre & post & Heq & Hl). symmetry in Heq.
  apply app_eq_nil in Heq as [-> Heq]. apply app_eq_nil in Heq as [-> _]. done.
Qed.

Lemma str_find_Some t s i :
  str_find t s = Some i ↔ occurs_at t s i ∧ ∀ j, occurs_at t s j → i ≤ j.
Proof.
  revert i; induction s as [|c s IH]; intros i; simpl.
  - destruct (starts_with t []) eqn:Hp.
    + apply starts_with_prefix in Hp. split.
      * intros [= <-]. split; [by apply occurs_at_0 | lia].
      * intros [Ho _]. apply occurs_at_nil in Ho as [_ ->]. done.
    + split; [done|]. intros [Ho _]. apply occurs_at_nil in Ho as [-> _]. done.
  - destruct (starts_with t (c :: s)) eqn:Hp.
    + apply starts_with_prefix in Hp. split.
      * intros [= <-]. split; [by apply occurs_at_0 | lia].
      * intros [_ Hmin]. apply occurs_at_0 in Hp. apply Hmin in Hp. f_equal; lia.
    + assert (¬ occurs_at t (c :: s) 0) as Hno.
      { rewrite occurs_at_0, <- starts_with_prefix. congruence. }
      rewrite fmap_Some. split.
      * intros (i' & Hf & ->). apply IH in Hf as [Ho Hmin]. split.
        { by apply occurs_at_S. }
        intros [|j] Hj; [done|]. apply occurs_at_S, Hmin in Hj. lia.
      * intros [Ho Hmin]. destruct i as [|i']; [done|].
        exists i'. split; [|done]. apply IH. split.
        { by apply occurs_at_S in Ho. }
        intros j Hj. apply (occurs_at_S t c) in Hj. apply Hmin in Hj. lia.
Qed.

Lemma str_find_None t s : str_find t s = None ↔ ¬ is_substring t s.
Proof.
  split.
  - intros Hf (pre & post & Heq).
    assert (∃ i, str_find t s = Some i) as [i Hi]; [|congruence].
    clear Hf. subst s. induction pre as [|c pre IH]; simpl.
    + assert (starts_with t (t ++ post) = true) as Hp.
      { apply starts_with_prefix. by exists post. }
      destruct post, t; simpl in *; rewrite ?Hp; eauto.
    + destruct IH as [i Hi]. destruct (starts_with t (c :: pre ++ t ++ post)); [eauto|].
      rewrite Hi. simpl. eauto.
  - intros Hn. destruct (str_find t s) as [i|] eqn:Hf; [|done].
    apply str_find_Some in Hf as [(pre & post & Heq & _) _]. destruct Hn. by exists pre, post.
Qed.

Lemma str_find_is_Some t s : is_substring t s → ∃ i, str_find t s = Some i.
Proof.
  intros Hs. destruct (str_find t s) eqn:Hf; [eauto|]. by apply str_find_None in Hf.
Qed.

Lemma str_find_nil s : str_find [] s = Some 0.
Proof. by destruct s. Qed.

Lemma str_find_bound t s i : str_find t s = Some i → i + length t ≤ length s.
Proof.
  intros Hf. apply str_find_Some in Hf as [(pre & post & -> & <-) _].
  rewrite !length_app. lia.
Qed.

(** ** Python slices and loops *)

Lemma py_slice_to {A} (l : list A) (k : Z) :
  (0 ≤ k)%Z → py_slice l None (Some k) = take (Z.to_nat k) l.
Proof.
  intros Hk. unfold py_slice, py_bound. simpl.
  destruct (Z.ltb_spec k 0); [lia|]. rewrite drop_0, Z.sub_0_r.
  destruct (Z.min_spec k (Z.of_nat (length l))) as [[? ->]|[? ->]]; [done|].
  rewrite Nat2Z.id, !take_ge; [done | lia | lia].
Qed.

Lemma py_slice_from {A} (l : list A) (k : Z) :
  (0 ≤ k)%Z → py_slice l (Some k) None = drop (Z.to_nat k) l.
Proof.
  intros Hk. unfold py_slice, py_bound. simpl.
  destruct (Z.ltb_spec k 0); [lia|].
  destruct (Z.min_spec k (Z.of_nat (length l))) as [[? ->]|[? ->]].
  - apply take_ge. rewrite length_drop. lia.
  - rewrite Nat2Z.id, Z.sub_diag, !drop_ge; [done | lia | lia].
Qed.

Lemma py_slice_inner {A} (l : list A) :
  py_slice l (Some 1%Z) (Some (-1)%Z) = take (length l - 2) (drop 1 l).
Proof.
  unfold py_slice, py_bound. simpl. destruct l as [|a l]; [done|].
  rewrite length_cons. f_equal; [lia | f_equal; lia].
Qed.

(** The slice [l[1:-1]] of a duplicate-free list holds the elements other
    than the first and the last. *)
Lemma elem_of_inner {A} (l : list A) (x : A) :
  NoDup l →
  x ∈ take (length l - 2) (drop 1 l) ↔ x ∈ l ∧ head l ≠ Some x ∧ last l ≠ Some x.
Proof.
  intros Hnd. destruct l as [|a l]; simpl.
  { rewrite elem_of_nil. naive_solver. }
  rewrite drop_0. destruct (decide (l = [])) as [->|Hne].
  { simpl. rewrite elem_of_nil, list_elem_of_singleton. naive_solver. }
  destruct (exists_last Hne) as (l' & z & ->).
  rewrite length_app. simpl.
  replace (length l' + 1 - 1) with (length l') by lia.
  rewrite take_app_length. rewrite last_cons, last_snoc.
  apply NoDup_cons in Hnd as [Ha Hnd]. apply NoDup_app in Hnd as (_ & Hz & _).
  rewrite elem_of_cons, elem_of_app, list_elem_of_singleton.
  rewrite elem_of_app, list_elem_of_singleton in Ha.
  split.
  - intros Hx. split; [auto|]. split; intros [= ->]; [naive_solver|].
    apply (Hz x Hx). by apply list_elem_of_singleton.
  - intros ([->|[?| ->]] & H1 & H2); done.
Qed.

Lemma head_filter_lookup {A} (P : A → Prop) `{∀ x, Decision (P x)} (l : list A) x :
  head (filter P l) = Some x →
  ∃ k, l !! k = Some x ∧ P x ∧ ∀ j y, j < k → l !! j = Some y → ¬ P y.
Proof.
  induction l as [|a l IH]; [done|]. rewrite filter_cons. case_decide as Ha; simpl.
  - intros [= ->]. exists 0. repeat split; [done|]. intros; lia.
  - intros Hh. destruct (IH Hh) as (k & Hk & HP & Hmin). exists (S k).
    repeat split; [done..|]. intros [|j] y Hj; simpl; [by intros [= ->]|].
    apply Hmin. lia.
Qed.

Lemma last_filter_lookup {A} (P : A → Prop) `{∀ x, Decision (P x)} (l : list A) x :
  last (filter P l) = Some x →
  ∃ k, l !! k = Some x ∧ P x ∧ ∀ j y, k < j → l !! j = Some y → ¬ P y.
Proof.
  induction l as [|a l IH] using rev_ind; [done|].
  rewrite filter_app, filter_cons, filter_nil. case_decide as Ha.
  - rewrite last_snoc. intros [= ->]. exists (length l). split.
    { by rewrite list_lookup_middle. }
    split; [done|]. intros j y Hj Hy. apply lookup_lt_Some in Hy.
    rewrite length_app in Hy. simpl in Hy. lia.
  - rewrite app_nil_r. intros Hh. destruct (IH Hh) as (k & Hk & HP & Hmax).
    exists k. split; [by apply lookup_app_l_Some|]. split; [done|].
    intros j y Hj Hy. apply lookup_app_Some in Hy as [Hy|[_ Hy]]; [by eapply Hmax|].
    apply list_lookup_singleton_Some in Hy as [_ <-]. done.
Qed.

Lemma filter_nil_not {A} (P : A → Prop) `{∀ x, Decision (P x)} (l : list A) x :
  filter P l = [] → x ∈ l → ¬ P x.
Proof.
  intros Hf Hx HP. assert (x ∈ filter P l) as Hin by by apply list_elem_of_filter.
  rewrite Hf in Hin. by apply elem_of_nil in Hin.
Qed.

Lemma head_last_None {A} (l : list A) : head l = None ∨ last l = None → l = [].
Proof.
  intros [Hh|Hl]; [by destruct l|]. by apply last_None.
Qed.

Lemma runs_text_app r1 r2 :
  runs_text (r1 ++ r2) = runs_text r1 ++ runs_text r2.
Proof. unfold runs_text. by rewrite fmap_app, concat_app. Qed.

Lemma run_start_0 runs : run_start runs 0 = 0%Z.
Proof. done. Qed.

Lemma run_start_S runs i r :
  runs !! i = Some r →
  run_start runs (S i) = (run_start runs i + Z.of_nat (length (run_text r)))%Z.
Proof.
  intros Hi. unfold run_start. erewrite take_S_r by done.
  rewrite runs_text_app, length_app. unfold runs_text at 2. simpl.
  rewrite app_nil_r. lia.
Qed.

Lemma run_start_mono runs i j : i ≤ j → (run_start runs i ≤ run_start runs j)%Z.
Proof.
  intros Hij. unfold run_start.
  rewrite <- (take_drop i (take j runs)), take_take, Nat.min_l by done.
  rewrite runs_text_app, length_app. lia.
Qed.

Lemma run_start_ge runs i :
  length runs ≤ i → run_start runs i = Z.of_nat (length (runs_text runs)).
Proof. intros Hi. unfold run_start. by rewrite take_ge. Qed.

(** Runs are laid out left to right: a run ends before any later run starts. *)
Lemma run_end_le_start runs i j r :
  runs !! i = Some r → i < j →
  (run_start runs i + Z.of_nat (length (run_text r)) ≤ run_start runs j)%Z.
Proof.
  intros Hi Hij. rewrite <- (run_start_S _ _ _ Hi). apply run_start_mono. lia.
Qed.

Lemma run_start_cons r runs i :
  run_start (r :: runs) (S i) = (Z.of_nat (length (run_text r)) + run_start runs i)%Z.
Proof.
  unfold run_start. rewrite firstn_cons. change (r :: take i runs) with ([r] ++ take i runs).
  rewrite runs_text_app, length_app. unfold runs_text at 1. simpl.
  rewrite app_nil_r. lia.
Qed.

Lemma build_run_positions_lookup pos idx runs i :
  build_run_positions pos idx runs !! i =
  (λ r, ((pos + run_start runs i)%Z,
         (pos + run_start runs i + Z.of_nat (length (run_text r)))%Z,
         idx + i)) <$> runs !! i.
Proof.
  revert pos idx i. induction runs as [|r runs IH]; intros pos idx i; [done|].
  destruct i as [|i]; simpl.
  - rewrite run_start_0, Z.add_0_r, Nat.add_0_r. done.
  - rewrite IH, run_start_cons. destruct (runs !! i) as [r'|] eqn:Hi; [|done]. simpl.
    do 2 f_equal; [f_equal|]; lia.
Qed.

Lemma build_run_positions_idx pos idx runs :
  (build_run_positions pos idx runs).*2 = seq idx (length runs).
Proof.
  revert pos idx. induction runs as [|r runs IH]; intros pos idx; [done|].
  simpl. by rewrite IH.
Qed.

Lemma build_run_positions_NoDup pos idx runs :
  NoDup (build_run_positions pos idx runs).
Proof.
  apply (NoDup_fmap_1 snd). rewrite build_run_positions_idx. apply NoDup_seq.
Qed.

(** An entry of the position map of [runs], read at its own index. *)
Lemma elem_of_run_positions runs p :
  p ∈ build_run_positions 0 0 runs ↔
  ∃ r, runs !! p.2 = Some r ∧ p.1.1 = run_start runs p.2 ∧
       p.1.2 = (run_start runs p.2 + Z.of_nat (length (run_text r)))%Z.
Proof.
  rewrite list_elem_of_lookup. split.
  - intros [i Hi]. rewrite build_run_positions_lookup in Hi.
    apply fmap_Some in Hi as (r & Hr & ->). simpl. exists r.
    rewrite !Z.add_0_l. done.
  - intros (r & Hr & H1 & H2). exists p.2. rewrite build_run_positions_lookup, Hr.
    destruct p as [[a b] k]. simpl in *. rewrite !Z.add_0_l. congruence.
Qed.

Lemma run_start_nonneg runs i : (0 ≤ run_start runs i)%Z.
Proof. unfold run_start. lia. Qed.

Lemma rewrite_runs_lookup pos s e repl runs i :
  rewrite_runs pos s e repl runs !! i =
  (λ r, with_text r (rewritten_text (pos + run_start runs i) s e repl (run_text r)))
    <$> runs !! i.
Proof.
  revert pos i. induction runs as [|r runs IH]; intros pos i; [done|].
  destruct i as [|i]; simpl.
  - by rewrite run_start_0, Z.add_0_r.
  - rewrite IH, run_start_cons. destruct (runs !! i); [|done]. simpl.
    do 3 f_equal. lia.
Qed.

Lemma rewrite_runs_length pos s e repl runs :
  length (rewrite_runs pos s e repl runs) = length runs.
Proof. revert pos. induction runs; intros; simpl; [done | by f_equal]. Qed.

Lemma take_zero {A} (l : list A) n : n = 0 → take n l = [].
Proof. by intros ->. Qed.

Lemma rewritten_text_app o s e repl t1 t2 :
  (s ≤ e)%Z →
  rewritten_text o s e repl (t1 ++ t2) =
  rewritten_text o s e repl t1
  ++ rewritten_text (o + Z.of_nat (length t1)) s e repl t2.
Proof.
  intros Hse. unfold rewritten_text. rewrite length_app, take_app, drop_app.
  replace (Z.to_nat (s - o) - length t1) with (Z.to_nat (s - (o + Z.of_nat (length t1)))) by lia.
  replace (Z.to_nat (e - o) - length t1) with (Z.to_nat (e - (o + Z.of_nat (length t1)))) by lia.
  repeat case_bool_decide; try lia; rewrite ?app_nil_r, ?app_nil_l, <- ?app_assoc.
  - rewrite (take_zero t2) by lia. done.
  - rewrite (drop_ge t1) by lia. done.
  - destruct (decide (s < o)%Z).
    + rewrite (take_zero t1), (take_zero t2) by lia. done.
    + rewrite (drop_ge t1) by lia. done.
Qed.

Lemma rewrite_runs_text pos s e repl runs :
  (s ≤ e)%Z →
  runs_text (rewrite_runs pos s e repl runs) =
  rewritten_text pos s e repl (runs_text runs).
Proof.
  intros Hse. revert pos. induction runs as [|r runs IH]; intros pos.
  - unfold rewritten_text. simpl. case_bool_decide; [lia|].
    by destruct (Z.to_nat (s - pos)), (Z.to_nat (e - pos)).
  - change (r :: runs) with ([r] ++ runs). rewrite runs_text_app.
    rewrite rewritten_text_app by done. simpl.
    change (?x :: ?l) with ([x] ++ l). rewrite runs_text_app, IH.
    unfold runs_text. simpl. by rewrite !app_nil_r.
Qed.

(** Substituting at offset [s] of a text drops in [repl] between the text
    before the span and the text after it. *)
Lemma rewritten_text_whole s e repl t :
  (0 ≤ s < Z.of_nat (length t))%Z → (s ≤ e)%Z →
  rewritten_text 0 s e repl t = take (Z.to_nat s) t ++ repl ++ drop (Z.to_nat e) t.
Proof.
  intros Hs Hse. unfold rewritten_text. rewrite !Z.sub_0_r.
  case_bool_decide; [done | lia].
Qed.

(** ** The code computes the closed form *)

Lemma run_at_offset runs x :
  (0 ≤ x < Z.of_nat (length (runs_text runs)))%Z →
  ∃ i r, runs !! i = Some r ∧
         (run_start runs i ≤ x < run_start runs i + Z.of_nat (length (run_text r)))%Z.
Proof.
  revert x. induction runs as [|r runs IH]; intros x Hx.
  { simpl in Hx. lia. }
  destruct (decide (x < Z.of_nat (length (run_text r)))%Z) as [Hlt|Hge].
  - exists 0, r. rewrite run_start_0. split; [done | lia].
  - change (r :: runs) with ([r] ++ runs) in Hx.
    rewrite runs_text_app, length_app in Hx.
    unfold runs_text at 1 in Hx. simpl in Hx. rewrite app_nil_r in Hx.
    destruct (IH (x - Z.of_nat (length (run_text r)))%Z) as (i & r' & Hi & Hr); [lia|].
    exists (S i), r'. rewrite run_start_cons. split; [done | lia].
Qed.

Lemma set_run_text_Some idx s runs r :
  runs !! idx = Some r → set_run_text idx s runs = Ok (<[idx := with_text r s]> runs).
Proof. intros Hr. unfold set_run_text, py_getitem. by rewrite Hr. Qed.

(** The loop emptying the runs listed in [ms] empties exactly those. *)
Lemma for_each_clear (ms : list run_position) (rs : list Run) :
  (∀ p, p ∈ ms → p.2 < length rs) →
  ∃ rs', for_each (λ rs p, set_run_text p.2 [] rs) ms rs = Ok rs' ∧
    ∀ i, rs' !! i =
         (λ r, if bool_decide (i ∈ ms.*2) then with_text r [] else r) <$> rs !! i.
Proof.
  revert rs. induction ms as [|p ms IH]; intros rs Hlt.
  { exists rs. split; [done|]. intros i. simpl. by destruct (rs !! i). }
  assert (p.2 < length rs) as Hp by (apply Hlt; left).
  destruct (lookup_lt_is_Some_2 _ _ Hp) as [r Hr].
  destruct (IH (<[p.2 := with_text r []]> rs)) as (rs' & Hrs' & Hlook).
  { intros q Hq. rewrite length_insert. apply Hlt. by right. }
  exists rs'. split.
  { simpl. rewrite (set_run_text_Some _ _ _ _ Hr). done. }
  intros i. rewrite Hlook, fmap_cons. destruct (decide (i = p.2)) as [->|Hne].
  - rewrite list_lookup_insert_eq, Hr by done. simpl.
    rewrite (bool_decide_eq_true_2 (p.2 ∈ p.2 :: ms.*2)) by left. by case_bool_decide.
  - rewrite list_lookup_insert_ne by done. destruct (rs !! i); [|done]. simpl.
    rewrite (bool_decide_ext (i ∈ p.2 :: ms.*2) (i ∈ ms.*2)); [done|].
    rewrite elem_of_cons. naive_solver.
Qed.

(** The run holding the character at a given offset is unique. *)
Lemma run_holding_unique runs x i j ri rj :
  runs !! i = Some ri → runs !! j = Some rj →
  (run_start runs i ≤ x < run_start runs i + Z.of_nat (length (run_text ri)))%Z →
  (run_start runs j ≤ x < run_start runs j + Z.of_nat (length (run_text rj)))%Z →
  i = j.
Proof.
  intros Hi Hj Hxi Hxj. destruct (Nat.lt_trichotomy i j) as [Hlt|[->|Hlt]]; [|done|].
  - pose proof (run_end_le_start _ _ _ _ Hi Hlt). lia.
  - pose proof (run_end_le_start _ _ _ _ Hj Hlt). lia.
Qed.

Lemma run_positions_lookup_Some runs k p :
  build_run_positions 0 0 runs !! k = Some p →
  ∃ r, runs !! k = Some r ∧
       p = (run_start runs k, (run_start runs k + Z.of_nat (length (run_text r)))%Z, k).
Proof.
  rewrite build_run_positions_lookup. intros Hp.
  apply fmap_Some in Hp as (r & Hr & ->). exists r. by rewrite !Z.add_0_l.
Qed.

(** The first affected run holds the first character of the span. *)
Lemma first_affected runs s e pf :
  head (filter (is_affected s e) (build_run_positions 0 0 runs)) = Some pf →
  (0 ≤ s)%Z →
  ∃ r, runs !! pf.2 = Some r ∧ pf.1.1 = run_start runs pf.2 ∧
       (run_start runs pf.2 ≤ s < run_start runs pf.2 + Z.of_nat (length (run_text r)))%Z ∧
       (run_start runs pf.2 < e)%Z.
Proof.
  intros Hh Hs. apply head_filter_lookup in Hh as (k & Hk & [HP1 HP2] & Hmin).
  apply run_positions_lookup_Some in Hk as (r & Hr & ->). simpl in *.
  exists r. repeat split; [done| |lia|done].
  destruct k as [|j]; [by rewrite run_start_0|].
  destruct (lookup_lt_is_Some_2 runs j) as [r' Hr'].
  { apply lookup_lt_Some in Hr. lia. }
  pose proof (Hmin j (run_start runs j,
    (run_start runs j + Z.of_nat (length (run_text r')))%Z, j)) as Hno.
  rewrite build_run_positions_lookup, Hr' in Hno. simpl in Hno.
  rewrite !Z.add_0_l in Hno. specialize (Hno ltac:(lia) eq_refl).
  unfold is_affected in Hno. simpl in Hno.
  pose proof (run_start_S _ _ _ Hr'). lia.
Qed.

(** The last affected run holds the last character of the span. *)
Lemma last_affected runs s e pl :
  last (filter (is_affected s e) (build_run_positions 0 0 runs)) = Some pl →
  (e ≤ Z.of_nat (length (runs_text runs)))%Z →
  ∃ r, runs !! pl.2 = Some r ∧ pl.1.1 = run_start runs pl.2 ∧
       (run_start runs pl.2 < e ≤ run_start runs pl.2 + Z.of_nat (length (run_text r)))%Z ∧
       (s < run_start runs pl.2 + Z.of_nat (length (run_text r)))%Z.
Proof.
  intros Hl He. apply last_filter_lookup in Hl as (k & Hk & [HP1 HP2] & Hmax).
  apply run_positions_lookup_Some in Hk as (r & Hr & ->). simpl in *.
  exists r. repeat split; [done|done| |lia].
  destruct (runs !! S k) as [r'|] eqn:Hr'.
  - pose proof (Hmax (S k) (run_start runs (S k),
      (run_start runs (S k) + Z.of_nat (length (run_text r')))%Z, S k)) as Hno.
    rewrite build_run_positions_lookup, Hr' in Hno. simpl in Hno.
    rewrite !Z.add_0_l in Hno. specialize (Hno ltac:(lia) eq_refl).
    unfold is_affected in Hno. simpl in Hno.
    pose proof (run_start_S _ _ _ Hr). lia.
  - apply lookup_ge_None in Hr'. pose proof (run_start_S _ _ _ Hr) as HS.
    rewrite run_start_ge in HS by done. lia.
Qed.

Lemma with_text_id r : with_text r (run_text r) = r.
Proof. by destruct r. Qed.

(** The text left of a run by the substitution, case by case. *)
Lemma rewritten_text_untouched o s e repl t :
  (s < e)%Z → (o + Z.of_nat (length t) ≤ s ∨ e ≤ o)%Z →
  rewritten_text o s e repl t = t.
Proof.
  intros Hse Hout. unfold rewritten_text. case_bool_decide; [lia|]. simpl.
  destruct Hout.
  - rewrite take_ge, drop_ge by lia. by rewrite app_nil_r.
  - rewrite take_zero by lia. by replace (Z.to_nat (e - o)) with 0 by lia.
Qed.

(** ** Paragraphs and their runs *)

Lemma paragraph_runs_of_runs runs : paragraph_runs (of_runs runs) = runs.
Proof.
  unfold paragraph_runs, of_runs. induction runs as [|r runs IH]; [done|].
  simpl. by f_equal.
Qed.

Lemma paragraph_text_of_runs runs : paragraph_text (of_runs runs) = runs_text runs.
Proof.
  unfold paragraph_text, of_runs, runs_text. induction runs as [|r runs IH]; [done|].
  simpl. by f_equal.
Qed.

Lemma with_runs_id p : with_runs p (paragraph_runs p) = p.
Proof. induction p as [|[r|s] p IH]; simpl; [done| |]; by f_equal. Qed.

Lemma paragraph_runs_with_runs p runs :
  length runs = length (paragraph_runs p) → paragraph_runs (with_runs p runs) = runs.
Proof.
  revert runs. induction p as [|[r|s] p IH]; intros runs Hlen; simpl in *.
  - by destruct runs.
  - destruct runs as [|r' runs]; [done|]. simpl in *. f_equal. apply IH. lia.
  - by apply IH.
Qed.

Lemma with_runs_of_runs runs runs' :
  length runs' = length runs → with_runs (of_runs runs) runs' = of_runs runs'.
Proof.
  revert runs'. induction runs as [|r runs IH]; intros [|r' runs'] Hlen; try done.
  simpl in *. f_equal. apply IH. lia.
Qed.

(** A run overlaps the span exactly when its entry of the position map
    passes the test of the code. *)
Lemma overlaps_affected runs s e j :
  overlaps runs s e j ↔
  ∃ p, p ∈ filter (is_affected s e) (build_run_positions 0 0 runs) ∧ p.2 = j.
Proof.
  split.
  - intros (r & Hr & H1 & H2).
    exists (run_start runs j, (run_start runs j + Z.of_nat (length (run_text r)))%Z, j).
    split; [|done]. apply list_elem_of_filter. split; [by split|].
    apply elem_of_run_positions. by exists r.
  - intros ([[a b] k] & Hp & <-). apply list_elem_of_filter in Hp as [[H1 H2] Hp].
    apply elem_of_run_positions in Hp as (r & Hr & Hs & He). simpl in *.
    exists r. by subst.
Qed.

(** No run overlaps the span, or some run does. *)
Lemma overlap_or_not runs s e :
  (∀ j, ¬ overlaps runs s e j) ∨ (∃ j, overlaps runs s e j).
Proof.
  destruct (filter (is_affected s e) (build_run_positions 0 0 runs)) as [|p aff] eqn:Haff.
  - left. intros j (q & Hq & _)%overlaps_affected. rewrite Haff in Hq.
    by apply elem_of_nil in Hq.
  - right. exists p.2. apply overlaps_affected. exists p. split; [|done].
    rewrite Haff. by left.
Qed.

(** The last affected run starts before the end of the span, and no later
    run is affected. *)
Lemma last_affected_gen runs s e pl :
  last (filter (is_affected s e) (build_run_positions 0 0 runs)) = Some pl →
  ∃ r, runs !! pl.2 = Some r ∧ pl.1.1 = run_start runs pl.2 ∧
       (run_start runs pl.2 < e)%Z ∧
       (s < run_start runs pl.2 + Z.of_nat (length (run_text r)))%Z ∧
       ∀ j, pl.2 < j → ¬ overlaps runs s e j.
Proof.
  intros Hl. apply last_filter_lookup in Hl as (k & Hk & [HP1 HP2] & Hmax).
  apply run_positions_lookup_Some in Hk as (r & Hr & ->). simpl in *.
  exists r. split; [done|]. split; [done|]. split; [done|]. split; [lia|].
  intros j Hj (rj & Hrj & Hj1 & Hj2).
  apply (Hmax j (run_start runs j,
                 (run_start runs j + Z.of_nat (length (run_text rj)))%Z, j)); [done| |].
  - rewrite build_run_positions_lookup, Hrj. simpl. by rewrite !Z.add_0_l.
  - by split.
Qed.

(** Substitution on a paragraph whose text holds a non-empty target, when
    some run overlaps the span as the position map has it: the code
    succeeds and leaves the runs of the closed form. *)
Lemma find_and_replace_overlap p target repl s :
  str_find target (paragraph_text p) = Some s → target ≠ [] →
  (∃ j, overlaps (paragraph_runs p)
          (Z.of_nat s) (Z.of_nat s + Z.of_nat (length target)) j) →
  find_and_replace_in_paragraph p target repl =
  Ok (true, with_runs p
              (rewrite_runs 0 (Z.of_nat s) (Z.of_nat s + Z.of_nat (length target)) repl
                 (paragraph_runs p))).
Proof.
  intros Hf Hne [j0 Hj0].
  assert (0 < length target) as Hlen by (destruct target; simpl; [done | lia]).
  unfold find_and_replace_in_paragraph, str_contains, str_index. rewrite Hf.
  cbn [negb mbind res_bind]. cbv zeta.
  set (runs := paragraph_runs p) in *. clearbody runs.
  destruct runs as [|r0 runs0].
  { destruct Hj0 as (r & Hr & _). by rewrite lookup_nil in Hr. }
  remember (r0 :: runs0) as runs eqn:Hruns. clear Hruns r0 runs0.
  set (e := (Z.of_nat s + Z.of_nat (length target))%Z) in *.
  set (aff := filter (is_affected (Z.of_nat s) e) (build_run_positions 0 0 runs)).
  assert (aff ≠ []) as Haff.
  { intros Hnil. apply overlaps_affected in Hj0 as (q & Hq & _). fold aff in Hq.
    rewrite Hnil in Hq. by apply elem_of_nil in Hq. }
  destruct (head aff) as [[[frs fre] fi]|] eqn:Hh;
    [|destruct Haff; apply head_last_None; by left].
  destruct (last aff) as [[[lrs lre] li]|] eqn:Hl;
    [|destruct Haff; apply head_last_None; by right].
  apply first_affected in Hh as Hfirst; [|lia].
  apply last_affected_gen in Hl as Hlast.
  simpl in Hfirst, Hlast.
  destruct Hfirst as (rf & Hrf & -> & Hsf & Hef).
  destruct Hlast as (rl & Hrl & -> & Hel & Hsl & Hmax).
  unfold py_getitem at 1 2. rewrite Hrf, Hrl. cbn [mbind res_bind].
  rewrite py_slice_to, py_slice_from by lia.
  assert (fi ≤ li) as Hfl.
  { destruct (decide (fi ≤ li)); [done|]. exfalso.
    pose proof (run_end_le_start runs li fi _ Hrl ltac:(lia)). lia. }
  assert (∀ i r, runs !! i = Some r → i < fi →
    (run_start runs i + Z.of_nat (length (run_text r)) ≤ Z.of_nat s)%Z) as Hbf.
  { intros i r Hi Hlt. pose proof (run_end_le_start _ _ _ _ Hi Hlt). lia. }
  assert (∀ i r, runs !! i = Some r → fi < i → (Z.of_nat s < run_start runs i)%Z) as Haf.
  { intros i r Hi Hlt. pose proof (run_end_le_start runs fi i _ Hrf Hlt). lia. }
  assert (∀ i r, runs !! i = Some r → i < li →
    (run_start runs i + Z.of_nat (length (run_text r)) < e)%Z) as Hbl.
  { intros i r Hi Hlt. pose proof (run_end_le_start _ _ _ _ Hi Hlt). lia. }
  assert (∀ i r, runs !! i = Some r → li < i → (e ≤ run_start runs i)%Z) as Hal.
  { intros i r Hi Hlt. pose proof (run_end_le_start runs li i _ Hrl Hlt).
    destruct (decide (e ≤ run_start runs i)%Z); [done|].
    destruct (Hmax i Hlt). exists r. split; [done | lia]. }
  assert (∀ q, q ∈ aff → ∃ r, runs !! q.2 = Some r ∧ is_affected (Z.of_nat s) e q ∧
    q = (run_start runs q.2,
         (run_start runs q.2 + Z.of_nat (length (run_text r)))%Z, q.2)) as Hpos.
  { intros [[a b] k] Hq. apply list_elem_of_filter in Hq as [HP Hq].
    apply elem_of_run_positions in Hq as (r & Hr & H1 & H2). simpl in *.
    exists r. by subst. }
  assert (fre = (run_start runs fi + Z.of_nat (length (run_text rf)))%Z) as ->.
  { destruct (Hpos _ (head_Some_elem_of _ _ Hh)) as (r & Hr & _ & Heq).
    simpl in *. congruence. }
  assert (lre = (run_start runs li + Z.of_nat (length (run_text rl)))%Z) as ->.
  { destruct (Hpos _ (last_Some_elem_of _ _ Hl)) as (r & Hr & _ & Heq).
    simpl in *. congruence. }
  case_bool_decide as Hsame.
  - subst li. assert (rl = rf) as -> by congruence.
    rewrite (set_run_text_Some _ _ _ _ Hrf). cbn [mbind res_bind].
    do 3 f_equal. apply list_eq. intros i.
    rewrite rewrite_runs_lookup, Z.add_0_l. destruct (decide (i = fi)) as [->|Hi].
    + rewrite list_lookup_insert_eq, Hrf by (by eapply lookup_lt_Some). simpl.
      unfold rewritten_text. rewrite bool_decide_eq_true_2 by lia. done.
    + rewrite list_lookup_insert_ne by done. destruct (runs !! i) as [r|] eqn:Hr; [|done].
      simpl. rewrite rewritten_text_untouched, with_text_id; [done | lia |].
      destruct (decide (i < fi)) as [Hlt|Hge].
      * left. by eapply Hbf.
      * right. eapply Hal; [done | lia].
  - assert (fi < li) as Hlt by lia.
    rewrite (set_run_text_Some _ _ _ _ Hrf). cbn [mbind res_bind].
    set (runs1 := <[fi := _]> runs).
    set (ms := py_slice aff (Some 1%Z) (Some (-1)%Z)).
    assert (∀ q, q ∈ ms ↔ q ∈ aff ∧ q.2 ≠ fi ∧ q.2 ≠ li) as Hms.
    { intros q. unfold ms. rewrite py_slice_inner, elem_of_inner, Hh, Hl.
      - split; intros (Hq & H1 & H2); (split; [done|]).
        + destruct (Hpos q Hq) as (r & Hr & _ & Hq').
          split; intros Heq; [apply H1 | apply H2]; f_equal;
            rewrite Hq', Heq in *; congruence.
        + split; intros [= <-]; done.
      - apply NoDup_filter, build_run_positions_NoDup. }
    destruct (for_each_clear ms runs1) as (runs2 & Hruns2 & Hlook).
    { intros q Hq. apply Hms in Hq as [Hq _]. destruct (Hpos q Hq) as (r & Hr & _).
      unfold runs1. rewrite length_insert. by eapply lookup_lt_Some. }
    rewrite Hruns2. cbn [mbind res_bind].
    assert (∃ rl', runs2 !! li = Some rl' ∧ run_format rl' = run_format rl)
      as (rl' & Hrl' & Hfmt).
    { rewrite Hlook. unfold runs1. rewrite list_lookup_insert_ne, Hrl by lia. simpl.
      eexists. split; [done|]. by case_bool_decide. }
    rewrite (set_run_text_Some _ _ _ _ Hrl'). cbn [mbind res_bind].
    do 3 f_equal. apply list_eq. intros i.
    rewrite rewrite_runs_lookup, Z.add_0_l.
    destruct (decide (i = li)) as [->|Hil].
    { rewrite list_lookup_insert_eq, Hrl by (by eapply lookup_lt_Some). simpl.
      unfold with_text. rewrite Hfmt. do 2 f_equal. unfold rewritten_text.
      pose proof (Haf _ _ Hrl Hlt).
      rewrite take_zero, bool_decide_eq_false_2 by lia. done. }
    rewrite list_lookup_insert_ne, Hlook by done. unfold runs1.
    destruct (decide (i = fi)) as [->|Hif].
    { rewrite list_lookup_insert_eq, Hrf by (by eapply lookup_lt_Some). simpl.
      rewrite bool_decide_eq_false_2.
      - unfold with_text. simpl. do 2 f_equal. unfold rewritten_text.
        pose proof (Hbl _ _ Hrf Hlt).
        rewrite bool_decide_eq_true_2, (drop_ge (run_text rf)) by lia.
        by rewrite app_nil_r.
      - rewrite list_elem_of_fmap. intros (q & Hq2 & Hq). apply Hms in Hq. naive_solver. }
    rewrite list_lookup_insert_ne by done.
    destruct (runs !! i) as [r|] eqn:Hr; [|done]. simpl. f_equal.
    case_bool_decide as Hmid.
    + apply list_elem_of_fmap in Hmid as (q & -> & Hq). apply Hms in Hq as [Hq _].
      destruct (Hpos q Hq) as (r' & Hr' & [HP1 HP2] & Hq'). rewrite Hq' in HP1, HP2.
      simpl in HP1, HP2. assert (r' = r) as -> by congruence.
      assert (fi < q.2 < li) as [H1 H2].
      { split.
        - destruct (decide (q.2 < fi)); [pose proof (Hbf _ _ Hr ltac:(done)); lia | lia].
        - destruct (decide (li < q.2)); [pose proof (Hal _ _ Hr ltac:(done)); lia | lia]. }
      pose proof (Haf _ _ Hr H1). pose proof (Hbl _ _ Hr H2).
      unfold with_text. f_equal. unfold rewritten_text.
      rewrite take_zero, bool_decide_eq_false_2, drop_ge by lia. done.
    + rewrite rewritten_text_untouched, with_text_id; [done | lia |].
      destruct (decide (is_affected (Z.of_nat s) e
        (run_start runs i, (run_start runs i + Z.of_nat (length (run_text r)))%Z, i)))
        as [HP|HP]; [|unfold is_affected in HP; simpl in HP; lia].
      destruct Hmid. apply list_elem_of_fmap.
      exists (run_start runs i, (run_start runs i + Z.of_nat (length (run_text r)))%Z, i).
      split; [done|]. apply Hms. split; [|done].
      apply list_elem_of_filter. split; [done|]. apply elem_of_run_positions.
      exists r. done.
Qed.

(** When no run overlaps the span, the call gives up with the paragraph as
    it was. *)
Lemma find_and_replace_no_overlap p target repl s :
  str_find target (paragraph_text p) = Some s →
  (∀ j, ¬ overlaps (paragraph_runs p)
          (Z.of_nat s) (Z.of_nat s + Z.of_nat (length target)) j) →
  find_and_replace_in_paragraph p target repl = Ok (false, p).
Proof.
  intros Hf Hno.
  unfold find_and_replace_in_paragraph, str_contains, str_index. rewrite Hf.
  cbn [negb mbind res_bind]. cbv zeta.
  set (runs := paragraph_runs p) in *. clearbody runs.
  destruct runs as [|r0 runs0]; [done|].
  remember (r0 :: runs0) as runs eqn:Hruns. clear Hruns r0 runs0.
  destruct (filter _ _) as [|q aff] eqn:Haff; [done|]. exfalso.
  apply (Hno q.2). apply overlaps_affected. exists q. split; [|done].
  rewrite Haff. by left.
Qed.

Lemma find_and_replace_absent p target repl :
  str_find target (paragraph_text p) = None →
  find_and_replace_in_paragraph p target repl = Ok (false, p).
Proof.
  intros Hf. unfold find_and_replace_in_paragraph, str_contains. by rewrite Hf.
Qed.

Lemma find_and_replace_empty_target p repl :
  find_and_replace_in_paragraph p [] repl = Ok (false, p).
Proof.
  apply (find_and_replace_no_overlap p [] repl 0); [apply str_find_nil|].
  intros j (r & _ & _ & Hlt). pose proof (run_start_nonneg (paragraph_runs p) j).
  simpl in Hlt. lia.
Qed.

(** The two ways a call ends: it gives up and hands the paragraph back, or
    it finds a non-empty target and a run that overlaps its span, and
    leaves the closed form. *)
Lemma find_and_replace_cases p target repl :
  find_and_replace_in_paragraph p target repl = Ok (false, p) ∨
  ∃ s, str_find target (paragraph_text p) = Some s ∧ target ≠ [] ∧
       (∃ j, overlaps (paragraph_runs p)
               (Z.of_nat s) (Z.of_nat s + Z.of_nat (length target)) j) ∧
       find_and_replace_in_paragraph p target repl =
       Ok (true, with_runs p
                   (rewrite_runs 0 (Z.of_nat s) (Z.of_nat s + Z.of_nat (length target))
                      repl (paragraph_runs p))).
Proof.
  destruct (decide (target = [])) as [->|Hne].
  { left. apply find_and_replace_empty_target. }
  destruct (str_find target (paragraph_text p)) as [s|] eqn:Hf.
  - destruct (overlap_or_not (paragraph_runs p)
                (Z.of_nat s) (Z.of_nat s + Z.of_nat (length target))) as [Hno|Hyes].
    + left. by eapply find_and_replace_no_overlap.
    + right. exists s. split; [done|]. split; [done|]. split; [done|].
      by apply find_and_replace_overlap.
  - left. by apply find_and_replace_absent.
Qed.

Lemma find_and_replace_false_inv p target repl p' :
  find_and_replace_in_paragraph p target repl = Ok (false, p') → p' = p.
Proof.
  destruct (find_and_replace_cases p target repl) as [->|(s & _ & _ & _ & ->)];
    congruence.
Qed.

(** A successful call found a non-empty target and a run that overlaps its
    span, and left the closed form. *)
Lemma find_and_replace_true_inv p target repl p' :
  find_and_replace_in_paragraph p target repl = Ok (true, p') →
  ∃ s, str_find target (paragraph_text p) = Some s ∧ target ≠ [] ∧
       (∃ j, overlaps (paragraph_runs p)
               (Z.of_nat s) (Z.of_nat s + Z.of_nat (length target)) j) ∧
       p' = with_runs p
              (rewrite_runs 0 (Z.of_nat s) (Z.of_nat s + Z.of_nat (length target)) repl
                 (paragraph_runs p)).
Proof.
  destruct (find_and_replace_cases p target repl) as [->|(s & Hf & Hne & Hj & ->)];
    [done|].
  intros [= <-]. by exists s.
Qed.

(** The run that holds the start of the span, when some run overlaps it. *)
Lemma overlap_holds_start runs s e :
  (0 ≤ s)%Z → (∃ j, overlaps runs s e j) →
  ∃ i r, runs !! i = Some r ∧
         (run_start runs i ≤ s < run_start runs i + Z.of_nat (length (run_text r)))%Z ∧
         overlaps runs s e i.
Proof.
  intros Hs [j (q & Hq & _)%overlaps_affected].
  destruct (head (filter (is_affected s e) (build_run_positions 0 0 runs)))
    as [pf|] eqn:Hh.
  - apply first_affected in Hh as (r & Hr & _ & Hin & He); [|done].
    exists pf.2, r. split; [done|]. split; [done|]. exists r. split; [done | lia].
  - apply head_None in Hh. rewrite Hh in Hq. by apply elem_of_nil in Hq.
Qed.

(** ** Paragraphs that consist of runs only *)

(** Substitution on a paragraph of runs whose text holds a non-empty
    target: the code succeeds and leaves the runs of the closed form. *)
Lemma find_and_replace_found runs target repl s :
  str_find target (runs_text runs) = Some s → target ≠ [] →
  find_and_replace_in_paragraph (of_runs runs) target repl =
  Ok (true, of_runs (rewrite_runs 0 (Z.of_nat s)
                       (Z.of_nat s + Z.of_nat (length target)) repl runs)).
Proof.
  intros Hf Hne. pose proof (str_find_bound _ _ _ Hf) as Hb.
  assert (0 < length target) as Hlen by (destruct target; simpl; [done | lia]).
  rewrite (find_and_replace_overlap _ _ _ s).
  - rewrite paragraph_runs_of_runs, with_runs_of_runs; [done|].
    apply rewrite_runs_length.
  - by rewrite paragraph_text_of_runs.
  - done.
  - rewrite paragraph_runs_of_runs.
    destruct (run_at_offset runs (Z.of_nat s)) as (i & r & Hi & Hr); [lia|].
    exists i, r. split; [done | lia].
Qed.

(** What a successful call leaves of a paragraph of runs. *)
Lemma find_and_replace_text runs target repl p' :
  find_and_replace_in_paragraph (of_runs runs) target repl = Ok (true, p') →
  ∃ s, str_find target (runs_text runs) = Some s ∧ target ≠ [] ∧
       p' = of_runs (rewrite_runs 0 (Z.of_nat s)
                       (Z.of_nat s + Z.of_nat (length target)) repl runs) ∧
       runs_text (paragraph_runs p') =
       take s (runs_text runs) ++ repl ++ drop (s + length target) (runs_text runs).
Proof.
  intros Hcall. apply find_and_replace_true_inv in Hcall as (s & Hf & Hne & _ & ->).
  rewrite paragraph_text_of_runs in Hf. rewrite paragraph_runs_of_runs.
  rewrite with_runs_of_runs by apply rewrite_runs_length.
  exists s. split; [done|]. split; [done|]. split; [done|].
  rewrite paragraph_runs_of_runs.
  pose proof (str_find_bound _ _ _ Hf).
  assert (0 < length target) by (destruct target; simpl; [done | lia]).
  rewrite rewrite_runs_text, rewritten_text_whole by lia.
  by rewrite Nat2Z.id, <- Nat2Z.inj_add, Nat2Z.id.
Qed.

(* ================================================================== *)
(** * The claims on the substitution engine *)
(* ================================================================== *)

Lemma overlaps_holds_start runs s e i :
  (0 ≤ s < e)%Z → (e ≤ Z.of_nat (length (runs_text runs)))%Z →
  overlaps runs s e i → (∀ j, overlaps runs s e j → i ≤ j) →
  (run_start runs i ≤ s)%Z.
Proof.
  intros Hs He (r & Hr & Ho1 & Ho2) Hmin.
  destruct (run_at_offset runs s) as (k & rk & Hk & Hsk); [lia|].
  assert (i ≤ k) as Hik. { apply Hmin. exists rk. split; [done | lia]. }
  destruct (decide (i = k)) as [->|Hne]; [lia|].
  pose proof (run_end_le_start runs i k _ Hr ltac:(lia)). lia.
Qed.

Lemma overlaps_holds_end runs s e i r :
  (0 ≤ s < e)%Z → (e ≤ Z.of_nat (length (runs_text runs)))%Z →
  runs !! i = Some r →
  overlaps runs s e i → (∀ j, overlaps runs s e j → j ≤ i) →
  (e ≤ run_start runs i + Z.of_nat (length (run_text r)))%Z.
Proof.
  intros Hs He Hr (r' & Hr' & Ho1 & Ho2) Hmax.
  destruct (run_at_offset runs (e - 1)) as (k & rk & Hk & Hek); [lia|].
  assert (k ≤ i) as Hki. { apply Hmax. exists rk. split; [done | lia]. }
  destruct (decide (i = k)) as [->|Hne]; [assert (rk = r) as -> by congruence; lia|].
  pose proof (run_end_le_start runs k i _ Hk ltac:(lia)). lia.
Qed.

(** C1, counterexample: in the paragraph run "ab", hyperlink "X", run "cd"
    the target "bc" occurs in the concatenation of the runs' texts, "abcd",
    but not in the text of the paragraph, "abXcd", which is what the code
    searches: the call returns false and rewrites no run. *)
Lemma occurrence_across_hyperlink :
  runs_text (paragraph_runs split_by_link) = txt "abcd" ∧
  paragraph_text split_by_link = txt "abXcd" ∧
  is_substring (txt "bc") (runs_text (paragraph_runs split_by_link)) ∧
  find_and_replace_in_paragraph split_by_link (txt "bc") (txt "R")
    = Ok (false, split_by_link) ∧
  ¬ rewrites_affected_runs split_by_link (txt "bc") (txt "R").
Proof.
  split; [reflexivity|]. split; [reflexivity|].
  split; [by exists (txt "a"), (txt "d")|].
  split; [vm_compute; reflexivity|].
  intros (start & p' & _ & _ & Hcall & _). vm_compute in Hcall. discriminate.
Qed.

(** C1 (amended): on a paragraph that consists of runs only, when the target
    occurs in the concatenation of the runs' texts, substitution matches its
    leftmost occurrence, returns true for a non-empty target, and leaves a
    run list of the same length in which every run keeps its formatting; the
    only run that overlaps the matched span becomes prefix + replacement +
    suffix; of several overlapping runs the first becomes prefix +
    replacement, the last becomes its suffix, every run strictly between
    them becomes empty; a run that does not overlap the span keeps its
    text. *)
Theorem substitution_rewrites_affected_runs runs target replacement :
  is_substring target (runs_text runs) →
  rewrites_affected_runs (of_runs runs) target replacement.
Proof.
  intros Hsub. destruct (str_find_is_Some _ _ Hsub) as [start Hf].
  destruct (proj1 (str_find_Some _ _ _) Hf) as [Hocc Hmin].
  unfold rewrites_affected_runs. cbv zeta. rewrite paragraph_runs_of_runs.
  exists start. destruct (decide (target = [])) as [->|Hne].
  { exists (of_runs runs). rewrite find_and_replace_empty_target, paragraph_runs_of_runs.
    rewrite str_find_nil in Hf. injection Hf as <-.
    split; [done|]. split; [done|]. split; [done|]. split; [done|].
    intros i r Hr. exists r. split; [done|]. split; [done|].
    repeat split; try done; simpl; intros H; exfalso.
    - destruct H as [(r0 & _ & _ & Hlt) _]. pose proof (run_start_nonneg runs i). lia.
    - destruct H as [(r0 & _ & _ & Hlt) _]. pose proof (run_start_nonneg runs i). lia.
    - destruct H as [(j & (r0 & _ & _ & Hlt) & _) _].
      pose proof (run_start_nonneg runs j). lia.
    - destruct H as [(r0 & _ & _ & Hlt) _]. pose proof (run_start_nonneg runs i). lia. }
  eexists. split; [done|]. split; [done|].
  rewrite bool_decide_eq_true_2 by done.
  split; [by apply find_and_replace_found|]. rewrite paragraph_runs_of_runs.
  split; [apply rewrite_runs_length|]. intros i r Hr.
  rewrite rewrite_runs_lookup, Hr, Z.add_0_l. simpl. eexists. split; [done|].
  split; [done|].
  pose proof (str_find_bound _ _ _ Hf) as Hb.
  assert (0 < length target) as Hlen by (destruct target; simpl; [done | lia]).
  set (s := Z.of_nat start). set (e := (s + Z.of_nat (length target))%Z).
  assert (0 ≤ s < e)%Z as Hse by lia.
  assert (e ≤ Z.of_nat (length (runs_text runs)))%Z as He by lia.
  unfold rewritten_text. repeat split.
  - intros [Ho Huniq].
    pose proof (overlaps_holds_start runs s e i Hse He Ho) as H1.
    pose proof (overlaps_holds_end runs s e i r Hse He Hr Ho) as H2.
    rewrite bool_decide_eq_true_2; [done|].
    split; [apply H1 | apply Z.lt_le_trans with e; [lia | apply H2]];
      intros j Hj; apply Huniq in Hj; lia.
  - intros (Ho & Hmin' & j & (rj & Hrj & Hj1 & Hj2) & Hij).
    pose proof (overlaps_holds_start runs s e i Hse He Ho Hmin') as H1.
    pose proof (run_end_le_start runs i j _ Hr Hij).
    destruct Ho as (r0 & Hr0 & Ho1 & Ho2). assert (r0 = r) as -> by congruence.
    rewrite bool_decide_eq_true_2, drop_ge by lia. by rewrite app_nil_r.
  - intros [(j & (rj & Hrj & Hj1 & Hj2) & Hji) (k & (rk & Hrk & Hk1 & Hk2) & Hik)].
    pose proof (run_end_le_start runs j i _ Hrj Hji).
    pose proof (run_end_le_start runs i k _ Hr Hik).
    rewrite take_zero, bool_decide_eq_false_2, drop_ge by lia. done.
  - intros (Ho & Hmax & j & (rj & Hrj & Hj1 & Hj2) & Hji).
    pose proof (run_end_le_start runs j i _ Hrj Hji).
    rewrite take_zero, bool_decide_eq_false_2 by lia. done.
  - intros Hno. fold (rewritten_text (run_start runs i) s e replacement (run_text r)).
    apply rewritten_text_untouched; [lia|].
    destruct (decide (run_start runs i + Z.of_nat (length (run_text r)) ≤ s)%Z);
      [by left|]. right.
    destruct (decide (e ≤ run_start runs i)%Z); [done|].
    destruct Hno. exists r. split; [done | lia].
Qed.

Lemma substitution_rewrites_affected_runs_witness :
  rewrites_affected_runs (of_runs [styled "Hello " true false; plain "World"])
    (txt "lo Wo") (txt "{{x}}").
Proof.
  apply substitution_rewrites_affected_runs.
  exists (txt "Hel"), (txt "rld"). reflexivity.
Defined.

(** The spec's example of formatting preservation: a span crossing two runs. *)
Example two_run_substitution :
  find_and_replace_in_paragraph
    (of_runs [styled "Hello " true false; styled "World" false true])
    (txt "lo Wo") (txt "{{x}}")
  = Ok (true, of_runs [styled "Hel{{x}}" true false; styled "rld" false true]).
Proof. vm_compute. reflexivity. Qed.

(** An empty run inside the span counts as affected and stays empty. *)
Example three_run_substitution :
  find_and_replace_in_paragraph
    (of_runs [plain "ab"; mkRun [] no_format; plain "cd"; plain "ef"; plain "gh"])
    (txt "bcdefg") (txt "R")
  = Ok (true, of_runs [plain "aR"; mkRun [] no_format; mkRun [] no_format;
                       mkRun [] no_format; plain "h"]).
Proof. vm_compute. reflexivity. Qed.

(** C2, counterexample: the empty target occurs at every offset of "A-X-B-X",
    and substitution replaces no occurrence of it. *)
Lemma empty_target_not_replaced :
  occurs_at [] (runs_text (paragraph_runs (of_runs [plain "A-X-B-X"]))) 0 ∧
  occurs_at [] (runs_text (paragraph_runs (of_runs [plain "A-X-B-X"]))) 1 ∧
  find_and_replace_in_paragraph (of_runs [plain "A-X-B-X"]) [] (txt "R")
    = Ok (false, of_runs [plain "A-X-B-X"]) ∧
  ¬ replaces_leftmost (of_runs [plain "A-X-B-X"]) [] (txt "R").
Proof.
  split; [by exists [], (txt "A-X-B-X")|].
  split; [by exists (txt "A"), (txt "-X-B-X")|].
  split; [apply find_and_replace_empty_target|].
  intros (start & p' & _ & _ & Hcall & _).
  by rewrite find_and_replace_empty_target in Hcall.
Qed.

(** A hyperlink before the run shifts the offsets of the paragraph's text
    against those of the runs: the call for "X" returns true and writes the
    replacement over the "-" that follows the first "X". *)
Example hyperlink_shifts_replacement :
  find_and_replace_in_paragraph link_first (txt "X") (txt "R")
    = Ok (true, [ILink (txt "Z"); IRun (plain "A-XRB-X")]) ∧
  ¬ replaces_leftmost link_first (txt "X") (txt "R").
Proof.
  split; [vm_compute; reflexivity|].
  intros (start & p' & Hocc & Hmin & Hcall & Htext).
  vm_compute in Hcall. injection Hcall as <-.
  assert (str_find (txt "X") (runs_text (paragraph_runs link_first)) = Some start) as Hf
    by (by apply str_find_Some).
  vm_compute in Hf. injection Hf as <-. vm_compute in Htext. discriminate.
Qed.

(** C2 (amended): on a paragraph that consists of runs only, for a non-empty
    target that occurs in the concatenation of the runs' texts, substitution
    replaces the leftmost occurrence only: the text before it and the text
    after it, later occurrences included, stay as they were.  Such a
    paragraph whose text is "A-X-B-X", however split into runs, ends with
    the text "A-R-B-X" for the target "X" and the replacement "R".  For the
    empty target nothing is replaced and the call returns false, on every
    paragraph. *)
Theorem first_occurrence_only :
  (∀ runs target replacement,
     target ≠ [] → is_substring target (runs_text runs) →
     replaces_leftmost (of_runs runs) target replacement) ∧
  (∀ runs, runs_text runs = txt "A-X-B-X" →
     ∃ runs', find_and_replace_in_paragraph (of_runs runs) (txt "X") (txt "R")
                = Ok (true, of_runs runs') ∧
              runs_text runs' = txt "A-R-B-X") ∧
  (∀ p replacement, find_and_replace_in_paragraph p [] replacement = Ok (false, p)).
Proof.
  assert (∀ runs target replacement,
     target ≠ [] → is_substring target (runs_text runs) →
     ∃ start runs',
       str_find target (runs_text runs) = Some start ∧
       find_and_replace_in_paragraph (of_runs runs) target replacement
         = Ok (true, of_runs runs') ∧
       runs_text runs' =
         take start (runs_text runs) ++ replacement
         ++ drop (start + length target) (runs_text runs)) as Hgen.
  { intros runs target replacement Hne Hsub.
    destruct (str_find_is_Some _ _ Hsub) as [start Hf].
    pose proof (find_and_replace_found _ _ replacement _ Hf Hne) as Hcall.
    destruct (find_and_replace_text _ _ _ _ Hcall) as (s & Hs & _ & _ & Htext).
    assert (s = start) as -> by congruence.
    rewrite paragraph_runs_of_runs in Htext. by eexists start, _. }
  split; [|split; [|intros p replacement; apply find_and_replace_empty_target]].
  - intros runs target replacement Hne Hsub.
    destruct (Hgen runs target replacement Hne Hsub) as (start & runs' & Hf & Hcall & Hres).
    apply str_find_Some in Hf as [Ho Hmin].
    unfold replaces_leftmost. cbv zeta. rewrite paragraph_runs_of_runs.
    exists start, (of_runs runs'). by rewrite paragraph_runs_of_runs.
  - intros runs Htext.
    destruct (Hgen runs (txt "X") (txt "R")) as (start & runs' & Hf & Hcall & Hres).
    { done. }
    { rewrite Htext. by exists (txt "A-"), (txt "-B-X"). }
    exists runs'. split; [done|].
    rewrite Htext in Hf, Hres. vm_compute in Hf. injection Hf as <-. exact Hres.
Qed.

Lemma first_occurrence_only_witness :
  replaces_leftmost (of_runs [plain "A-"; plain "X-B"; plain "-X"]) (txt "X") (txt "R") ∧
  ∃ runs', find_and_replace_in_paragraph (of_runs [plain "A-"; plain "X-B"; plain "-X"])
             (txt "X") (txt "R") = Ok (true, of_runs runs') ∧
           runs_text runs' = txt "A-R-B-X".
Proof.
  split.
  - apply (proj1 first_occurrence_only); [discriminate|].
    exists (txt "A-"), (txt "-B-X"). reflexivity.
  - apply (proj1 (proj2 first_occurrence_only)). reflexivity.
Defined.

(** C3, at the failing input: in the paragraph run "Hello ", hyperlink
    "World", run "!!" the call for "World" returns true and overwrites the
    run "!!" with the replacement: the concatenation of the runs' texts had 8
    characters and has 6 + 1 afterwards, not 8 - 5 + 1; the same holds of a
    cell with that paragraph. *)
Theorem hyperlink_breaks_length :
  find_and_replace_in_paragraph (linked_world "!!") (txt "World") (txt "R")
    = Ok (true, linked_world "R") ∧
  find_and_replace_in_cell [linked_world "!!"] (txt "World") (txt "R")
    = Ok (true, [linked_world "R"]) ∧
  length (runs_text (paragraph_runs (linked_world "!!"))) = 8 ∧
  length (runs_text (paragraph_runs (linked_world "R"))) = 7 ∧
  ¬ length_accounted (linked_world "!!") (txt "World") (txt "R") ∧
  ¬ cell_length_accounted [linked_world "!!"] (txt "World") (txt "R").
Proof.
  split; [vm_compute; reflexivity|]. split; [vm_compute; reflexivity|].
  split; [reflexivity|]. split; [reflexivity|]. split.
  - intros H. specialize (H (linked_world "R") ltac:(vm_compute; reflexivity)).
    vm_compute in H. discriminate.
  - intros H. specialize (H [linked_world "R"] ltac:(vm_compute; reflexivity)).
    vm_compute in H. discriminate.
Qed.




(** C10: on a paragraph with at least one run the empty target, which occurs
    in every text, makes the call return false and leave the paragraph as it
    was; a call returns true only for a non-empty target whose first
    character, at the offset where the paragraph's text holds it, lies
    inside some run. *)
Theorem empty_target_returns_false p replacement :
  paragraph_runs p ≠ [] →
  is_substring [] (paragraph_text p) ∧
  find_and_replace_in_paragraph p [] replacement = Ok (false, p) ∧
  ∀ target p',
    find_and_replace_in_paragraph p target replacement = Ok (true, p') →
    ∃ start i r,
      str_find target (paragraph_text p) = Some start ∧ 0 < length target ∧
      paragraph_runs p !! i = Some r ∧
      (run_start (paragraph_runs p) i ≤ Z.of_nat start
       < run_start (paragraph_runs p) i + Z.of_nat (length (run_text r)))%Z ∧
      overlaps (paragraph_runs p)
        (Z.of_nat start) (Z.of_nat start + Z.of_nat (length target)) i.
Proof.
  intros _. split; [by exists [], (paragraph_text p)|].
  split; [apply find_and_replace_empty_target|].
  intros target p' Hcall.
  apply find_and_replace_true_inv in Hcall as (start & Hf & Hne & Hj & _).
  assert (0 < length target) as Hlen by (destruct target; simpl; [done | lia]).
  apply overlap_holds_start in Hj as (i & r & Hr & Hin & Ho); [|lia].
  by exists start, i, r.
Qed.

Lemma empty_target_returns_false_witness :
  find_and_replace_in_paragraph (of_runs [plain "Hello "; plain "World"]) [] (txt "R")
  = Ok (false, of_runs [plain "Hello "; plain "World"]).
Proof.
  apply (empty_target_returns_false (of_runs [plain "Hello "; plain "World"]) (txt "R")).
  discriminate.
Defined.

(* ================================================================== *)
(** * Properties of loop expansion *)
(* ================================================================== *)

Lemma bind_Ok {A B} (m : res A) (f : A → res B) (b : B) :
  m ≫= f = Ok b ↔ ∃ a, m = Ok a ∧ f a = Ok b.
Proof.
  destruct m as [a|e]; simpl; [|split; [done | by intros (? & ? & ?)]].
  split; [by exists a | by intros (? & [= ->] & ?)].
Qed.

Lemma fill_element_unfold fill tag content children :
  fill_element fill (Element tag content children) =
  content' ← (if bool_decide (tag = w_t) then fill content else Ok content);
  children' ← map_res (fill_element fill) children;
  Ok (Element tag content' children').
Proof.
  simpl. destruct (if bool_decide (tag = w_t) then fill content else Ok content); [|done].
  simpl. f_equal. induction children as [|c rest IH]; [done|].
  simpl. destruct (fill_element fill c); [|done]. simpl. by rewrite IH.
Qed.

Lemma map_res_Ok {A B} (f : A → res B) xs ys :
  map_res f xs = Ok ys ↔ Forall2 (λ x y, f x = Ok y) xs ys.
Proof.
  revert ys. induction xs as [|x xs IH]; intros ys; simpl.
  - split; [intros [= <-]; constructor | by intros ->%Forall2_nil_inv_l].
  - rewrite bind_Ok. split.
    + intros (y & Hy & Hrest). apply bind_Ok in Hrest as (ys' & Hys' & [= <-]).
      constructor; [done | by apply IH].
    + intros (y & ys' & Hy & Hys' & ->)%Forall2_cons_inv_l. exists y. split; [done|].
      apply IH in Hys'. by rewrite Hys'.
Qed.

Lemma map_res_total {A B} (f : A → res B) xs :
  Forall (λ x, ∃ y, f x = Ok y) xs → ∃ ys, map_res f xs = Ok ys.
Proof.
  induction 1 as [|x xs [y Hy] _ [ys Hys]]; [by exists []|].
  exists (y :: ys). simpl. by rewrite Hy, Hys.
Qed.

(** Filling keeps the leaves in place and fills each of them. *)
Lemma fill_element_leaves fill x x' :
  fill_element fill x = Ok x' →
  Forall2 (λ c c', fill c = Ok c') (leaf_contents x) (leaf_contents x').
Proof.
  revert x'. induction x as [tag content children IH] using xml_ind_nested.
  intros x'. rewrite fill_element_unfold, bind_Ok.
  intros (content' & Hc & Hrest). apply bind_Ok in Hrest as (children' & Hch & [= <-]).
  simpl. apply Forall2_app.
  - case_bool_decide; [by repeat constructor | constructor].
  - apply map_res_Ok in Hch. clear Hc. induction Hch as [|c c' cs cs' Hcc' _ IHcs]; simpl.
    + constructor.
    + apply Forall_cons in IH as [IHc IH]. apply Forall2_app; auto.
Qed.

(** Filling succeeds when it succeeds on every leaf content. *)
Lemma fill_element_total fill x :
  (∀ c, ∃ c', fill c = Ok c') → ∃ x', fill_element fill x = Ok x'.
Proof.
  intros Hfill. induction x as [tag content children IH] using xml_ind_nested.
  rewrite fill_element_unfold.
  assert (∃ c', (if bool_decide (tag = w_t) then fill content else Ok content) = Ok c')
    as [c' ->] by (case_bool_decide; eauto).
  simpl. destruct (map_res_total (fill_element fill) children IH) as [ch' ->].
  simpl. eauto.
Qed.

(** Filling changes nothing but the text of the text leaves. *)
Lemma fill_element_without_text fill x x' :
  fill_element fill x = Ok x' → without_text x' = without_text x.
Proof.
  revert x'. induction x as [tag content children IH] using xml_ind_nested.
  intros x'. rewrite fill_element_unfold, bind_Ok.
  intros (content' & Hc & Hrest). apply bind_Ok in Hrest as (children' & Hch & [= <-]).
  simpl. f_equal.
  - case_bool_decide; [done|congruence].
  - apply map_res_Ok in Hch. clear Hc. induction Hch as [|c c' cs cs' Hcc' _ IHcs]; [done|].
    apply Forall_cons in IH as [IHc IH]. simpl. f_equal; auto.
Qed.

(** ** [str.replace] *)

Lemma replace_from_skip old new t rest :
  replace_from old new (length t) (t ++ rest) = replace_from old new 0 rest.
Proof. induction t as [|c t IH]; [done|]. simpl. exact IH. Qed.

Lemma py_replace_nil old new : old ≠ [] → py_replace old new [] = [].
Proof. by destruct old. Qed.

Lemma py_replace_match old new rest :
  old ≠ [] → py_replace old new (old ++ rest) = new ++ py_replace old new rest.
Proof.
  destruct old as [|c old']; [done|]. intros _. unfold py_replace.
  change ((c :: old') ++ rest) with (c :: (old' ++ rest)).
  cbn [replace_from].
  assert (starts_with (c :: old') (c :: old' ++ rest) = true) as ->.
  { apply starts_with_prefix. by exists rest. }
  f_equal. replace (length (c :: old') - 1) with (length old') by (simpl; lia).
  apply replace_from_skip.
Qed.

Lemma py_replace_miss old new c s :
  old ≠ [] → starts_with old (c :: s) = false →
  py_replace old new (c :: s) = c :: py_replace old new s.
Proof.
  destruct old as [|a old']; [done|]. intros _ Hp. unfold py_replace.
  cbn [replace_from]. by rewrite Hp.
Qed.

(** A text that does not hold [old] is left as it is. *)
Lemma py_replace_absent old new s :
  old ≠ [] → str_find old s = None → py_replace old new s = s.
Proof.
  intros Hne. induction s as [|c s IH]; intros Hf; [by apply py_replace_nil|].
  simpl in Hf. destruct (starts_with old (c :: s)) eqn:Hp; [done|].
  rewrite py_replace_miss by done. f_equal. apply IH.
  by destruct (str_find old s).
Qed.

(** The leftmost occurrence of [old] is replaced, and the replacement goes
    on in the text after it: every occurrence met on the way is replaced. *)
Lemma py_replace_leftmost old new pre post :
  old ≠ [] → str_find old (pre ++ old ++ post) = Some (length pre) →
  py_replace old new (pre ++ old ++ post) = pre ++ new ++ py_replace old new post.
Proof.
  intros Hne. induction pre as [|c pre IH]; intros Hf.
  - simpl. by apply py_replace_match.
  - change ((c :: pre) ++ old ++ post) with (c :: (pre ++ old ++ post)) in *.
    simpl in Hf. destruct (starts_with old (c :: pre ++ old ++ post)) eqn:Hp; [done|].
    rewrite py_replace_miss by done. simpl. f_equal. apply IH.
    destruct (str_find old (pre ++ old ++ post)); simpl in Hf; congruence.
Qed.

Lemma loop_marker_nonempty loop_var label : loop_marker loop_var label ≠ [].
Proof. done. Qed.

(** ** The passes over one leaf in closed form *)

Lemma str_contains_false t s : str_contains t s = false ↔ str_find t s = None.
Proof. unfold str_contains. by destruct (str_find t s). Qed.

(** The test [marker in t_elem.text] changes nothing: a replacement of an
    absent marker is the identity. *)
Lemma replace_marker_closed loop_var it s cl label :
  cell_label_of cl = Ok label →
  replace_marker loop_var it s cl =
  Ok (py_replace (loop_marker (py_str loop_var) (py_str label))
                 (py_str (item_get it label)) s).
Proof.
  intros Hl. unfold replace_marker. rewrite Hl. cbn [mbind res_bind].
  destruct (str_contains _ s) eqn:Hc; [done|].
  apply str_contains_false in Hc. rewrite py_replace_absent; [done| |done].
  apply loop_marker_nonempty.
Qed.

Lemma for_each_replace_marker loop_var it cls labels s :
  Forall2 (λ cl label, cell_label_of cl = Ok label) cls labels →
  for_each (replace_marker loop_var it) cls s =
  Ok (replace_all_markers loop_var it labels s).
Proof.
  intros Hcls. revert s. induction Hcls as [|cl label cls labels Hl _ IH]; intros s.
  - done.
  - cbn [for_each]. rewrite (replace_marker_closed _ _ _ _ _ Hl).
    cbn [mbind res_bind]. apply IH.
Qed.

Lemma replace_all_markers_nil loop_var it labels :
  replace_all_markers loop_var it labels [] = [].
Proof.
  induction labels as [|l labels IH]; [done|]. unfold replace_all_markers in *.
  cbn [foldl]. rewrite py_replace_nil; [done | apply loop_marker_nonempty].
Qed.

Lemma fill_leaf_closed loop_var it cls labels content :
  Forall2 (λ cl label, cell_label_of cl = Ok label) cls labels →
  fill_leaf loop_var (VList cls) it content =
  Ok (replace_all_markers loop_var it labels <$> content).
Proof.
  intros Hcls. destruct content as [[|c s]|]; cbn [fill_leaf py_iter mbind res_bind fmap option_fmap option_map].
  - by rewrite replace_all_markers_nil.
  - by rewrite (for_each_replace_marker _ _ _ _ _ Hcls).
  - done.
Qed.

(** Under well-formed cell labels, cloning and filling a row succeeds, and
    the leaves of the clone are those of the template after the passes. *)
Lemma clone_row_closed loop_var cls labels template it :
  Forall2 (λ cl label, cell_label_of cl = Ok label) cls labels →
  ∃ row', clone_row loop_var (VList cls) template it = Ok row' ∧
    leaf_contents row' =
    (λ c : option text, replace_all_markers loop_var (coerce_item it) labels <$> c)
      <$> leaf_contents template.
Proof.
  intros Hcls. unfold clone_row.
  destruct (fill_element_total
    (fill_leaf loop_var (VList cls) (coerce_item it)) template) as [row' Hrow'].
  { intros c. rewrite (fill_leaf_closed _ _ _ _ _ Hcls). eauto. }
  exists row'. split; [done|]. apply fill_element_leaves in Hrow'.
  induction Hrow' as [|c c' cs cs' Hc _ IH]; [done|].
  rewrite (fill_leaf_closed _ _ _ _ _ Hcls) in Hc. injection Hc as <-.
  rewrite fmap_cons. by f_equal.
Qed.

(** ** Row insertion *)

(** Adding the new rows after the template row in reverse order leaves them
    in item order right after it. *)
Lemma foldl_addnext {A} k (rows news : list A) :
  k < length rows →
  foldl (λ rows new_tr, addnext k new_tr rows) rows (reverse news) =
  take (S k) rows ++ news ++ drop (S k) rows.
Proof.
  intros Hk. induction news as [|n news IH].
  - simpl. by rewrite take_drop.
  - rewrite reverse_cons, foldl_app. simpl. rewrite IH. unfold addnext.
    rewrite take_app_length', drop_app_length'; [done| |];
      rewrite length_take; lia.
Qed.

Lemma delete_template_row {A} k (rows rest : list A) x :
  rows !! k = Some x →
  delete k (take (S k) rows ++ rest) = take k rows ++ rest.
Proof.
  intros Hx. erewrite take_S_r by done. rewrite <- app_assoc. simpl.
  assert (length (take k rows) = k) as Hlen.
  { rewrite length_take. apply lookup_lt_Some in Hx. lia. }
  rewrite <- Hlen at 1. apply delete_middle.
Qed.

Lemma py_position_nat n k : k < n → py_position n (Z.of_nat k) = Ok k.
Proof.
  intros Hk. unfold py_position. destruct (Z.ltb_spec (Z.of_nat k) 0); [lia|].
  destruct (Z.leb_spec 0 (Z.of_nat k)); [|lia].
  destruct (Z.ltb_spec (Z.of_nat k) (Z.of_nat n)); [|lia]. simpl.
  by rewrite Nat2Z.id.
Qed.

Lemma py_getitem_Some {A} (l : list A) i x : l !! i = Some x → py_getitem l i = Ok x.
Proof. intros H. unfold py_getitem. by rewrite H. Qed.


(* ================================================================== *)
(** * The claims on loop expansion *)
(* ================================================================== *)


Example invoice_expansion :
  expand_table_loops [invoice_table] invoice_data [invoice_mapping] =
  Ok [[ w_tr [w_tc (txt "No"); w_tc (txt "Amount")];
        w_tr [w_tc (txt "1"); w_tc (txt "5.000")];
        w_tr [w_tc (txt "2"); w_tc []];
        w_tr [w_tc []; w_tc []];
        w_tr [w_tc (txt "Total"); w_tc (txt "{{total}}")] ]].
Proof. vm_compute. reflexivity. Qed.


(** C5, counterexample: an item whose field is itself the text of a marker
    leaves that marker in the new row. *)
Lemma marker_survives_expansion :
  clone_row (SStr (txt "items"))
    (VList [IDict {[ txt "label" := SStr (txt "a") ]}])
    (w_tr [w_tc (loop_marker (txt "items") (txt "a"))])
    (IDict {[ txt "a" := SStr (loop_marker (txt "items") (txt "a")) ]})
  = Ok (w_tr [w_tc (loop_marker (txt "items") (txt "a"))]) ∧
  ¬ markers_exhausted (SStr (txt "items"))
      [IDict {[ txt "label" := SStr (txt "a") ]}]
      (w_tr [w_tc (loop_marker (txt "items") (txt "a"))]).
Proof.
  split; [vm_compute; reflexivity|]. intros Hclaim.
  apply (Hclaim (loop_marker (txt "items") (txt "a"))
           (IDict {[ txt "label" := SStr (txt "a") ]}) (SStr (txt "a"))).
  - vm_compute. left.
  - left.
  - vm_compute. reflexivity.
  - by exists [], [].
Qed.

Lemma replace_all_markers_fixed loop_var it labels s :
  (∀ l, l ∈ labels → ¬ is_substring (loop_marker (py_str loop_var) (py_str l)) s) →
  replace_all_markers loop_var it labels s = s.
Proof.
  induction labels as [|l labels IH]; intros Hfree; [done|].
  unfold replace_all_markers in *. cbn [foldl].
  rewrite py_replace_absent.
  - apply IH. intros l' Hl'. apply Hfree. by right.
  - apply loop_marker_nonempty.
  - apply str_find_None, Hfree. left.
Qed.

(** A leaf that holds exactly one listed marker. *)
Lemma replace_all_markers_exact loop_var it all labels l0 :
  labels ⊆ all →
  (∀ l l', l ∈ all → l' ∈ all →
     ¬ is_substring (loop_marker (py_str loop_var) (py_str l')) (py_str (item_get it l))) →
  (∀ l', l' ∈ all →
     loop_marker (py_str loop_var) (py_str l') ≠ loop_marker (py_str loop_var) (py_str l0) →
     ¬ is_substring (loop_marker (py_str loop_var) (py_str l'))
                    (loop_marker (py_str loop_var) (py_str l0))) →
  (∃ l, l ∈ labels ∧
        loop_marker (py_str loop_var) (py_str l) = loop_marker (py_str loop_var) (py_str l0)) →
  ∃ l1, l1 ∈ labels ∧
    loop_marker (py_str loop_var) (py_str l1) = loop_marker (py_str loop_var) (py_str l0) ∧
    replace_all_markers loop_var it labels (loop_marker (py_str loop_var) (py_str l0))
    = py_str (item_get it l1).
Proof.
  intros Hsub Hval Hmark. induction labels as [|l labels IH]; intros (l' & Hl' & Heq).
  { by apply elem_of_nil in Hl'. }
  destruct (decide (loop_marker (py_str loop_var) (py_str l)
                    = loop_marker (py_str loop_var) (py_str l0))) as [Hm|Hm].
  - exists l. split; [left|]. split; [done|].
    unfold replace_all_markers. cbn [foldl]. rewrite Hm.
    rewrite <- (app_nil_r (loop_marker _ (py_str l0))) at 2.
    rewrite py_replace_match, py_replace_nil, app_nil_r by apply loop_marker_nonempty.
    apply replace_all_markers_fixed. intros l2 Hl2.
    apply Hval; apply Hsub; [left | by right].
  - destruct IH as (l1 & Hl1 & Hm1 & Hres).
    { intros x Hx. apply Hsub. by right. }
    { apply elem_of_cons in Hl' as [->|Hl']; [done|]. by exists l'. }
    exists l1. split; [by right|]. split; [done|].
    unfold replace_all_markers in *. cbn [foldl]. rewrite py_replace_absent; [done| |].
    + apply loop_marker_nonempty.
    + apply str_find_None, Hmark; [apply Hsub; left | done].
Qed.

(** C5 (amended): with cell labels that each carry a label, the clone of the
    template row for an item exists, and its leaves are those of the
    template after one [str.replace] pass per cell label, in list order, of
    the label's marker by the stringified field of the item.  A pass leaves
    a text without the marker as it is, and otherwise replaces the leftmost
    occurrence and goes on after it, so that every occurrence met on the way
    is replaced.  A field that the item lacks is the empty string, and an
    item that is no dict stands for the dict that holds its string under
    "value".  A leaf that held exactly the marker of a listed label ends as
    the item's field, with no listed marker in it, provided that no listed
    marker occurs in a listed field of the item or strictly inside the
    marker of the leaf. *)
Theorem loop_markers_replaced loop_var cls labels template it :
  Forall2 (λ cl label, cell_label_of cl = Ok label) cls labels →
  let d := coerce_item it in
  let marker l := loop_marker (py_str loop_var) (py_str l) in
  let value l := py_str (item_get d l) in
  ∃ row',
    clone_row loop_var (VList cls) template it = Ok row' ∧
    leaf_contents row' =
      (λ c : option text, replace_all_markers loop_var d labels <$> c)
        <$> leaf_contents template ∧
    (∀ l s, ¬ is_substring (marker l) s → py_replace (marker l) (value l) s = s) ∧
    (∀ l pre post,
       str_find (marker l) (pre ++ marker l ++ post) = Some (length pre) →
       py_replace (marker l) (value l) (pre ++ marker l ++ post) =
       pre ++ value l ++ py_replace (marker l) (value l) post) ∧
    (∀ k, d !! k = None → value (SStr k) = []) ∧
    (∀ x, it = IScalar x → d = {[ txt "value" := SStr (py_str x) ]}) ∧
    (∀ l0, l0 ∈ labels →
       (∀ l l', l ∈ labels → l' ∈ labels → ¬ is_substring (marker l') (value l)) →
       (∀ l', l' ∈ labels → marker l' ≠ marker l0 →
              ¬ is_substring (marker l') (marker l0)) →
       ∃ l1, l1 ∈ labels ∧ marker l1 = marker l0 ∧
             replace_all_markers loop_var d labels (marker l0) = value l1 ∧
             ∀ l', l' ∈ labels → ¬ is_substring (marker l') (value l1)).
Proof.
  intros Hcls d marker value.
  destruct (clone_row_closed loop_var cls labels template it Hcls) as (row' & Hrow' & Hleaves).
  exists row'. split; [done|]. split; [done|]. split; [|split; [|split; [|split]]].
  - intros l s Hno. apply py_replace_absent; [apply loop_marker_nonempty|].
    by apply str_find_None.
  - intros l pre post Hf. apply py_replace_leftmost; [apply loop_marker_nonempty | done].
  - intros k Hk. unfold value. simpl. by rewrite Hk.
  - by intros x ->.
  - intros l0 Hl0 Hval Hmark.
    destruct (replace_all_markers_exact loop_var d labels labels l0)
      as (l1 & Hl1 & Hm1 & Hres); [done|done|done|by exists l0|].
    exists l1. repeat split; try done. intros l' Hl'. by apply Hval.
Qed.

Lemma loop_markers_replaced_witness :
  ∃ row',
    clone_row (SStr (txt "items")) (VList invoice_cell_labels)
      (w_tr [w_tc (loop_marker (txt "items") (txt "stt"));
             w_tc (loop_marker (txt "items") (txt "amount"))])
      (IDict {[ txt "stt" := SInt 1; txt "amount" := SStr (txt "5.000") ]})
    = Ok row' ∧
    leaf_contents row' = [Some (txt "1"); Some (txt "5.000")].
Proof.
  destruct (loop_markers_replaced (SStr (txt "items")) invoice_cell_labels
              [SStr (txt "stt"); SStr (txt "amount")]
              (w_tr [w_tc (loop_marker (txt "items") (txt "stt"));
                     w_tc (loop_marker (txt "items") (txt "amount"))])
              (IDict {[ txt "stt" := SInt 1; txt "amount" := SStr (txt "5.000") ]}))
    as (row' & Hrow' & Hleaves & _).
  { repeat constructor. }
  exists row'. split; [exact Hrow'|]. rewrite Hleaves. vm_compute. reflexivity.
Defined.

(* ================================================================== *)
(** * The claims on materialization *)
(* ================================================================== *)

(** C7, counterexample: the original text of the mapping is not in the
    paragraph, and the operation returns [True] with the document as it was. *)
Lemma failure_not_surfaced :
  apply_mappings_to_document (λ _, []) greeting [farewell_mapping] = Ok (true, greeting) ∧
  ¬ surfaces_failures (λ _, []) greeting [farewell_mapping].
Proof.
  assert (apply_mappings_to_document (λ _, []) greeting [farewell_mapping]
          = Ok (true, greeting)) as Hrun by (vm_compute; reflexivity).
  split; [exact Hrun|]. intros Hclaim. apply (Hclaim) with (doc' := greeting); [|exact Hrun].
  exists farewell_mapping. split; [left|].
  exists 0, (of_runs [plain "Hello "; plain "World"]), (txt "Goodbye"), (txt "name").
  repeat split; try (vm_compute; reflexivity).
  apply str_find_None. vm_compute. reflexivity.
Qed.

(** C7 (amended): whatever the mappings, the flag that materialization
    returns is [True] whenever it returns: the outcomes of the substitutions
    are dropped.  A paragraph mapping whose original text is not found
    leaves the document as it was, and the operation still returns [True]. *)
Theorem materialization_always_true repr_list doc mappings :
  (∀ flag doc',
     apply_mappings_to_document repr_list doc mappings = Ok (flag, doc') → flag = true) ∧
  (∀ m, mappings = [m] → text_not_found doc m →
     apply_mappings_to_document repr_list doc mappings = Ok (true, doc)).
Proof.
  split.
  - intros flag doc'. unfold apply_mappings_to_document.
    intros (doc1 & _ & H)%bind_Ok. apply bind_Ok in H as (doc2 & _ & H).
    apply bind_Ok in H as (doc3 & _ & H). congruence.
  - intros m -> (k & para & t & l & Hpara & Hk & Ht & Hl & Hlook & Hno).
    assert (¬ has_mapping_type "table_cell" m ∧ ¬ has_mapping_type "table_loop" m)
      as [Hcell Hloop].
    { unfold is_paragraph_mapping, has_mapping_type, dict_get in *.
      destruct (m !! txt "mapping_type") as [v|]; simpl in *; [subst v|]; done. }
    unfold apply_mappings_to_document.
    rewrite (filter_cons_True is_paragraph_mapping) by done.
    rewrite (filter_cons_False (has_mapping_type "table_cell")) by done.
    rewrite (filter_cons_False (has_mapping_type "table_loop")) by done.
    rewrite !filter_nil.
    cbn [for_each]. unfold apply_paragraph_mapping, dict_get, dict_item.
    rewrite Hk, Ht, Hl. cbn [from_option id mbind res_bind jinja_var as_str as_int VInt].
    pose proof (lookup_lt_Some _ _ _ Hlook) as Hlt.
    destruct (Z.ltb_spec (Z.of_nat k) (Z.of_nat (length (doc_paragraphs doc)))); [|lia].
    rewrite py_position_nat by done. cbn [mbind res_bind].
    rewrite (py_getitem_Some _ _ _ Hlook). cbn [mbind res_bind].
    rewrite find_and_replace_absent by (by apply str_find_None). cbn [mbind res_bind].
    rewrite list_insert_id by done. by destruct doc.
Qed.

Lemma materialization_always_true_witness :
  apply_mappings_to_document (λ _, []) greeting [farewell_mapping] = Ok (true, greeting).
Proof.
  apply (proj2 (materialization_always_true (λ _, []) greeting [farewell_mapping])
           farewell_mapping eq_refl).
  exists 0, (of_runs [plain "Hello "; plain "World"]), (txt "Goodbye"), (txt "name").
  repeat split; try (vm_compute; reflexivity).
  apply str_find_None. vm_compute. reflexivity.
Defined.

(* ================================================================== *)
(** * The claims on mapping validation *)
(* ================================================================== *)

(** C6, counterexample: a paragraph mapping with all its fields and an empty
    original text is one that the spec rejects, and the endpoint creates it. *)
Lemma empty_original_text_accepted :
  spec_rejects empty_text_mapping ∧
  ¬ rejected (create_template_mapping (λ _, []) (Some draft_template)
                (txt "m1") (txt "t1") empty_text_mapping).
Proof.
  split.
  - right. right. left. split; [vm_compute; left | vm_compute; reflexivity].
  - intros (code & detail & Hr). vm_compute in Hr. discriminate.
Qed.

(** A loop mapping without cell labels, or with two labels for one column,
    is created as well. *)
Example bad_cell_labels_accepted :
  ¬ rejected (create_template_mapping (λ _, []) (Some draft_template) (txt "m1") (txt "t1")
      {[ txt "mapping_type" := VStr "table_loop"; txt "table_index" := VInt 0;
         txt "data_row_index" := VInt 1; txt "loop_variable" := VStr "items";
         txt "cell_labels" := VList [] ]}) ∧
  ¬ rejected (create_template_mapping (λ _, []) (Some draft_template) (txt "m1") (txt "t1")
      {[ txt "mapping_type" := VStr "table_loop"; txt "table_index" := VInt 0;
         txt "data_row_index" := VInt 1; txt "loop_variable" := VStr "items";
         txt "cell_labels" := VList
           [ IDict {[ txt "col_index" := SInt 0; txt "label" := SStr (txt "a") ]};
             IDict {[ txt "col_index" := SInt 0; txt "label" := SStr (txt "b") ]} ] ]}).
Proof.
  split; intros (code & detail & Hr); vm_compute in Hr; discriminate.
Qed.

Lemma first_missing_Some fields m f :
  first_missing fields m = Some f → f ∈ fields ∧ m !! txt f = None.
Proof.
  intros Hf. apply find_some in Hf as [Hin Hmiss]. split; [by apply list_elem_of_In|].
  unfold dict_has in Hmiss. apply negb_true_iff, bool_decide_eq_false in Hmiss.
  by apply eq_None_not_Some.
Qed.

Lemma first_missing_None fields m f :
  first_missing fields m = None → f ∈ fields → is_Some (m !! txt f).
Proof.
  intros Hf Hin. apply list_elem_of_In in Hin.
  pose proof (find_none _ _ Hf f Hin) as Hhas. simpl in Hhas.
  apply negb_false_iff in Hhas. by apply bool_decide_eq_true in Hhas.
Qed.

(** After the checks, the service creates the mapping on a template that
    exists and is not published. *)
Lemma create_mapping_draft t mapping_id template_id m fields :
  template_status t ≠ txt "published" →
  required_fields (variant_of m) = Some fields →
  create_mapping (Some t) mapping_id template_id m =
  Some (db_create_mapping mapping_id template_id m).
Proof.
  intros Hdraft Hreq. unfold create_mapping.
  rewrite bool_decide_eq_false_2 by done.
  rewrite bool_decide_eq_false_2; [done|]. intros Hnot. apply Hnot.
  unfold required_fields, variant_of in Hreq. repeat case_bool_decide; try done.
  - rewrite H. left.
  - rewrite H0. right. left.
  - rewrite H1. right. right. left.
Qed.

(** C6 (amended): on a template that exists and is not published, the
    endpoint rejects a submitted mapping exactly when a field that its
    variant requires is missing or its variant tag is none of the three;
    any other mapping is created, whatever its original text and its cell
    labels. *)
Theorem mapping_validation repr_list t mapping_id template_id m :
  template_status t ≠ txt "published" →
  rejected (create_template_mapping repr_list (Some t) mapping_id template_id m)
  ↔ missing_required_field m ∨ unknown_variant m.
Proof.
  intros Hdraft. unfold create_template_mapping.
  destruct (required_fields (variant_of m)) as [fields|] eqn:Hreq.
  - assert (check_mapping repr_list m =
            (λ f, HTTPException 400
               (required_detail f
                  (if bool_decide (variant_of m = VStr "paragraph") then "paragraph"
                   else if bool_decide (variant_of m = VStr "table_cell") then "table_cell"
                   else "table_loop")))
              <$> first_missing fields m) as ->.
    { unfold check_mapping, required_fields, variant_of in *.
      repeat case_bool_decide; by simplify_eq. }
    destruct (first_missing fields m) as [f|] eqn:Hmiss;
      cbn [fmap option_fmap option_map].
    + split; [|by eexists _, _]. intros _. left.
      apply first_missing_Some in Hmiss as [Hin Hnone]. by exists fields, f.
    + rewrite (create_mapping_draft _ _ _ _ _ Hdraft Hreq). split.
      * by intros (? & ? & ?).
      * intros [(fields' & f & Hreq' & Hin & Hnone)|Hunk].
        -- assert (fields' = fields) as -> by congruence.
           destruct (first_missing_None _ _ _ Hmiss Hin) as [v Hv]. congruence.
        -- unfold unknown_variant in Hunk. congruence.
  - assert (∃ r, check_mapping repr_list m = Some r ∧ rejected r) as (r & -> & Hr).
    { unfold check_mapping, required_fields, variant_of in *.
      repeat case_bool_decide; try done. eexists. split; [done|]. by eexists _, _. }
    split; [by right | done].
Qed.

Lemma mapping_validation_witness :
  rejected (create_template_mapping (λ _, []) (Some draft_template) (txt "m1") (txt "t1")
              {[ txt "mapping_type" := VStr "table_cell"; txt "table_index" := VInt 0 ]}).
Proof.
  apply (mapping_validation (λ _, []) draft_template (txt "m1") (txt "t1")).
  - vm_compute. discriminate.
  - left. exists ["table_index"; "row_index"; "col_index"; "original_text"; "label"]%string,
      "row_index"%string.
    split; [vm_compute; reflexivity|]. split; [right; left | vm_compute; reflexivity].
Defined.

(* ================================================================== *)
(** * The claims on schema derivation *)
(* ================================================================== *)

Lemma schema_step_emits prev m fields seen :
  readable_row m → seen_after prev seen →
  ∃ out seen',
    emits prev m out ∧
    schema_step (fields, seen) m = Ok (fields ++ out, seen') ∧
    seen_after (prev ++ [m]) seen'.
Proof.
  intros [Hscalar Hloop] Hseen. unfold schema_step, seen_after in *.
  fold (variant_of m). case_bool_decide as Hs.
  - destruct (Hscalar Hs) as [l Hl]. unfold dict_item. rewrite Hl.
    cbn [mbind res_bind].
    assert (label_key m = Some (hash_key l)) as Hkey by (unfold label_key; by rewrite Hl).
    assert (dict_get m "label" VNone = VScalar l) as Hget
      by (unfold dict_get; by rewrite Hl).
    case_bool_decide as Hnew.
    + exists [scalar_field m], ({[ hash_key l ]} ∪ seen). split; [|split].
      * apply emits_first; [done|]. intros m' Hin Hs' Heq. apply Hnew, Hseen.
        exists m'. by rewrite Heq.
      * unfold scalar_field. by rewrite Hget.
      * intros k. rewrite elem_of_union, elem_of_singleton, Hseen. split.
        -- intros [->|(m' & Hin & Hs' & Hk)].
           ++ exists m. rewrite elem_of_app, list_elem_of_singleton. auto.
           ++ exists m'. rewrite elem_of_app. auto.
        -- intros (m' & Hin & Hs' & Hk). apply elem_of_app in Hin as [Hin|Hin].
           ++ right. by exists m'.
           ++ apply list_elem_of_singleton in Hin as ->. left. congruence.
    + apply Hseen in Hnew as (m' & Hin & Hs' & Hk).
      exists [], seen. split; [|split].
      * apply (emits_repeated _ _ m'); [done..|congruence].
      * by rewrite app_nil_r.
      * intros k. rewrite Hseen. split.
        -- intros (m'' & Hin'' & ?). exists m''. rewrite elem_of_app. auto.
        -- intros (m'' & Hin'' & Hs'' & Hk''). apply elem_of_app in Hin'' as [?|Hm].
           ++ by exists m''.
           ++ apply list_elem_of_singleton in Hm as ->. exists m'.
              split; [done|]. split; [done|]. congruence.
  - assert (∀ k, k ∈ seen ↔
      ∃ m', m' ∈ prev ++ [m] ∧ is_scalar_mapping m' ∧ label_key m' = Some k) as Hseen'.
    { intros k. rewrite Hseen. split.
      - intros (m' & Hin & ?). exists m'. rewrite elem_of_app. auto.
      - intros (m' & Hin & Hs' & Hk). apply elem_of_app in Hin as [?|Hm].
        + by exists m'.
        + apply list_elem_of_singleton in Hm as ->. done. }
    case_bool_decide as Hl.
    + destruct (Hloop Hl) as ([lv Hlv] & cls & Hcls & Hwf).
      unfold dict_item. rewrite Hlv, Hcls. cbn [mbind res_bind py_iter].
      destruct (map_res_total sub_field_of cls) as [subs Hsubs].
      { eapply Forall_impl; [exact Hwf|]. intros cl (d & l & -> & Hd).
        unfold sub_field_of, dict_item. rewrite Hd. eauto. }
      rewrite Hsubs. cbn [mbind res_bind].
      exists [loop_field m subs], seen. split; [|split; [|done]].
      * apply (emits_loop _ _ cls subs); [done..|]. by apply map_res_Ok.
      * unfold loop_field, dict_get. by rewrite Hlv.
    + exists [], seen. split; [|split; [|done]].
      * by apply emits_nothing.
      * by rewrite app_nil_r.
Qed.

Lemma schema_fold_emits prev rest fields seen :
  Forall readable_row rest → seen_after prev seen →
  ∃ outs seen',
    for_each schema_step rest (fields, seen) = Ok (fields ++ concat outs, seen') ∧
    length outs = length rest ∧
    ∀ i m out, rest !! i = Some m → outs !! i = Some out →
               emits (prev ++ take i rest) m out.
Proof.
  intros Hwf. revert prev fields seen.
  induction Hwf as [|m rest Hm _ IH]; intros prev fields seen Hseen.
  { exists [], seen. simpl. rewrite app_nil_r. split; [done|]. split; [done|].
    intros i m out Hi. by rewrite lookup_nil in Hi. }
  destruct (schema_step_emits prev m fields seen Hm Hseen)
    as (out & seen1 & Hout & Hstep & Hseen1).
  destruct (IH (prev ++ [m]) (fields ++ out) seen1 Hseen1)
    as (outs & seen' & Hfold & Hlen & Hall).
  exists (out :: outs), seen'. split; [|split].
  - cbn [for_each]. rewrite Hstep. cbn [mbind res_bind]. rewrite Hfold.
    simpl. by rewrite app_assoc.
  - simpl. by rewrite Hlen.
  - intros [|i] m' out' Hi Ho; simpl in *.
    + injection Hi as <-. injection Ho as <-. by rewrite app_nil_r.
    + specialize (Hall i m' out' Hi Ho). by rewrite <- app_assoc in Hall.
Qed.

(** X1 (the part of C9 that holds): schema derivation on readable rows.
    The fields are what the mappings
    emit one after the other, in registry order.  Of the scalar mappings
    that share a label only the first emits a field, and every loop mapping
    emits one array field, required, with one sub-field per cell label. *)
Theorem schema_derivation t template_id mappings :
  Forall readable_row mappings →
  ∃ outs,
    get_template_schema (Some t) template_id mappings =
      Ok (Some (mkSchema template_id (template_name t) (template_status t) (concat outs))) ∧
    length outs = length mappings ∧
    ∀ i m out, mappings !! i = Some m → outs !! i = Some out →
               emits (take i mappings) m out.
Proof.
  intros Hwf.
  destruct (schema_fold_emits [] mappings [] ∅ Hwf) as (outs & seen' & Hfold & Hlen & Hall).
  { intros k. split; [by intros ?%not_elem_of_empty|].
    intros (m' & Hin & _). by apply elem_of_nil in Hin. }
  exists outs. split; [|split; [done|]].
  - unfold get_template_schema. rewrite Hfold. done.
  - intros i m out Hi Ho. exact (Hall i m out Hi Ho).
Qed.

Example registry_schema :
  get_template_schema (Some draft_template) (txt "t1") registry =
  Ok (Some (mkSchema (txt "t1") (txt "contract.docx") (txt "draft")
    [ mkField (VStr "customer_name") (VStr "string") VTrue (VStr "Nguyen Van A") None;
      mkField (VStr "items") (VStr "array") VTrue (VStr "Table loop (2 columns)")
        (Some [ mkSubField (SStr (txt "stt")) (SStr (txt "string")) (SStr []);
                mkSubField (SStr (txt "amount")) (SStr (txt "string")) (SStr []) ]) ])).
Proof. vm_compute. reflexivity. Qed.

Lemma readable_registry : Forall readable_row registry.
Proof.
  assert (∀ m, variant_of m = VStr "table_loop" → ¬ is_scalar_mapping m) as Hloop.
  { intros m Hm. unfold is_scalar_mapping. rewrite Hm, !elem_of_cons, elem_of_nil.
    intros [H|[H|[]]]; discriminate. }
  repeat apply Forall_cons_2; [| | |apply Forall_nil_2]; split.
  - intros _. eexists. vm_compute. reflexivity.
  - intros H. vm_compute in H. discriminate.
  - intros H. by apply Hloop in H.
  - intros _. split; [eexists; vm_compute; reflexivity|].
    exists invoice_cell_labels. split; [vm_compute; reflexivity|].
    repeat apply Forall_cons_2; [| |apply Forall_nil_2];
      eexists _, _; (split; [reflexivity | vm_compute; reflexivity]).
  - intros _. eexists. vm_compute. reflexivity.
  - intros H. vm_compute in H. discriminate.
Qed.

Lemma schema_derivation_witness :
  ∃ outs,
    get_template_schema (Some draft_template) (txt "t1") registry =
      Ok (Some (mkSchema (txt "t1") (txt "contract.docx") (txt "draft") (concat outs))) ∧
    length outs = 3.
Proof.
  destruct (schema_derivation draft_template (txt "t1") registry readable_registry)
    as (outs & Hrun & Hlen & _).
  exists outs. split; [exact Hrun | exact Hlen].
Defined.

(** C9, at the failing input: the endpoint creates the loop mapping whose
    list of cell labels is empty, the row is stored with NULL for
    [cell_labels], and schema derivation over that row raises [TypeError]
    where the claim has it emit an array field without sub-fields. *)
Theorem schema_of_empty_loop_raises :
  create_template_mapping (λ _, []) (Some draft_template) (txt "m1") (txt "t1")
    empty_loop_mapping
  = MappingCreated (db_create_mapping (txt "m1") (txt "t1") empty_loop_mapping) ∧
  db_create_mapping (txt "m1") (txt "t1") empty_loop_mapping !! txt "cell_labels"
  = Some VNone ∧
  get_template_schema (Some draft_template) (txt "t1")
    [db_create_mapping (txt "m1") (txt "t1") empty_loop_mapping]
  = Raise TypeError.
Proof. repeat split; vm_compute; reflexivity. Qed.

(* ================================================================== *)
(** * Further properties of the substitution engine *)
(* ================================================================== *)

Lemma rewrite_runs_formats pos s e repl runs :
  run_format <$> rewrite_runs pos s e repl runs = run_format <$> runs.
Proof.
  revert pos. induction runs as [|r runs IH]; intros pos; [done|].
  simpl. by rewrite IH.
Qed.

(** New runs with the formats of the old ones leave the formats of the
    paragraph and its hyperlinks. *)
Lemma with_runs_formats p runs :
  run_format <$> runs = run_format <$> paragraph_runs p →
  paragraph_formats (with_runs p runs) = paragraph_formats p.
Proof.
  revert runs. induction p as [|[r|s] p IH]; intros runs Hf; [done| |].
  - destruct runs as [|r' runs]; [done|]. simpl in Hf. injection Hf as Hr Hf.
    unfold paragraph_formats in *. simpl. rewrite Hr. f_equal. by apply IH.
  - unfold paragraph_formats in *. simpl. f_equal. by apply IH.
Qed.

(** How a call ends: by the target being substitutable or not. *)
Lemma find_and_replace_outcome p target repl :
  (find_and_replace_in_paragraph p target repl = Ok (false, p) ∧
   ¬ substitutable p target) ∨
  (∃ s, substitutable p target ∧
        str_find target (paragraph_text p) = Some s ∧
        find_and_replace_in_paragraph p target repl =
        Ok (true, with_runs p
                    (rewrite_runs 0 (Z.of_nat s) (Z.of_nat s + Z.of_nat (length target))
                       repl (paragraph_runs p)))).
Proof.
  destruct (find_and_replace_cases p target repl) as [Hcall|(s & Hf & Hne & Hj & Hcall)].
  - left. split; [done|]. intros (Hne & s & Hf & Hj).
    rewrite (find_and_replace_overlap _ _ _ _ Hf Hne Hj) in Hcall. discriminate.
  - right. exists s. split; [|done]. split; [done|]. by exists s.
Qed.

(** On a paragraph of runs, a target is substitutable when it is not empty
    and occurs in the text. *)
Lemma substitutable_of_runs runs target :
  substitutable (of_runs runs) target ↔
  target ≠ [] ∧ is_substring target (runs_text runs).
Proof.
  unfold substitutable. rewrite paragraph_text_of_runs, paragraph_runs_of_runs. split.
  - intros (Hne & s & Hf & _). split; [done|].
    apply str_find_Some in Hf as [(pre & post & Heq & _) _]. by exists pre, post.
  - intros [Hne Hsub]. split; [done|]. destruct (str_find_is_Some _ _ Hsub) as [s Hf].
    exists s. split; [done|]. pose proof (str_find_bound _ _ _ Hf).
    assert (0 < length target) by (destruct target; simpl; [done | lia]).
    destruct (run_at_offset runs (Z.of_nat s)) as (i & r & Hi & Hr); [lia|].
    exists i, r. split; [done | lia].
Qed.

(** X2: a call on a paragraph never raises.  It returns true exactly when
    the target is substitutable: it is not empty, it occurs in the text of
    the paragraph, and some run overlaps the span of its first occurrence
    there, the runs being laid out from offset 0 without the hyperlinks; on
    a paragraph that consists of runs only this is the case exactly when the
    target is not empty and occurs in the text.  When the call returns false
    the paragraph is handed back as it was; and in every case the paragraph
    keeps its runs with their formatting and its hyperlinks. *)
Theorem substitution_succeeds_iff p target replacement :
  ∃ done p',
    find_and_replace_in_paragraph p target replacement = Ok (done, p') ∧
    (done = true ↔ substitutable p target) ∧
    (∀ runs, p = of_runs runs →
       (done = true ↔ target ≠ [] ∧ is_substring target (runs_text runs))) ∧
    (done = false → p' = p) ∧
    paragraph_formats p' = paragraph_formats p.
Proof.
  destruct (find_and_replace_outcome p target replacement)
    as [[Hcall Hno]|(s & Hyes & Hf & Hcall)].
  - exists false, p. split; [done|]. split; [done|]. split; [|done].
    intros runs ->. rewrite <- substitutable_of_runs. done.
  - eexists true, _. split; [done|]. split; [done|]. split; [|split; [done|]].
    + intros runs ->. rewrite <- substitutable_of_runs. done.
    + apply with_runs_formats, rewrite_runs_formats.
Qed.

(** X3: a call on a cell never raises.  When it returns false no paragraph
    of the cell has changed, and the target is substitutable in none of
    them.  When it returns true exactly one paragraph has changed: the
    first one in which the target is substitutable, rewritten as the call
    on that paragraph rewrites it; a later paragraph is left alone even
    when it holds the target too. *)
Theorem cell_substitution_first_match cell target replacement :
  ∃ done cell',
    find_and_replace_in_cell cell target replacement = Ok (done, cell') ∧
    (done = false →
     cell' = cell ∧ Forall (λ p, ¬ substitutable p target) cell) ∧
    (done = true →
     ∃ before para para' after,
       cell = before ++ para :: after ∧ cell' = before ++ para' :: after ∧
       Forall (λ p, ¬ substitutable p target) before ∧
       substitutable para target ∧
       find_and_replace_in_paragraph para target replacement = Ok (true, para')).
Proof.
  induction cell as [|para rest IH].
  { exists false, []. split; [done|]. split; [|done]. intros _. by split. }
  cbn [find_and_replace_in_cell].
  destruct (find_and_replace_outcome para target replacement)
    as [[Hcall Hno]|(s & Hyes & Hf & Hcall)]; rewrite Hcall; cbn [mbind res_bind].
  - destruct IH as (found & rest' & Hrest & Hfalse & Htrue). rewrite Hrest.
    cbn [mbind res_bind]. exists found, (para :: rest'). split; [done|]. split.
    + intros ->. destruct (Hfalse eq_refl) as [-> Hall]. split; [done|].
      by constructor.
    + intros ->.
      destruct (Htrue eq_refl) as (before & p & p' & after & -> & -> & Hb & Hs & Hp).
      exists (para :: before), p, p', after. split; [done|]. split; [done|].
      split; [by constructor|]. by split.
  - eexists true, _. split; [done|]. split; [done|]. intros _.
    exists [], para. eexists _, rest. split; [done|]. split; [done|].
    split; [constructor|]. by split.
Qed.

(** X21: on paragraphs that consist of runs only, a substitution that
    returns true changes the length of the concatenation of the runs' texts,
    of a paragraph and of a cell alike, by the length of the replacement
    minus the length of the target. *)
Theorem substitution_length target replacement :
  (∀ runs, length_accounted (of_runs runs) target replacement) ∧
  (∀ cell, Forall (λ p, ∃ runs, p = of_runs runs) cell →
           cell_length_accounted cell target replacement).
Proof.
  assert (∀ runs, length_accounted (of_runs runs) target replacement) as Hpara.
  { intros runs p' Hcall.
    apply find_and_replace_text in Hcall as (s & Hf & _ & _ & Htext).
    apply str_find_bound in Hf. rewrite Htext, paragraph_runs_of_runs.
    rewrite !length_app, length_take, length_drop. lia. }
  split; [exact Hpara|].
  intros cell Hcell. induction Hcell as [|para rest [runs ->] _ IH]; intros cell' Hcall;
    [done|].
  cbn [find_and_replace_in_cell] in Hcall.
  destruct (find_and_replace_in_paragraph (of_runs runs) target replacement)
    as [[[] para']|] eqn:Hp; cbn [mbind res_bind] in Hcall; [| |done].
  - injection Hcall as <-. apply Hpara in Hp. unfold cell_runs_text in *.
    rewrite !fmap_cons. cbn [concat]. rewrite !length_app. lia.
  - destruct (find_and_replace_in_cell rest target replacement)
      as [[found rest']|] eqn:Hr; cbn [mbind res_bind] in Hcall; [|done].
    injection Hcall as -> <-. specialize (IH _ Hr).
    apply find_and_replace_false_inv in Hp as ->.
    unfold cell_runs_text in *. rewrite !fmap_cons. cbn [concat].
    rewrite !length_app. lia.
Qed.

Lemma substitution_length_witness :
  (∃ p', find_and_replace_in_paragraph (of_runs [plain "Hello "; plain "World"])
           (txt "lo Wo") (txt "{{name}}") = Ok (true, p') ∧
         Z.of_nat (length (runs_text (paragraph_runs p'))) = (11 - 5 + 8)%Z) ∧
  (∃ cell', find_and_replace_in_cell
              [of_runs [plain "n/a"]; of_runs [plain "Hello "; plain "World"]]
              (txt "lo Wo") (txt "{{name}}") = Ok (true, cell') ∧
            Z.of_nat (length (cell_runs_text cell')) = (14 - 5 + 8)%Z).
Proof.
  split.
  - eexists. split; [vm_compute; reflexivity|].
    apply (proj1 (substitution_length (txt "lo Wo") (txt "{{name}}"))
             [plain "Hello "; plain "World"]).
    vm_compute. reflexivity.
  - eexists. split; [vm_compute; reflexivity|].
    apply (proj2 (substitution_length (txt "lo Wo") (txt "{{name}}"))
             [of_runs [plain "n/a"]; of_runs [plain "Hello "; plain "World"]]).
    + apply Forall_cons_2; [by eexists|]. apply Forall_cons_2; [by eexists|].
      apply Forall_nil_2.
    + vm_compute. reflexivity.
Defined.

(* ================================================================== *)
(** * Further properties of materialization *)
(* ================================================================== *)

(** A loop that stops at the first exception keeps what every pass keeps. *)
Lemma for_each_invariant {A S} (P : S → Prop) (body : S → A → res S) xs acc acc' :
  (∀ a x a', body a x = Ok a' → P a → P a') →
  for_each body xs acc = Ok acc' → P acc → P acc'.
Proof.
  intros Hstep. revert acc. induction xs as [|x xs IH]; intros acc; simpl.
  - by intros [= ->].
  - intros (a1 & Hx & Hrest)%bind_Ok Hacc. eapply IH; [done|]. by eapply Hstep.
Qed.

(** A loop raises when one of its passes raises from every state. *)
Lemma for_each_raises {A S} (body : S → A → res S) xs acc x :
  x ∈ xs → (∀ a, ∃ e, body a x = Raise e) → ∃ e, for_each body xs acc = Raise e.
Proof.
  intros Hin Hx. revert acc. induction xs as [|y xs IH]; intros acc.
  { by apply elem_of_nil in Hin. }
  simpl. destruct (body acc y) as [a1|e] eqn:Hy; [|by exists e]. simpl.
  apply elem_of_cons in Hin as [->|Hin]; [|by apply IH].
  destruct (Hx acc) as [e He]. congruence.
Qed.

Lemma find_and_replace_formats p target repl done p' :
  find_and_replace_in_paragraph p target repl = Ok (done, p') →
  paragraph_formats p' = paragraph_formats p.
Proof.
  intros Hcall. destruct (find_and_replace_cases p target repl)
    as [Hc|(s & _ & _ & _ & Hc)]; rewrite Hc in Hcall.
  - congruence.
  - injection Hcall as _ <-. apply with_runs_formats, rewrite_runs_formats.
Qed.

Lemma find_and_replace_in_cell_formats cell target repl done cell' :
  find_and_replace_in_cell cell target repl = Ok (done, cell') →
  cell_formats cell' = cell_formats cell.
Proof.
  revert done cell'. induction cell as [|para rest IH]; intros done cell'; simpl.
  { by intros [= _ <-]. }
  intros ([d para'] & Hp & Hrest)%bind_Ok.
  apply find_and_replace_formats in Hp. destruct d.
  - injection Hrest as _ <-. unfold cell_formats. by rewrite !fmap_cons, Hp.
  - apply bind_Ok in Hrest as ([found rest'] & Hr & [= _ <-]).
    apply IH in Hr. unfold cell_formats in *. by rewrite !fmap_cons, Hp, Hr.
Qed.

Lemma call_find_and_replace_in_cell_formats cell target repl done cell' :
  call_find_and_replace_in_cell cell target repl = Ok (done, cell') →
  cell_formats cell' = cell_formats cell.
Proof.
  destruct cell as [|para rest]; [by intros [= _ <-]|].
  unfold call_find_and_replace_in_cell. intros (t & _ & Hcall)%bind_Ok.
  by eapply find_and_replace_in_cell_formats.
Qed.

Lemma overwrite_paragraph_formats marker para :
  paragraph_formats (overwrite_paragraph marker para) = paragraph_formats para.
Proof.
  unfold overwrite_paragraph. destruct (paragraph_runs para) as [|r rs] eqn:Hr; [done|].
  apply with_runs_formats. rewrite Hr. simpl. f_equal.
  rewrite <- list_fmap_compose. by apply list_fmap_ext.
Qed.

(** Replacing an element by one with the same image leaves the images. *)
Lemma fmap_insert_same {A B} (f : A → B) (l : list A) k x y :
  l !! k = Some x → f y = f x → f <$> <[k := y]> l = f <$> l.
Proof.
  intros Hk Hf. rewrite list_fmap_insert, Hf. apply list_insert_id.
  by rewrite list_lookup_fmap, Hk.
Qed.

Lemma py_getitem_Ok {A} (l : list A) k x : py_getitem l k = Ok x → l !! k = Some x.
Proof. unfold py_getitem. destruct (l !! k); [by intros [= ->] | done]. Qed.

Lemma apply_paragraph_mapping_formats doc m doc' :
  apply_paragraph_mapping doc m = Ok doc' → doc_formats doc' = doc_formats doc.
Proof.
  unfold apply_paragraph_mapping.
  intros (orig & _ & H)%bind_Ok. apply bind_Ok in H as (label & _ & H).
  apply bind_Ok in H as (jinja & _ & H). apply bind_Ok in H as (pi & _ & H).
  destruct (pi <? _)%Z; [|congruence].
  apply bind_Ok in H as (k & _ & H). apply bind_Ok in H as (para & Hpara & H).
  apply bind_Ok in H as (t & _ & H). apply bind_Ok in H as ([d para'] & Hcall & [= <-]).
  apply py_getitem_Ok in Hpara. apply find_and_replace_formats in Hcall.
  unfold doc_formats. simpl. do 2 f_equal. by eapply fmap_insert_same.
Qed.

Lemma apply_cell_mapping_formats doc m doc' :
  apply_cell_mapping doc m = Ok doc' → doc_formats doc' = doc_formats doc.
Proof.
  unfold apply_cell_mapping.
  intros (orig & _ & H)%bind_Ok. apply bind_Ok in H as (label & _ & H).
  apply bind_Ok in H as (ti & _ & H). destruct (ti <? _)%Z; [|congruence].
  apply bind_Ok in H as (tpos & _ & H). apply bind_Ok in H as (table & Htable & H).
  apply bind_Ok in H as (ri & _ & H). destruct (ri <? _)%Z; [|congruence].
  apply bind_Ok in H as (rpos & _ & H). apply bind_Ok in H as (row & Hrow & H).
  apply bind_Ok in H as (ci & _ & H). destruct (ci <? _)%Z; [|congruence].
  apply bind_Ok in H as (cpos & _ & H). apply bind_Ok in H as (ref & _ & H).
  apply bind_Ok in H as (cell & Hcell & H).
  apply bind_Ok in H as (jinja & _ & H).
  apply bind_Ok in H as ([d cell'] & Hcall & [= <-]).
  apply py_getitem_Ok in Hcell.
  apply call_find_and_replace_in_cell_formats in Hcall.
  unfold doc_formats. simpl. f_equal. by eapply fmap_insert_same.
Qed.

Lemma mark_cell_formats cell original marker cell' :
  mark_cell cell original marker = Ok cell' → cell_formats cell' = cell_formats cell.
Proof.
  unfold mark_cell. destruct (truthy original).
  - intros ([d c] & Hcall & [= <-])%bind_Ok.
    by eapply call_find_and_replace_in_cell_formats.
  - intros [= <-]. unfold cell_formats. rewrite <- list_fmap_compose.
    apply list_fmap_ext. intros i p _. apply overwrite_paragraph_formats.
Qed.

Lemma mark_loop_cell_formats repr_list loop_var row cells cl cells' :
  mark_loop_cell repr_list loop_var row cells cl = Ok cells' →
  cell_formats <$> cells' = cell_formats <$> cells.
Proof.
  unfold mark_loop_cell. destruct cl as [x|d]; [done|].
  intros (col & _ & H)%bind_Ok. apply bind_Ok in H as (label & _ & H).
  apply bind_Ok in H as (ci & _ & H). destruct (ci <? _)%Z; [|congruence].
  apply bind_Ok in H as (cpos & _ & H). apply bind_Ok in H as (ref & _ & H).
  apply bind_Ok in H as (cell & Hcell & H).
  apply bind_Ok in H as (cell' & Hmark & [= <-]).
  apply py_getitem_Ok in Hcell. apply mark_cell_formats in Hmark.
  by eapply fmap_insert_same.
Qed.

Lemma apply_loop_mapping_formats repr_list doc m doc' :
  apply_loop_mapping repr_list doc m = Ok doc' → doc_formats doc' = doc_formats doc.
Proof.
  unfold apply_loop_mapping.
  intros (ti & _ & H)%bind_Ok. destruct (ti <? _)%Z; [|congruence].
  apply bind_Ok in H as (tpos & _ & H). apply bind_Ok in H as (table & Htable & H).
  apply bind_Ok in H as (di & _ & H). destruct (di <? _)%Z; [|congruence].
  apply bind_Ok in H as (rpos & _ & H). apply bind_Ok in H as (row & Hrow & H).
  apply bind_Ok in H as (cls & _ & H). apply bind_Ok in H as (cells' & Hmark & [= <-]).
  assert (cell_formats <$> cells' = cell_formats <$> doc_cells doc) as Hsame.
  { eapply (for_each_invariant
              (λ cs, cell_formats <$> cs = cell_formats <$> doc_cells doc));
      [|exact Hmark|done].
    intros a x a' Hstep Ha. apply mark_loop_cell_formats in Hstep. congruence. }
  unfold doc_formats. simpl. by f_equal.
Qed.

(** X4: materialization changes texts only.  Whatever the mappings, the
    document that it hands back has the paragraphs, tables, rows, cells and
    runs of the source document in the same places, each run with the
    formatting it had (and each hyperlink with its text). *)
Theorem materialization_keeps_formats repr_list doc mappings flag doc' :
  apply_mappings_to_document repr_list doc mappings = Ok (flag, doc') →
  doc_formats doc' = doc_formats doc.
Proof.
  unfold apply_mappings_to_document.
  intros (doc1 & H1 & H)%bind_Ok. apply bind_Ok in H as (doc2 & H2 & H).
  apply bind_Ok in H as (doc3 & H3 & [= _ <-]).
  assert (doc_formats doc1 = doc_formats doc) as E1.
  { eapply (for_each_invariant (λ d, doc_formats d = doc_formats doc)); [|exact H1|done].
    intros a x a' Hs Ha. apply apply_paragraph_mapping_formats in Hs. congruence. }
  assert (doc_formats doc2 = doc_formats doc) as E2.
  { eapply (for_each_invariant (λ d, doc_formats d = doc_formats doc)); [|exact H2|done].
    intros a x a' Hs Ha. apply apply_cell_mapping_formats in Hs. congruence. }
  eapply (for_each_invariant (λ d, doc_formats d = doc_formats doc)); [|exact H3|done].
  intros a x a' Hs Ha. apply apply_loop_mapping_formats in Hs. congruence.
Qed.

Lemma materialization_keeps_formats_witness :
  ∃ doc', apply_mappings_to_document (λ _, []) two_paragraphs
            [customer_mapping; last_paragraph_mapping] = Ok (true, doc') ∧
          doc_formats doc' = doc_formats two_paragraphs.
Proof.
  eexists. split; [vm_compute; reflexivity|].
  apply (materialization_keeps_formats (λ _, []) two_paragraphs
           [customer_mapping; last_paragraph_mapping] true).
  vm_compute. reflexivity.
Defined.

Lemma for_each_unchanged {A S} (body : S → A → res S) xs acc :
  (∀ x, x ∈ xs → body acc x = Ok acc) → for_each body xs acc = Ok acc.
Proof.
  induction xs as [|x xs IH]; intros Hall; [done|]. simpl.
  rewrite Hall by left. simpl. apply IH. intros y Hy. apply Hall. by right.
Qed.

Lemma mapping_kinds_exclusive m :
  is_paragraph_mapping m →
  ¬ has_mapping_type "table_cell" m ∧ ¬ has_mapping_type "table_loop" m.
Proof.
  unfold is_paragraph_mapping, has_mapping_type, dict_get.
  destruct (m !! txt "mapping_type") as [v|]; simpl; [intros ->|]; done.
Qed.

Lemma mapping_kinds_distinct m :
  has_mapping_type "table_cell" m → ¬ has_mapping_type "table_loop" m.
Proof. unfold has_mapping_type. by intros ->. Qed.

Lemma py_position_nonneg n i :
  (0 ≤ i < Z.of_nat n)%Z → py_position n i = Ok (Z.to_nat i).
Proof.
  intros Hi. unfold py_position. destruct (Z.ltb_spec i 0); [lia|].
  destruct (Z.leb_spec 0 i); [|lia]. by destruct (Z.ltb_spec i (Z.of_nat n)); [|lia].
Qed.

Lemma apply_paragraph_mapping_beyond doc m idx t l :
  paragraph_mapping_of m idx t l →
  (Z.of_nat (length (doc_paragraphs doc)) ≤ idx)%Z →
  apply_paragraph_mapping doc m = Ok doc.
Proof.
  intros (_ & Hi & Ht & Hl) Hge. unfold apply_paragraph_mapping, dict_get, dict_item.
  rewrite Hi, Ht, Hl. cbn [from_option id mbind res_bind jinja_var as_str as_int VInt].
  by destruct (Z.ltb_spec idx (Z.of_nat (length (doc_paragraphs doc)))); [lia|].
Qed.

Lemma apply_cell_mapping_beyond doc m :
  has_mapping_type "table_cell" m → addresses_nothing doc m →
  apply_cell_mapping doc m = Ok doc.
Proof.
  intros Hcell [(idx & t & l & (Hp & _) & _)|[Hc|[(Hl & _)|(_ & Hn & _)]]];
    [by apply mapping_kinds_exclusive in Hp as [? _]| |by apply mapping_kinds_distinct in Hcell|done].
  destruct Hc as (_ & [o Ho] & [l Hl] & ti & Hti & Hrange).
  unfold apply_cell_mapping, dict_item. rewrite Ho, Hl, Hti. cbn [mbind res_bind].
  destruct Hrange as [Hge|(table & ri & Htable & Hti0 & Hri & Hrange)].
  { by destruct (Z.ltb_spec ti (Z.of_nat (length (doc_tables doc)))); [lia|]. }
  pose proof (lookup_lt_Some _ _ _ Htable).
  destruct (Z.ltb_spec ti (Z.of_nat (length (doc_tables doc)))); [|lia].
  rewrite py_position_nonneg by lia. cbn [mbind res_bind].
  rewrite (py_getitem_Some _ _ _ Htable), Hri. cbn [mbind res_bind].
  destruct Hrange as [Hge|(row & ci & Hrow & Hri0 & Hci & Hge)].
  { by destruct (Z.ltb_spec ri (Z.of_nat (length table))); [lia|]. }
  pose proof (lookup_lt_Some _ _ _ Hrow).
  destruct (Z.ltb_spec ri (Z.of_nat (length table))); [|lia].
  rewrite py_position_nonneg by lia. cbn [mbind res_bind].
  rewrite (py_getitem_Some _ _ _ Hrow), Hci. cbn [mbind res_bind].
  by destruct (Z.ltb_spec ci (Z.of_nat (length row))); [lia|].
Qed.

Lemma apply_loop_mapping_beyond repr_list doc m :
  has_mapping_type "table_loop" m → addresses_nothing doc m →
  apply_loop_mapping repr_list doc m = Ok doc.
Proof.
  intros Hloop [(idx & t & l & (Hp & _) & _)|[(Hc & _)|[Hl|(_ & _ & Hn)]]];
    [by apply mapping_kinds_exclusive in Hp as [_ ?]|by apply mapping_kinds_distinct in Hc| |done].
  destruct Hl as (_ & ti & Hti & Hrange).
  unfold apply_loop_mapping. rewrite Hti. cbn [mbind res_bind].
  destruct Hrange as [Hge|(table & di & Htable & Hti0 & Hdi & Hge)].
  { by destruct (Z.ltb_spec ti (Z.of_nat (length (doc_tables doc)))); [lia|]. }
  pose proof (lookup_lt_Some _ _ _ Htable).
  destruct (Z.ltb_spec ti (Z.of_nat (length (doc_tables doc)))); [|lia].
  rewrite py_position_nonneg by lia. cbn [mbind res_bind].
  rewrite (py_getitem_Some _ _ _ Htable), Hdi. cbn [mbind res_bind].
  by destruct (Z.ltb_spec di (Z.of_nat (length table))); [lia|].
Qed.

(** X5: a mapping whose paragraph, table, row or column index is not below
    the number of paragraphs, tables, rows or cells is skipped, and so is a
    mapping of an unknown type: when every mapping is of that kind,
    materialization returns [True] and the document as it was, by the
    bounds checks alone and without an exception. *)
Theorem unaddressed_mappings_skipped repr_list doc mappings :
  Forall (addresses_nothing doc) mappings →
  apply_mappings_to_document repr_list doc mappings = Ok (true, doc).
Proof.
  intros Hall. unfold apply_mappings_to_document.
  rewrite for_each_unchanged; [cbn [mbind res_bind]|].
  2:{ intros m [Hkind Hin]%list_elem_of_filter.
      pose proof (proj1 (Forall_forall _ _) Hall m Hin) as
        [(idx & t & l & Hm & Hge)|[(Hc & _)|[(Hl & _)|(Hn & _)]]].
      - by eapply apply_paragraph_mapping_beyond.
      - by apply mapping_kinds_exclusive in Hkind as [? _].
      - by apply mapping_kinds_exclusive in Hkind as [_ ?].
      - done. }
  rewrite for_each_unchanged; [cbn [mbind res_bind]|].
  2:{ intros m [Hkind Hin]%list_elem_of_filter. apply apply_cell_mapping_beyond; [done|].
      exact (proj1 (Forall_forall _ _) Hall m Hin). }
  rewrite for_each_unchanged; [done|].
  intros m [Hkind Hin]%list_elem_of_filter. apply apply_loop_mapping_beyond; [done|].
  exact (proj1 (Forall_forall _ _) Hall m Hin).
Qed.

Lemma unaddressed_mappings_skipped_witness :
  apply_mappings_to_document (λ _, []) two_paragraphs
    [ {[ txt "paragraph_index" := VInt 2; txt "original_text" := VStr "Total";
         txt "label" := VStr "total" ]};
      {[ txt "mapping_type" := VStr "table_cell"; txt "table_index" := VInt 0;
         txt "original_text" := VStr "x"; txt "label" := VStr "y" ]};
      {[ txt "mapping_type" := VStr "table_loop" ]};
      {[ txt "mapping_type" := VStr "header" ]} ]
  = Ok (true, two_paragraphs).
Proof.
  apply unaddressed_mappings_skipped. repeat apply Forall_cons_2; [| | | |apply Forall_nil_2].
  - left. exists 2%Z, (txt "Total"), (txt "total").
    split; [repeat split; vm_compute; reflexivity | vm_compute; discriminate].
  - right. left. split; [vm_compute; reflexivity|].
    split; [eexists; vm_compute; reflexivity|]. split; [eexists; vm_compute; reflexivity|].
    exists 0%Z. split; [vm_compute; reflexivity|]. left. vm_compute. discriminate.
  - right. right. left. split; [vm_compute; reflexivity|].
    exists 0%Z. split; [vm_compute; reflexivity|]. left. vm_compute. discriminate.
  - right. right. right. repeat split; intros H; vm_compute in H; discriminate.
Defined.

Lemma py_position_Ok n i k :
  py_position n i = Ok k →
  (i < Z.of_nat n)%Z ∧ k < n ∧
  Z.of_nat k = (if (i <? 0)%Z then Z.of_nat n + i else i)%Z.
Proof.
  unfold py_position. destruct (Z.ltb_spec i 0) as [Hneg|Hpos].
  - destruct (Z.leb_spec 0 (Z.of_nat n + i)); [|done].
    destruct (Z.ltb_spec (Z.of_nat n + i) (Z.of_nat n)); [|done].
    simpl. intros [= <-]. lia.
  - destruct (Z.leb_spec 0 i); [|done].
    destruct (Z.ltb_spec i (Z.of_nat n)); [|done].
    simpl. intros [= <-]. lia.
Qed.

Lemma py_position_below n i :
  (i < - Z.of_nat n)%Z → py_position n i = Raise IndexError.
Proof.
  intros Hi. unfold py_position. destruct (Z.ltb_spec i 0); [|lia].
  by destruct (Z.leb_spec 0 (Z.of_nat n + i)); [lia|].
Qed.

Lemma single_paragraph_mapping repr_list doc m :
  is_paragraph_mapping m →
  apply_mappings_to_document repr_list doc [m] =
  doc1 ← apply_paragraph_mapping doc m; Ok (true, doc1).
Proof.
  intros Hpara. destruct (mapping_kinds_exclusive m Hpara) as [Hcell Hloop].
  unfold apply_mappings_to_document.
  rewrite (filter_cons_True is_paragraph_mapping) by done.
  rewrite (filter_cons_False (has_mapping_type "table_cell")) by done.
  rewrite (filter_cons_False (has_mapping_type "table_loop")) by done.
  rewrite !filter_nil. cbn [for_each].
  by destruct (apply_paragraph_mapping doc m).
Qed.

(** X6: a paragraph mapping whose index denotes a paragraph that consists
    of runs only (a negative index counts from the end) and whose original
    text occurs in that paragraph is materialized as follows: the leftmost
    occurrence in the paragraph gives way to the label between double
    braces, the runs keep their formatting, and every other paragraph and
    every table is as before. *)
Theorem paragraph_mapping_materialized repr_list doc m idx k runs target label :
  paragraph_mapping_of m idx target label →
  py_position (length (doc_paragraphs doc)) idx = Ok k →
  doc_paragraphs doc !! k = Some (of_runs runs) →
  target ≠ [] → is_substring target (runs_text runs) →
  ∃ start runs',
    occurs_at target (runs_text runs) start ∧
    (∀ j, occurs_at target (runs_text runs) j → start ≤ j) ∧
    apply_mappings_to_document repr_list doc [m] =
      Ok (true, mkDocument (<[k := of_runs runs']> (doc_paragraphs doc))
                  (doc_tables doc) (doc_cells doc)) ∧
    runs_text runs' =
      take start (runs_text runs) ++ txt "{{" ++ label ++ txt "}}"
      ++ drop (start + length target) (runs_text runs) ∧
    run_format <$> runs' = run_format <$> runs.
Proof.
  intros (Hpara & Hk & Ht & Hl) Hpos Hlook Hne Hsub.
  destruct (str_find_is_Some _ _ Hsub) as [s Hs].
  pose proof (find_and_replace_found runs target (txt "{{" ++ label ++ txt "}}") s Hs Hne)
    as Hcall.
  exists s, (rewrite_runs 0 (Z.of_nat s) (Z.of_nat s + Z.of_nat (length target))
               (txt "{{" ++ label ++ txt "}}") runs).
  apply str_find_Some in Hs as Hocc. destruct Hocc as [Hocc Hleft].
  split; [done|]. split; [done|]. split; [|split].
  - rewrite single_paragraph_mapping by done.
    unfold apply_paragraph_mapping, dict_get, dict_item.
    rewrite Hk, Ht, Hl. cbn [from_option id mbind res_bind jinja_var as_str as_int VInt].
    destruct (py_position_Ok _ _ _ Hpos) as (Hlt & _ & _).
    destruct (Z.ltb_spec idx (Z.of_nat (length (doc_paragraphs doc)))); [|lia].
    rewrite Hpos. cbn [mbind res_bind].
    rewrite (py_getitem_Some _ _ _ Hlook). cbn [mbind res_bind].
    rewrite Hcall. done.
  - destruct (find_and_replace_text _ _ _ _ Hcall) as (s' & Hs' & _ & _ & Htext).
    rewrite Hs in Hs'. injection Hs' as <-.
    rewrite paragraph_runs_of_runs in Htext. by rewrite Htext, <- !app_assoc.
  - apply rewrite_runs_formats.
Qed.

Lemma paragraph_mapping_materialized_witness :
  ∃ start runs',
    occurs_at (txt "5.000.000") (txt "Total: 5.000.000") start ∧
    (∀ j, occurs_at (txt "5.000.000") (txt "Total: 5.000.000") j → start ≤ j) ∧
    apply_mappings_to_document (λ _, []) two_paragraphs [last_paragraph_mapping] =
      Ok (true, mkDocument (<[1 := of_runs runs']> (doc_paragraphs two_paragraphs)) [] []) ∧
    runs_text runs' =
      take start (txt "Total: 5.000.000") ++ txt "{{" ++ txt "amount" ++ txt "}}"
      ++ drop (start + 9) (txt "Total: 5.000.000") ∧
    run_format <$> runs' = [no_format; no_format].
Proof.
  apply (paragraph_mapping_materialized (λ _, []) two_paragraphs last_paragraph_mapping
           (-1) 1 [plain "Total: "; plain "5.000.000"] (txt "5.000.000") (txt "amount")).
  - repeat split; vm_compute; reflexivity.
  - vm_compute. reflexivity.
  - reflexivity.
  - discriminate.
  - exists (txt "Total: "), []. vm_compute. reflexivity.
Defined.

(** A loop raises when one of its passes raises from every state that the
    earlier passes can have reached. *)
Lemma for_each_raises_from {A S} (P : S → Prop) (body : S → A → res S) xs acc x :
  (∀ a y a', body a y = Ok a' → P a → P a') →
  x ∈ xs → (∀ a, P a → ∃ e, body a x = Raise e) → P acc →
  ∃ e, for_each body xs acc = Raise e.
Proof.
  intros Hstep Hin Hx. revert acc. induction xs as [|y xs IH]; intros acc Hacc.
  { by apply elem_of_nil in Hin. }
  simpl. destruct (body acc y) as [a1|e] eqn:Hy; [|by exists e]. simpl.
  apply elem_of_cons in Hin as [->|Hin]; [|by eapply IH, Hstep].
  destruct (Hx acc Hacc) as [e He]. congruence.
Qed.

Lemma doc_formats_paragraphs doc doc' :
  doc_formats doc' = doc_formats doc →
  length (doc_paragraphs doc') = length (doc_paragraphs doc).
Proof.
  unfold doc_formats. intros [= H _ _].
  by rewrite <- (length_fmap paragraph_formats), H, length_fmap.
Qed.

(** X7: materialization has no guard against a malformed paragraph mapping.
    When some paragraph mapping of the list lacks [original_text] or
    [label], has a label that is no string, or has a paragraph index below
    minus the number of paragraphs, the whole operation ends in an
    exception, whatever the other mappings are; an index that is too large
    is skipped instead. *)
Theorem malformed_paragraph_mapping_raises repr_list doc mappings m :
  m ∈ mappings →
  incomplete_paragraph_mapping m ∨
  (∃ idx t l, paragraph_mapping_of m idx t l ∧
              (idx < - Z.of_nat (length (doc_paragraphs doc)))%Z) →
  ∃ e, apply_mappings_to_document repr_list doc mappings = Raise e.
Proof.
  intros Hin Hbad. unfold apply_mappings_to_document.
  assert (is_paragraph_mapping m) as Hpara.
  { by destruct Hbad as [[? _]|(? & ? & ? & [? _] & _)]. }
  destruct (for_each_raises_from
              (λ d, length (doc_paragraphs d) = length (doc_paragraphs doc))
              apply_paragraph_mapping (filter is_paragraph_mapping mappings) doc m)
    as [e He]; [| |  |done|by exists e; rewrite He].
  - intros a y a' Hs Ha. apply apply_paragraph_mapping_formats in Hs.
    apply doc_formats_paragraphs in Hs. congruence.
  - by apply list_elem_of_filter.
  - intros a Ha. unfold apply_paragraph_mapping, dict_get, dict_item.
    destruct Hbad as [(_ & [Ho|[Hl|(v & Hl & Hv)]])|(idx & t & l & (_ & Hi & Ht & Hl) & Hlow)].
    + rewrite Ho. by eexists.
    + rewrite Hl. destruct (m !! txt "original_text"); by eexists.
    + rewrite Hl. destruct (m !! txt "original_text"); [|by eexists].
      cbn [mbind res_bind jinja_var]. destruct v as [[| | |s]|]; try by eexists.
      by destruct (Hv s).
    + rewrite Hi, Ht, Hl. cbn [from_option id mbind res_bind jinja_var as_str as_int VInt].
      rewrite Ha. destruct (Z.ltb_spec idx (Z.of_nat (length (doc_paragraphs doc)))); [|lia].
      rewrite py_position_below by done. by eexists.
Qed.

Lemma malformed_paragraph_mapping_raises_witness :
  ∃ e, apply_mappings_to_document (λ _, []) two_paragraphs
         [customer_mapping;
          {[ txt "paragraph_index" := VInt 1; txt "original_text" := VStr "Total" ]}]
       = Raise e.
Proof.
  apply (malformed_paragraph_mapping_raises (λ _, []) two_paragraphs _
           {[ txt "paragraph_index" := VInt 1; txt "original_text" := VStr "Total" ]}).
  - apply elem_of_cons. right. apply elem_of_cons. by left.
  - left. split; [vm_compute; reflexivity|]. right. left. vm_compute. reflexivity.
Defined.

Lemma find_and_replace_in_cell_at before runs after target repl s :
  Forall (λ p, ¬ substitutable p target) before →
  str_find target (runs_text runs) = Some s → target ≠ [] →
  find_and_replace_in_cell (before ++ of_runs runs :: after) target repl =
  Ok (true, before ++
            of_runs (rewrite_runs 0 (Z.of_nat s) (Z.of_nat s + Z.of_nat (length target))
                       repl runs)
            :: after).
Proof.
  intros Hbefore Hs Hne. induction Hbefore as [|p before Hp _ IH].
  - cbn [app find_and_replace_in_cell]. by rewrite (find_and_replace_found _ _ _ _ Hs Hne).
  - cbn [app find_and_replace_in_cell].
    destruct (find_and_replace_outcome p target repl) as [[-> _]|(? & Hyes & _)];
      [|by destruct Hp].
    cbn [mbind res_bind]. by rewrite IH.
Qed.

Lemma single_cell_mapping repr_list doc m :
  has_mapping_type "table_cell" m →
  apply_mappings_to_document repr_list doc [m] =
  doc2 ← apply_cell_mapping doc m; Ok (true, doc2).
Proof.
  intros Hcell. pose proof (mapping_kinds_distinct m Hcell) as Hloop.
  assert (¬ is_paragraph_mapping m) as Hpara.
  { intros Hp. by apply mapping_kinds_exclusive in Hp as [? _]. }
  unfold apply_mappings_to_document.
  rewrite (filter_cons_False is_paragraph_mapping) by done.
  rewrite (filter_cons_True (has_mapping_type "table_cell")) by done.
  rewrite (filter_cons_False (has_mapping_type "table_loop")) by done.
  rewrite !filter_nil. cbn [for_each mbind res_bind].
  by destruct (apply_cell_mapping doc m).
Qed.

(** X8: a cell mapping that addresses a column of a row of a table is
    materialized in the cell that the column refers to, in its first
    paragraph in which the original text is substitutable; when that
    paragraph consists of runs only, the leftmost occurrence of the original
    text there gives way to the label between double braces, with the
    formatting of the runs kept.  The other paragraphs of the cell, the
    other cells, the rows of the tables and the body paragraphs are as
    before; a column of a merged cell refers to the same cell as its
    neighbour, and shows the same change. *)
Theorem cell_mapping_materialized
    repr_list doc m ti ri ci table row ref before runs after target label :
  cell_mapping_of m ti ri ci target label →
  doc_tables doc !! ti = Some table → table !! ri = Some row →
  row !! ci = Some ref →
  doc_cells doc !! ref = Some (before ++ of_runs runs :: after) →
  Forall (λ p, ¬ substitutable p target) before →
  target ≠ [] → is_substring target (runs_text runs) →
  ∃ start runs',
    occurs_at target (runs_text runs) start ∧
    (∀ j, occurs_at target (runs_text runs) j → start ≤ j) ∧
    apply_mappings_to_document repr_list doc [m] =
      Ok (true,
          mkDocument (doc_paragraphs doc) (doc_tables doc)
            (<[ref := before ++ of_runs runs' :: after]> (doc_cells doc))) ∧
    runs_text runs' =
      take start (runs_text runs) ++ txt "{{" ++ label ++ txt "}}"
      ++ drop (start + length target) (runs_text runs) ∧
    run_format <$> runs' = run_format <$> runs.
Proof.
  intros (Hcell & Hti & Hri & Hci & Ht & Hl) Htable Hrow Hcol Hcellat Hbefore Hne Hsub.
  destruct (str_find_is_Some _ _ Hsub) as [s Hs].
  pose proof (find_and_replace_found runs target (txt "{{" ++ label ++ txt "}}") s Hs Hne)
    as Hcall.
  exists s, (rewrite_runs 0 (Z.of_nat s) (Z.of_nat s + Z.of_nat (length target))
               (txt "{{" ++ label ++ txt "}}") runs).
  apply str_find_Some in Hs as Hocc. destruct Hocc as [Hocc Hleft].
  split; [done|]. split; [done|]. split; [|split].
  - rewrite single_cell_mapping by done.
    pose proof (lookup_lt_Some _ _ _ Htable). pose proof (lookup_lt_Some _ _ _ Hrow).
    pose proof (lookup_lt_Some _ _ _ Hcol).
    unfold apply_cell_mapping, dict_get, dict_item.
    rewrite Hti, Hri, Hci, Ht, Hl. cbn [from_option id mbind res_bind as_int VInt].
    destruct (Z.ltb_spec (Z.of_nat ti) (Z.of_nat (length (doc_tables doc)))); [|lia].
    rewrite py_position_nat by done. cbn [mbind res_bind].
    rewrite (py_getitem_Some _ _ _ Htable). cbn [mbind res_bind].
    destruct (Z.ltb_spec (Z.of_nat ri) (Z.of_nat (length table))); [|lia].
    rewrite py_position_nat by done. cbn [mbind res_bind].
    rewrite (py_getitem_Some _ _ _ Hrow). cbn [mbind res_bind].
    destruct (Z.ltb_spec (Z.of_nat ci) (Z.of_nat (length row))); [|lia].
    rewrite py_position_nat by done. cbn [mbind res_bind].
    rewrite (py_getitem_Some _ _ _ Hcol). cbn [mbind res_bind].
    rewrite (py_getitem_Some _ _ _ Hcellat). cbn [mbind res_bind jinja_var as_str].
    unfold call_find_and_replace_in_cell.
    destruct (before ++ of_runs runs :: after) as [|p0 rest] eqn:Hshape.
    { by destruct before. }
    cbn [as_str mbind res_bind]. rewrite <- Hshape.
    by rewrite (find_and_replace_in_cell_at _ _ _ _ _ _ Hbefore Hs Hne).
  - destruct (find_and_replace_text _ _ _ _ Hcall) as (s' & Hs' & _ & _ & Htext).
    rewrite Hs in Hs'. injection Hs' as <-.
    rewrite paragraph_runs_of_runs in Htext. by rewrite Htext, <- !app_assoc.
  - apply rewrite_runs_formats.
Qed.

Lemma cell_mapping_materialized_witness :
  ∃ start runs',
    occurs_at (txt "5.000.000") (txt "5.000.000") start ∧
    (∀ j, occurs_at (txt "5.000.000") (txt "5.000.000") j → start ≤ j) ∧
    apply_mappings_to_document (λ _, []) merged_price_list [price_mapping] =
      Ok (true,
          mkDocument [] (doc_tables merged_price_list)
            (<[2 := [of_runs [plain "Consulting"; plain ": 5.000"]; of_runs runs']]>
               (doc_cells merged_price_list))) ∧
    runs_text runs' =
      take start (txt "5.000.000") ++ txt "{{" ++ txt "amount" ++ txt "}}"
      ++ drop (start + 9) (txt "5.000.000") ∧
    run_format <$> runs' = run_format <$> [plain "5.000"; styled ".000" true false].
Proof.
  apply (cell_mapping_materialized (λ _, []) merged_price_list price_mapping
           0 1 1 [ [0; 1]; [2; 2] ] [2; 2] 2
           [of_runs [plain "Consulting"; plain ": 5.000"]]
           [plain "5.000"; styled ".000" true false] []
           (txt "5.000.000") (txt "amount")).
  - repeat split; vm_compute; reflexivity.
  - reflexivity.
  - reflexivity.
  - reflexivity.
  - reflexivity.
  - apply Forall_cons_2; [|apply Forall_nil_2].
    intros (_ & s & Hf & _). vm_compute in Hf. discriminate.
  - discriminate.
  - exists [], []. vm_compute. reflexivity.
Defined.

Lemma overwrite_paragraph_text marker para :
  overwritten_by marker para (overwrite_paragraph marker para).
Proof.
  unfold overwritten_by, overwrite_paragraph.
  destruct (paragraph_runs para) as [|first others] eqn:Hruns.
  { rewrite Hruns. by split. }
  rewrite paragraph_runs_with_runs by (by rewrite Hruns; simpl; rewrite length_fmap).
  split; [by simpl; rewrite length_fmap|]. intros _.
  unfold runs_text. rewrite fmap_cons. cbn [concat with_text run_text].
  assert (concat (run_text <$> ((λ r, with_text r []) <$> others)) = []) as ->.
  { clear Hruns. induction others as [|r others IH]; [done|]. simpl. exact IH. }
  apply app_nil_r.
Qed.

Lemma mark_loop_cell_overwrites repr_list lv row cells cl c l :
  overwrites cl c l →
  mark_loop_cell repr_list (VScalar (SStr lv)) row cells cl =
  match row !! c with
  | Some ref =>
      cell ← py_getitem cells ref;
      Ok (<[ref := overwrite_paragraph (loop_marker lv l) <$> cell]> cells)
  | None => Ok cells
  end.
Proof.
  intros (d & -> & Hc & Hl & Ho). unfold mark_loop_cell, dict_item.
  rewrite Hc, Hl. cbn [mbind res_bind as_int py_format py_str].
  destruct (row !! c) as [ref|] eqn:Href.
  - pose proof (lookup_lt_Some _ _ _ Href).
    destruct (Z.ltb_spec (Z.of_nat c) (Z.of_nat (length row))); [|lia].
    rewrite py_position_nat by done. cbn [mbind res_bind].
    rewrite (py_getitem_Some _ _ _ Href). cbn [mbind res_bind].
    destruct (py_getitem cells ref) as [cell|]; [|done]. cbn [mbind res_bind].
    unfold mark_cell. by rewrite Ho.
  - apply lookup_ge_None in Href.
    by destruct (Z.ltb_spec (Z.of_nat c) (Z.of_nat (length row))); [lia|].
Qed.

Lemma for_each_mark_loop_cell repr_list lv cls (specs : list (nat * text)) row cells :
  Forall2 (λ cl spec, overwrites cl spec.1 spec.2) cls specs →
  Forall (λ ref, ref < length cells) row →
  NoDup (named_refs row specs) →
  ∃ cells',
    for_each (mark_loop_cell repr_list (VScalar (SStr lv)) row) cls cells = Ok cells' ∧
    length cells' = length cells ∧
    (∀ c l ref, (c, l) ∈ specs → row !! c = Some ref →
       cells' !! ref = (fmap (overwrite_paragraph (loop_marker lv l))) <$> cells !! ref) ∧
    (∀ ref, ref ∉ named_refs row specs → cells' !! ref = cells !! ref).
Proof.
  intros Hcls. revert cells.
  induction Hcls as [|cl [c0 l0] cls specs Hcl _ IH]; intros cells Hrow Hnd.
  { exists cells. split; [done|]. split; [done|]. split; [|done].
    intros c l ref Hin. by apply elem_of_nil in Hin. }
  cbn [for_each]. rewrite (mark_loop_cell_overwrites _ _ _ _ _ _ _ Hcl).
  unfold named_refs in Hnd. cbn [omap list_omap fst] in Hnd. fold (named_refs row specs) in Hnd.
  cbn [fst snd]. destruct (row !! c0) as [ref0|] eqn:Href0.
  - apply NoDup_cons in Hnd as [Hfresh Hnd].
    assert (ref0 < length cells) as Hlt.
    { exact (proj1 (Forall_forall _ _) Hrow ref0 (list_elem_of_lookup_2 _ _ _ Href0)). }
    destruct (lookup_lt_is_Some_2 cells ref0 Hlt) as [cell0 Hcell0].
    rewrite (py_getitem_Some _ _ _ Hcell0). cbn [mbind res_bind].
    set (cells1 := <[ref0 := overwrite_paragraph (loop_marker lv l0) <$> cell0]> cells).
    assert (length cells1 = length cells) as Hlen1 by apply length_insert.
    destruct (IH cells1) as (cells' & Hrun & Hlen & Hin & Hout); [by rewrite Hlen1|done|].
    exists cells'. split; [done|]. split; [congruence|]. split.
    + intros c l ref [[= -> ->]|Hcl']%elem_of_cons Href.
      * assert (ref = ref0) as -> by congruence.
        rewrite (Hout ref0 Hfresh), Hcell0. unfold cells1.
        by rewrite list_lookup_insert_eq.
      * rewrite (Hin c l ref Hcl' Href). unfold cells1.
        rewrite list_lookup_insert_ne; [done|]. intros ->. apply Hfresh.
        unfold named_refs. apply list_elem_of_omap. by exists (c, l).
    + unfold named_refs. cbn [omap list_omap fst]. rewrite Href0.
      intros ref [Hne Hc]%not_elem_of_cons.
      rewrite (Hout ref Hc). unfold cells1. by rewrite list_lookup_insert_ne.
  - cbn [mbind res_bind].
    destruct (IH cells Hrow Hnd) as (cells' & Hrun & Hlen & Hin & Hout).
    exists cells'. split; [done|]. split; [done|]. split.
    + intros c l ref [[= -> ->]|Hcl']%elem_of_cons Href; [congruence|].
      by apply (Hin c l).
    + unfold named_refs. cbn [omap list_omap fst]. by rewrite Href0.
Qed.

Lemma single_loop_mapping repr_list doc m :
  has_mapping_type "table_loop" m →
  apply_mappings_to_document repr_list doc [m] =
  doc3 ← apply_loop_mapping repr_list doc m; Ok (true, doc3).
Proof.
  intros Hloop.
  assert (¬ is_paragraph_mapping m) as Hpara.
  { intros Hp. by apply mapping_kinds_exclusive in Hp as [_ ?]. }
  assert (¬ has_mapping_type "table_cell" m) as Hcell.
  { intros Hc. by apply mapping_kinds_distinct in Hc. }
  unfold apply_mappings_to_document.
  rewrite (filter_cons_False is_paragraph_mapping) by done.
  rewrite (filter_cons_False (has_mapping_type "table_cell")) by done.
  rewrite (filter_cons_True (has_mapping_type "table_loop")) by done.
  rewrite !filter_nil. cbn [for_each mbind res_bind].
  by destruct (apply_loop_mapping repr_list doc m).
Qed.

(** X9: a loop mapping marks its data row.  For a loop mapping that
    addresses a row of a table, every column of which refers to a cell of
    the document, and whose cell labels carry no original text and name
    columns that refer to different cells, materialization overwrites the
    cell of every named column: each paragraph of the cell that has a run
    reads, in its runs, as the marker [__LOOP__<loop variable>__<label>__]
    and keeps the number of its runs; a named column beyond the row is
    skipped, and the other cells, the rows of the tables and the body
    paragraphs are as before. *)
Theorem loop_row_marked
    repr_list doc m ti ri table row lv cls (specs : list (nat * text)) :
  has_mapping_type "table_loop" m →
  m !! txt "table_index" = Some (VInt (Z.of_nat ti)) →
  m !! txt "data_row_index" = Some (VInt (Z.of_nat ri)) →
  m !! txt "loop_variable" = Some (VScalar (SStr lv)) →
  m !! txt "cell_labels" = Some (VList cls) →
  doc_tables doc !! ti = Some table → table !! ri = Some row →
  Forall (λ ref, ref < length (doc_cells doc)) row →
  Forall2 (λ cl spec, overwrites cl spec.1 spec.2) cls specs →
  NoDup (named_refs row specs) →
  ∃ cells',
    apply_mappings_to_document repr_list doc [m] =
      Ok (true, mkDocument (doc_paragraphs doc) (doc_tables doc) cells') ∧
    length cells' = length (doc_cells doc) ∧
    (∀ c l ref cell, (c, l) ∈ specs → row !! c = Some ref →
       doc_cells doc !! ref = Some cell →
       ∃ cell', cells' !! ref = Some cell' ∧
                Forall2 (overwritten_by (loop_marker lv l)) cell cell') ∧
    (∀ ref, ref ∉ named_refs row specs → cells' !! ref = doc_cells doc !! ref).
Proof.
  intros Hloop Hti Hri Hlv Hcls Htable Hrow Hrefs Hspecs Hnd.
  destruct (for_each_mark_loop_cell repr_list lv cls specs row (doc_cells doc)
              Hspecs Hrefs Hnd) as (cells' & Hrun & Hlen & Hin & Hout).
  exists cells'. split; [|split; [done|split; [|done]]].
  - rewrite single_loop_mapping by done.
    pose proof (lookup_lt_Some _ _ _ Htable). pose proof (lookup_lt_Some _ _ _ Hrow).
    unfold apply_loop_mapping, dict_get. rewrite Hti, Hri, Hlv, Hcls.
    cbn [from_option id mbind res_bind as_int VInt].
    destruct (Z.ltb_spec (Z.of_nat ti) (Z.of_nat (length (doc_tables doc)))); [|lia].
    rewrite py_position_nat by done. cbn [mbind res_bind].
    rewrite (py_getitem_Some _ _ _ Htable). cbn [mbind res_bind].
    destruct (Z.ltb_spec (Z.of_nat ri) (Z.of_nat (length table))); [|lia].
    rewrite py_position_nat by done. cbn [mbind res_bind].
    rewrite (py_getitem_Some _ _ _ Hrow). cbn [mbind res_bind py_iter].
    by rewrite Hrun.
  - intros c l ref cell Hcl Href Hcell. rewrite (Hin c l ref Hcl Href), Hcell.
    eexists. split; [done|].
    apply Forall2_fmap_r, Forall_Forall2_diag, Forall_forall.
    intros p _. apply overwrite_paragraph_text.
Qed.

Lemma loop_row_marked_witness :
  ∃ cells',
    apply_mappings_to_document (λ _, []) price_list
      [ {[ txt "mapping_type" := VStr "table_loop"; txt "table_index" := VInt 0;
           txt "data_row_index" := VInt 1; txt "loop_variable" := VStr "items";
           txt "cell_labels" := VList invoice_cell_labels ]} ] =
      Ok (true, mkDocument [] [price_table] cells') ∧
    length cells' = 4 ∧
    ∃ cell', cells' !! 3 = Some cell' ∧
      Forall2 (overwritten_by (loop_marker (txt "items") (txt "amount")))
        [of_runs [plain "n/a"]; of_runs [plain "5.000"; styled ".000" true false]] cell'.
Proof.
  destruct (loop_row_marked (λ _, []) price_list
              {[ txt "mapping_type" := VStr "table_loop"; txt "table_index" := VInt 0;
                 txt "data_row_index" := VInt 1; txt "loop_variable" := VStr "items";
                 txt "cell_labels" := VList invoice_cell_labels ]}
              0 1 price_table [2; 3]
              (txt "items") invoice_cell_labels [(0, txt "stt"); (1, txt "amount")])
    as (cells' & Hrun & Hlen & Hin & _); try (vm_compute; reflexivity).
  - repeat constructor.
  - repeat constructor; eexists; (split; [reflexivity|]); repeat split.
  - repeat constructor; simpl; intros Hin;
      repeat (apply elem_of_cons in Hin as [Hin|Hin]; [discriminate Hin|]);
      by apply elem_of_nil in Hin.
  - exists cells'. split; [exact Hrun|]. split; [exact Hlen|].
    apply (Hin 1 (txt "amount") 3); [|reflexivity|reflexivity].
    apply elem_of_cons. right. apply elem_of_cons. by left.
Defined.

(** On a merged cell, to which two columns of the row refer, the marker of
    the column named last overwrites the marker of the column named
    first. *)
Example merged_cell_marked_once :
  apply_mappings_to_document (λ _, []) merged_price_list
    [ {[ txt "mapping_type" := VStr "table_loop"; txt "table_index" := VInt 0;
         txt "data_row_index" := VInt 1; txt "loop_variable" := VStr "items";
         txt "cell_labels" := VList invoice_cell_labels ]} ] =
  Ok (true,
      mkDocument [] (doc_tables merged_price_list)
        [ [of_runs [plain "Item"]]; [of_runs [plain "Price"]];
          [of_runs [plain "__LOOP__items__amount__"; plain ""];
           of_runs [plain "__LOOP__items__amount__"; styled "" true false]] ]).
Proof. vm_compute. reflexivity. Qed.

Lemma apply_paragraph_mapping_at doc m k t l :
  paragraph_mapping_of m (Z.of_nat k) t l →
  apply_paragraph_mapping doc m =
  Ok (match doc_paragraphs doc !! k with
      | Some para =>
          mkDocument (<[k := substituted para t (txt "{{" ++ l ++ txt "}}")]>
                        (doc_paragraphs doc))
                     (doc_tables doc) (doc_cells doc)
      | None => doc
      end).
Proof.
  intros (_ & Hi & Ht & Hl). unfold apply_paragraph_mapping, dict_get, dict_item.
  rewrite Hi, Ht, Hl. cbn [from_option id mbind res_bind jinja_var as_str as_int VInt].
  destruct (doc_paragraphs doc !! k) as [para|] eqn:Hpara.
  - pose proof (lookup_lt_Some _ _ _ Hpara).
    destruct (Z.ltb_spec (Z.of_nat k) (Z.of_nat (length (doc_paragraphs doc)))); [|lia].
    rewrite py_position_nat by done. cbn [mbind res_bind].
    rewrite (py_getitem_Some _ _ _ Hpara). cbn [mbind res_bind]. unfold substituted.
    destruct (find_and_replace_cases para t (txt "{{" ++ l ++ txt "}}"))
      as [->|(s & _ & _ & _ & ->)]; done.
  - apply lookup_ge_None in Hpara.
    by destruct (Z.ltb_spec (Z.of_nat k) (Z.of_nat (length (doc_paragraphs doc)))); [lia|].
Qed.

Lemma two_paragraph_mappings repr_list doc m1 m2 :
  is_paragraph_mapping m1 → is_paragraph_mapping m2 →
  apply_mappings_to_document repr_list doc [m1; m2] =
  doc1 ← apply_paragraph_mapping doc m1;
  doc2 ← apply_paragraph_mapping doc1 m2;
  Ok (true, doc2).
Proof.
  intros H1 H2.
  destruct (mapping_kinds_exclusive m1 H1) as [Hc1 Hl1].
  destruct (mapping_kinds_exclusive m2 H2) as [Hc2 Hl2].
  unfold apply_mappings_to_document.
  rewrite (filter_cons_True is_paragraph_mapping _ _ H1).
  rewrite (filter_cons_True is_paragraph_mapping _ _ H2).
  rewrite (filter_cons_False (has_mapping_type "table_cell") _ _ Hc1).
  rewrite (filter_cons_False (has_mapping_type "table_cell") _ _ Hc2).
  rewrite (filter_cons_False (has_mapping_type "table_loop") _ _ Hl1).
  rewrite (filter_cons_False (has_mapping_type "table_loop") _ _ Hl2).
  rewrite !filter_nil. cbn [for_each].
  destruct (apply_paragraph_mapping doc m1) as [doc1|]; [|done]. cbn [mbind res_bind].
  by destruct (apply_paragraph_mapping doc1 m2).
Qed.

(** X10: paragraph mappings on different paragraphs do not interfere.  Two
    paragraph mappings that address different paragraphs materialize to the
    same document in either order, and each paragraph ends as the mapping
    that addresses it leaves it on its own. *)
Theorem paragraph_mappings_commute repr_list doc m1 m2 k1 k2 t1 t2 l1 l2 :
  paragraph_mapping_of m1 (Z.of_nat k1) t1 l1 →
  paragraph_mapping_of m2 (Z.of_nat k2) t2 l2 →
  k1 ≠ k2 →
  ∃ doc',
    apply_mappings_to_document repr_list doc [m1; m2] = Ok (true, doc') ∧
    apply_mappings_to_document repr_list doc [m2; m1] = Ok (true, doc') ∧
    doc_tables doc' = doc_tables doc ∧ doc_cells doc' = doc_cells doc ∧
    doc_paragraphs doc' !! k1 =
      (λ para, substituted para t1 (txt "{{" ++ l1 ++ txt "}}")) <$> doc_paragraphs doc !! k1 ∧
    doc_paragraphs doc' !! k2 =
      (λ para, substituted para t2 (txt "{{" ++ l2 ++ txt "}}")) <$> doc_paragraphs doc !! k2 ∧
    ∀ k, k ≠ k1 → k ≠ k2 → doc_paragraphs doc' !! k = doc_paragraphs doc !! k.
Proof.
  intros Hm1 Hm2 Hne.
  rewrite !two_paragraph_mappings by (by destruct Hm1, Hm2).
  rewrite (apply_paragraph_mapping_at doc m1 k1 t1 l1 Hm1).
  rewrite (apply_paragraph_mapping_at doc m2 k2 t2 l2 Hm2).
  cbn [mbind res_bind].
  rewrite (apply_paragraph_mapping_at _ m2 k2 t2 l2 Hm2).
  rewrite (apply_paragraph_mapping_at _ m1 k1 t1 l1 Hm1).
  cbn [mbind res_bind].
  destruct (doc_paragraphs doc !! k1) as [p1|] eqn:Hp1;
    destruct (doc_paragraphs doc !! k2) as [p2|] eqn:Hp2;
    cbn [doc_paragraphs doc_tables doc_cells].
  - rewrite (list_lookup_insert_ne _ k1 k2), Hp2 by done.
    rewrite (list_lookup_insert_ne _ k2 k1), Hp1 by done.
    cbn [doc_paragraphs doc_tables doc_cells].
    eexists. split; [reflexivity|]. split; [by rewrite list_insert_insert_ne by done|].
    cbn [doc_paragraphs doc_tables doc_cells]. split; [done|]. split; [done|].
    pose proof (lookup_lt_Some _ _ _ Hp1). pose proof (lookup_lt_Some _ _ _ Hp2).
    split; [|split].
    + rewrite list_lookup_insert_ne by done.
      by rewrite list_lookup_insert_eq by done.
    + by rewrite list_lookup_insert_eq by (by rewrite length_insert).
    + intros k Hk1 Hk2. by rewrite !list_lookup_insert_ne by done.
  - rewrite (list_lookup_insert_ne _ k1 k2), Hp2 by done. rewrite ?Hp1.
    eexists. split; [reflexivity|]. split; [reflexivity|].
    cbn [doc_paragraphs doc_tables doc_cells]. split; [done|]. split; [done|].
    pose proof (lookup_lt_Some _ _ _ Hp1). split; [|split].
    + by rewrite list_lookup_insert_eq by done.
    + by rewrite list_lookup_insert_ne, Hp2 by done.
    + intros k Hk1 Hk2. by rewrite list_lookup_insert_ne by done.
  - rewrite ?Hp2. rewrite (list_lookup_insert_ne _ k2 k1), Hp1 by done.
    eexists. split; [reflexivity|]. split; [reflexivity|].
    cbn [doc_paragraphs doc_tables doc_cells]. split; [done|]. split; [done|].
    pose proof (lookup_lt_Some _ _ _ Hp2). split; [|split].
    + by rewrite list_lookup_insert_ne, Hp1 by done.
    + by rewrite list_lookup_insert_eq by done.
    + intros k Hk1 Hk2. by rewrite list_lookup_insert_ne by done.
  - rewrite ?Hp1, ?Hp2. exists doc. by rewrite Hp1, Hp2.
Qed.

Lemma paragraph_mappings_commute_witness :
  ∃ doc',
    apply_mappings_to_document (λ _, []) two_paragraphs
      [customer_mapping;
       {[ txt "paragraph_index" := VInt 1; txt "original_text" := VStr "5.000.000";
          txt "label" := VStr "amount" ]}] = Ok (true, doc') ∧
    apply_mappings_to_document (λ _, []) two_paragraphs
      [{[ txt "paragraph_index" := VInt 1; txt "original_text" := VStr "5.000.000";
          txt "label" := VStr "amount" ]};
       customer_mapping] = Ok (true, doc').
Proof.
  destruct (paragraph_mappings_commute (λ _, []) two_paragraphs customer_mapping
              {[ txt "paragraph_index" := VInt 1; txt "original_text" := VStr "5.000.000";
                 txt "label" := VStr "amount" ]}
              0 1 (txt "Nguyen Van A") (txt "5.000.000")
              (txt "customer_name") (txt "amount"))
    as (doc' & H12 & H21 & _).
  - repeat split; vm_compute; reflexivity.
  - repeat split; vm_compute; reflexivity.
  - discriminate.
  - exists doc'. split; [exact H12|exact H21].
Defined.

(* ================================================================== *)
(** * Further properties of loop expansion *)
(* ================================================================== *)

Lemma expand_loop_nothing tables data m :
  has_mapping_type "table_loop" m → expands_nothing tables data m →
  expand_loop data tables m = Ok tables.
Proof.
  intros Hloop [Hno|(lv & Hlv & Hskip)]; [done|].
  unfold expand_loop. cbv zeta. rewrite Hlv. cbn [data_get mbind res_bind].
  destruct Hskip as [Hfalsy|(ti & Hti & Hrange)].
  { destruct (data !! lv) as [v|] eqn:Hv; cbn [from_option id].
    - by rewrite (Hfalsy v eq_refl).
    - cbn [truthy_val]. by rewrite bool_decide_eq_true_2. }
  destruct (negb _); [done|]. rewrite Hti. cbn [mbind res_bind].
  destruct Hrange as [Hge|(table & di & Htable & Hti0 & Hdi & Hge)].
  { by destruct (Z.geb_spec ti (Z.of_nat (length tables))); [|lia]. }
  pose proof (lookup_lt_Some _ _ _ Htable).
  destruct (Z.geb_spec ti (Z.of_nat (length tables))); [lia|].
  rewrite py_position_nonneg by lia. cbn [mbind res_bind].
  rewrite (py_getitem_Some _ _ _ Htable), Hdi. cbn [mbind res_bind].
  by destruct (Z.geb_spec di (Z.of_nat (length table))); [|lia].
Qed.

(** X11: loop expansion passes over every mapping that is no loop mapping,
    every loop mapping for which the render data holds no key or a falsy
    value (an empty list or string, [None], [False], [0]), and every loop
    mapping whose table or row index is too large: when all the mappings
    are of that kind, the tables are handed back as they were and nothing
    is raised. *)
Theorem expansion_passes_over tables data mappings :
  Forall (expands_nothing tables data) mappings →
  expand_table_loops tables data mappings = Ok tables.
Proof.
  intros Hall. unfold expand_table_loops. apply for_each_unchanged.
  intros m [Hloop Hin]%list_elem_of_filter. apply expand_loop_nothing; [done|].
  exact (proj1 (Forall_forall _ _) Hall m Hin).
Qed.

Lemma expansion_passes_over_witness :
  expand_table_loops [invoice_table] {[ txt "items" := VList [] ]}
    [ customer_mapping; invoice_mapping;
      <[ txt "loop_variable" := VStr "lines" ]> invoice_mapping;
      <[ txt "data_row_index" := VInt 3 ]> invoice_mapping ]
  = Ok [invoice_table].
Proof.
  apply expansion_passes_over. repeat apply Forall_cons_2; [| | | |apply Forall_nil_2].
  - left. intros H. vm_compute in H. discriminate.
  - right. exists (txt "items"). split; [vm_compute; reflexivity|]. left.
    intros v Hv. vm_compute in Hv. injection Hv as <-. vm_compute. reflexivity.
  - right. exists (txt "lines"). split; [vm_compute; reflexivity|]. left.
    intros v Hv. vm_compute in Hv. discriminate.
  - right. exists (txt "items"). split; [vm_compute; reflexivity|]. right.
    exists 0%Z. split; [vm_compute; reflexivity|]. right.
    exists invoice_table, 3%Z. repeat split; vm_compute; congruence.
Defined.

Lemma str_contains_true t s : str_contains t s = true → is_substring t s.
Proof.
  unfold str_contains. destruct (str_find t s) as [i|] eqn:Hf; [|done].
  intros _. apply str_find_Some in Hf as [(pre & post & -> & _) _]. by exists pre, post.
Qed.

Lemma for_each_replace_marker_absent loop_var it cls s s' :
  (∀ cl label, cl ∈ cls → cell_label_of cl = Ok label →
     ¬ is_substring (loop_marker (py_str loop_var) (py_str label)) s) →
  for_each (replace_marker loop_var it) cls s = Ok s' → s' = s.
Proof.
  intros Hno. induction cls as [|cl cls IH]; cbn [for_each]; [by intros [= <-]|].
  intros (s1 & Hstep & Hrest)%bind_Ok.
  assert (s1 = s) as ->.
  { unfold replace_marker in Hstep. apply bind_Ok in Hstep as (label & Hl & Hstep).
    destruct (str_contains _ s) eqn:Hc; [|congruence].
    apply str_contains_true in Hc. destruct (Hno cl label); [by left|done|done]. }
  apply IH; [|done]. intros cl' label Hin. apply Hno. by right.
Qed.

(** X12: a clone of the template row is the template row up to the text of
    its text leaves: it has the same elements with the same tags, in the
    same places.  A text leaf without text, and a text leaf whose text holds
    the marker of no listed label, is cloned as it is. *)
Theorem clone_keeps_structure loop_var cls template it row' :
  clone_row loop_var (VList cls) template it = Ok row' →
  without_text row' = without_text template ∧
  length (leaf_contents row') = length (leaf_contents template) ∧
  ∀ i c,
    leaf_contents template !! i = Some c →
    (∀ s cl label, c = Some s → cl ∈ cls → cell_label_of cl = Ok label →
       ¬ is_substring (loop_marker (py_str loop_var) (py_str label)) s) →
    leaf_contents row' !! i = Some c.
Proof.
  unfold clone_row. intros Hclone. split; [by eapply fill_element_without_text|].
  apply fill_element_leaves in Hclone. split; [symmetry; by eapply Forall2_length|].
  intros i c Hi Hno.
  destruct (Forall2_lookup_l _ _ _ _ _ Hclone Hi) as (c' & Hi' & Hfill).
  rewrite Hi'. f_equal. destruct c as [[|a s]|]; simpl in Hfill; try congruence.
  apply bind_Ok in Hfill as (s' & Hs' & [= <-]). f_equal.
  eapply for_each_replace_marker_absent; [|exact Hs']. intros cl label. by apply Hno.
Qed.

Lemma clone_keeps_structure_witness :
  ∃ row',
    clone_row (SStr (txt "items")) (VList invoice_cell_labels)
      (w_tr [w_tc (loop_marker (txt "items") (txt "stt")); w_tc (txt "pcs")])
      (IDict {[ txt "stt" := SInt 7 ]}) = Ok row' ∧
    without_text row' = without_text (w_tr [w_tc []; w_tc []]) ∧
    leaf_contents row' !! 1 = Some (Some (txt "pcs")).
Proof.
  assert (∃ r, clone_row (SStr (txt "items")) (VList invoice_cell_labels)
                 (w_tr [w_tc (loop_marker (txt "items") (txt "stt")); w_tc (txt "pcs")])
                 (IDict {[ txt "stt" := SInt 7 ]}) = Ok r) as [r Hr].
  { eexists. vm_compute. reflexivity. }
  exists r. split; [exact Hr|].
  destruct (clone_keeps_structure (SStr (txt "items")) invoice_cell_labels
              (w_tr [w_tc (loop_marker (txt "items") (txt "stt")); w_tc (txt "pcs")])
              (IDict {[ txt "stt" := SInt 7 ]}) r Hr) as (Hshape & _ & Hleaf).
  split; [exact Hshape|]. apply Hleaf; [reflexivity|].
  intros s cl label [= <-] Hin Hlabel. apply str_find_None.
  apply elem_of_cons in Hin as [->|Hin]; [|apply elem_of_cons in Hin as [->|Hin]].
  - injection Hlabel as <-. vm_compute. reflexivity.
  - injection Hlabel as <-. vm_compute. reflexivity.
  - by apply elem_of_nil in Hin.
Defined.

Lemma expand_loop_addressed tables data mapping ti k table template loop_var cls v :
  mapping !! txt "table_index" = Some (VInt (Z.of_nat ti)) →
  mapping !! txt "data_row_index" = Some (VInt (Z.of_nat k)) →
  mapping !! txt "loop_variable" = Some (VScalar (SStr loop_var)) →
  mapping !! txt "cell_labels" = Some (VList cls) →
  tables !! ti = Some table → table !! k = Some template →
  data !! loop_var = Some v → truthy_val v = true →
  expand_loop data tables mapping =
  its ← py_iter v;
  new_rows ← map_res (clone_row (SStr loop_var) (VList cls) template) its;
  Ok (<[ti := take k table ++ new_rows ++ drop (S k) table]> tables).
Proof.
  intros Hti Hk Hlv Hcls Htable Htemplate Hdata Htrue.
  pose proof (lookup_lt_Some _ _ _ Htable) as Hlt1.
  pose proof (lookup_lt_Some _ _ _ Htemplate) as Hlt2.
  unfold expand_loop, dict_get, data_get. rewrite Hti, Hk, Hlv, Hcls.
  cbn [from_option id]. rewrite Hdata.
  cbn [from_option id mbind res_bind as_int VInt scalar_of]. rewrite Htrue. cbn [negb].
  destruct (Z.geb_spec (Z.of_nat ti) (Z.of_nat (length tables))); [lia|].
  rewrite py_position_nat by done. cbn [mbind res_bind].
  rewrite (py_getitem_Some _ _ _ Htable). cbn [mbind res_bind].
  destruct (Z.geb_spec (Z.of_nat k) (Z.of_nat (length table))); [lia|].
  rewrite py_position_nat by done. cbn [mbind res_bind].
  rewrite (py_getitem_Some _ _ _ Htemplate). cbn [mbind res_bind].
  destruct (py_iter v) as [its|]; [|done]. cbn [mbind res_bind].
  destruct (map_res _ its) as [new_rows|]; [|done]. cbn [mbind res_bind].
  rewrite foldl_addnext by done. by rewrite (delete_template_row _ _ _ _ Htemplate).
Qed.

(** X13: render data that holds a scalar where a list of items is expected.
    For a loop mapping that addresses a row of a table, a non-empty string
    under the loop variable is expanded character by character, into one
    clone of the template row per character, each filled from the item that
    holds the character under "value"; a truthy value that is neither a list
    nor a string (a non-zero number, [True]) raises [TypeError]. *)
Theorem scalar_loop_data
    tables data mapping ti k table template loop_var cls labels v :
  has_mapping_type "table_loop" mapping →
  mapping !! txt "table_index" = Some (VInt (Z.of_nat ti)) →
  mapping !! txt "data_row_index" = Some (VInt (Z.of_nat k)) →
  mapping !! txt "loop_variable" = Some (VScalar (SStr loop_var)) →
  mapping !! txt "cell_labels" = Some (VList cls) →
  Forall2 (λ cl label, cell_label_of cl = Ok label) cls labels →
  tables !! ti = Some table → table !! k = Some template →
  data !! loop_var = Some (VScalar v) → truthy v = true →
  (∀ s, v = SStr s →
     ∃ new_rows,
       Forall2 (λ c row,
                  clone_row (SStr loop_var) (VList cls) template (IScalar (SStr [c])) = Ok row ∧
                  coerce_item (IScalar (SStr [c])) = {[ txt "value" := SStr [c] ]})
         s new_rows ∧
       expand_table_loops tables data [mapping] =
         Ok (<[ti := take k table ++ new_rows ++ drop (S k) table]> tables)) ∧
  ((∀ s, v ≠ SStr s) → expand_table_loops tables data [mapping] = Raise TypeError).
Proof.
  intros Htype Hti Hk Hlv Hcls Hlabels Htable Htemplate Hdata Htrue.
  unfold expand_table_loops. rewrite filter_cons_True, filter_nil by done.
  cbn [for_each].
  rewrite (expand_loop_addressed _ _ _ _ _ _ _ _ _ _ Hti Hk Hlv Hcls Htable Htemplate
             Hdata Htrue).
  split.
  - intros s ->. cbn [py_iter mbind res_bind].
    destruct (map_res_total (clone_row (SStr loop_var) (VList cls) template)
                ((λ c, IScalar (SStr [c])) <$> s)) as [new_rows Hnew].
    { apply Forall_forall. intros it _.
      destruct (clone_row_closed (SStr loop_var) cls labels template it Hlabels)
        as (row' & Hrow' & _). eauto. }
    exists new_rows. rewrite Hnew. split; [|done].
    apply map_res_Ok in Hnew. apply Forall2_fmap_l in Hnew.
    eapply Forall2_impl; [exact Hnew|]. by intros c row Hc.
  - intros Hno. destruct v as [|b|z|s]; try done. by destruct (Hno s).
Qed.

Lemma scalar_loop_data_witness :
  (∃ new_rows,
     length new_rows = 2 ∧
     expand_table_loops [invoice_table] {[ txt "items" := VStr "ab" ]} [invoice_mapping] =
       Ok [take 1 invoice_table ++ new_rows ++ drop 2 invoice_table]).
Proof.
  destruct (scalar_loop_data [invoice_table] {[ txt "items" := VStr "ab" ]} invoice_mapping
              0 1 invoice_table
              (w_tr [w_tc (loop_marker (txt "items") (txt "stt"));
                     w_tc (loop_marker (txt "items") (txt "amount"))])
              (txt "items") invoice_cell_labels [SStr (txt "stt"); SStr (txt "amount")]
              (SStr (txt "ab"))) as [Hstr _];
    try (vm_compute; reflexivity).
  { repeat constructor. }
  destruct (Hstr (txt "ab") eq_refl) as (new_rows & Hrows & Hexp).
  exists new_rows. split; [|exact Hexp].
  apply Forall2_length in Hrows. by rewrite <- Hrows.
Defined.

(* ================================================================== *)
(** * Properties of rendering *)
(* ================================================================== *)

Lemma validate_fields_provided data fields :
  for_each (require_field data) fields () = Ok () → Forall (provided data) fields.
Proof.
  induction fields as [|f fields IH]; [constructor|].
  cbn [for_each]. intros ([] & Hf & Hrest)%bind_Ok. constructor; [|by apply IH].
  unfold require_field in Hf. intros Hreq. rewrite Hreq in Hf.
  apply bind_Ok in Hf as (missing & Hname & Hf). destruct missing; [done|].
  unfold not_in_data in Hname. destruct (field_name f) as [[| | |k]|]; try done.
  exists k. split; [done|]. injection Hname as Hk.
  apply bool_decide_eq_false in Hk. by destruct (data !! k); [eexists|].
Qed.

Lemma validate_fields_missing data fields f x :
  (∀ g, g ∈ fields → ∃ y, field_name g = VScalar y) →
  f ∈ fields → truthy_val (field_required f) = true →
  field_name f = VScalar x → (∀ k, x = SStr k → data !! k = None) →
  for_each (require_field data) fields () = Raise ValueError.
Proof.
  intros Hnames Hin Hreq Hname Hmiss.
  induction fields as [|g fields IH]; [by apply elem_of_nil in Hin|].
  cbn [for_each].
  assert (require_field data () g = Raise ValueError ∨ require_field data () g = Ok ())
    as [Hg|Hg].
  { unfold require_field. destruct (truthy_val (field_required g)); [|by right].
    destruct (Hnames g) as [y Hy]; [by left|]. rewrite Hy.
    destruct y as [| | |k]; cbn [not_in_data mbind res_bind]; try by left.
    case_bool_decide; [by left | by right]. }
  { by rewrite Hg. }
  apply elem_of_cons in Hin as [<-|Hin].
  - exfalso. unfold require_field in Hg. rewrite Hreq, Hname in Hg.
    destruct x as [| | |k]; cbn [not_in_data mbind res_bind] in Hg; try done.
    by rewrite bool_decide_eq_true_2 in Hg by by apply Hmiss.
  - rewrite Hg. cbn [mbind res_bind]. apply IH; [|done].
    intros g' Hg'. apply Hnames. by right.
Qed.

(** X14: rendering validates the data against the schema before anything
    else.  For a published template whose schema names its fields by
    scalars, render data that lacks the name of a required field of the
    schema makes [render_document] raise [ValueError]: neither loop
    expansion nor docxtpl is reached. *)
Theorem render_rejects_missing_field t template_id mappings tables data schema f x :
  template_status t = txt "published" →
  get_template_schema (Some t) template_id mappings = Ok (Some schema) →
  (∀ g, g ∈ schema_fields schema → ∃ y, field_name g = VScalar y) →
  f ∈ schema_fields schema → truthy_val (field_required f) = true →
  field_name f = VScalar x → (∀ k, x = SStr k → data !! k = None) →
  render_document (Some t) true template_id mappings tables data = Raise ValueError.
Proof.
  intros Hpub Hschema Hnames Hin Hreq Hname Hmiss. unfold render_document.
  rewrite bool_decide_eq_false_2 by (by intros []). cbn [negb].
  rewrite Hschema. cbn [mbind res_bind validate_required].
  by rewrite (validate_fields_missing data _ f x).
Qed.

Lemma render_rejects_missing_field_witness :
  render_document (Some published_template) true (txt "t1") registry [invoice_table]
    {[ txt "customer_name" := VStr "Tran Binh" ]} = Raise ValueError.
Proof.
  assert (∃ s, get_template_schema (Some published_template) (txt "t1") registry
               = Ok (Some s)) as [s Hs].
  { eexists. vm_compute. reflexivity. }
  pose proof Hs as Hfields. vm_compute in Hfields. injection Hfields as Hfields.
  apply (render_rejects_missing_field published_template (txt "t1") registry
           [invoice_table] _ s
           (loop_field invoice_mapping
              [mkSubField (SStr (txt "stt")) (SStr (txt "string")) (SStr []);
               mkSubField (SStr (txt "amount")) (SStr (txt "string")) (SStr [])])
           (SStr (txt "items")));
    try reflexivity; try exact Hs.
  - intros g Hg. rewrite <- Hfields in Hg. simpl in Hg.
    apply elem_of_cons in Hg as [->|Hg]; [by eexists|].
    apply elem_of_cons in Hg as [->|Hg]; [by eexists|].
    apply elem_of_nil in Hg. destruct Hg.
  - rewrite <- Hfields. simpl. apply elem_of_cons. right. apply elem_of_cons. by left.
  - intros k [= <-]. vm_compute. reflexivity.
Defined.

Lemma schema_step_loop_field fields seen m fields' seen' :
  schema_step (fields, seen) m = Ok (fields', seen') →
  ∃ out, fields' = fields ++ out ∧
    (has_mapping_type "table_loop" m →
     ∃ f, f ∈ out ∧ m !! txt "loop_variable" = Some (field_name f) ∧
          field_required f = VTrue).
Proof.
  unfold schema_step. case_bool_decide as Hscalar.
  - intros (label & _ & H)%bind_Ok.
    assert (¬ has_mapping_type "table_loop" m) as Hno.
    { unfold has_mapping_type. intros Hloop. unfold dict_get in *.
      destruct (m !! txt "mapping_type"); simpl in *; [subst|done].
      apply elem_of_cons in Hscalar as [?|Hscalar]; [done|].
      apply elem_of_cons in Hscalar as [?|Hscalar]; [done|].
      by apply elem_of_nil in Hscalar. }
    destruct label as [l|]; [|done]. case_bool_decide; injection H as <- <-.
    + by eexists.
    + exists []. by rewrite app_nil_r.
  - case_bool_decide as Hloop.
    + intros (loop_var & Hlv & H)%bind_Ok. apply bind_Ok in H as (cls & _ & H).
      apply bind_Ok in H as (subs & _ & [= <- <-]).
      eexists. split; [done|]. intros _. eexists. split; [by left|].
      unfold dict_item in Hlv. destruct (m !! txt "loop_variable"); [|done].
      by injection Hlv as ->.
    + intros [= <- <-]. exists []. rewrite app_nil_r. split; [done|].
      intros Hl. destruct Hloop. unfold has_mapping_type, dict_get in *.
      by destruct (m !! txt "mapping_type"); simpl in *; [subst|].
Qed.

Lemma schema_fold_loop_fields ms fields seen fields' seen' :
  for_each schema_step ms (fields, seen) = Ok (fields', seen') →
  (∀ f, f ∈ fields → f ∈ fields') ∧
  ∀ m, m ∈ ms → has_mapping_type "table_loop" m →
    ∃ f, f ∈ fields' ∧ m !! txt "loop_variable" = Some (field_name f) ∧
         field_required f = VTrue.
Proof.
  revert fields seen. induction ms as [|m0 ms IH]; intros fields seen; cbn [for_each].
  - intros [= <- <-]. split; [done|]. intros m Hin. by apply elem_of_nil in Hin.
  - intros ([fields1 seen1] & Hstep & Hrest)%bind_Ok.
    destruct (schema_step_loop_field _ _ _ _ _ Hstep) as (out & -> & Hout).
    destruct (IH _ _ Hrest) as [Hkeep Hloops]. split.
    + intros f Hf. apply Hkeep, elem_of_app. by left.
    + intros m Hin Hloop. apply elem_of_cons in Hin as [->|Hin]; [|by apply Hloops].
      destruct (Hout Hloop) as (f & Hf & Hname & Hreq). exists f.
      split; [|done]. apply Hkeep, elem_of_app. by right.
Qed.

Lemma any_res_loop_variable k ms b :
  any_res (is_loop_variable k) ms = Ok b →
  (b = true ↔ ∃ m, m ∈ ms ∧ m !! txt "loop_variable" = Some (VScalar (SStr k))).
Proof.
  revert b. induction ms as [|m ms IH]; intros b; cbn [any_res].
  - intros [= <-]. split; [done|]. intros (m & Hin & _). by apply elem_of_nil in Hin.
  - intros (b0 & Hm & H)%bind_Ok. unfold is_loop_variable, dict_item in Hm.
    destruct (m !! txt "loop_variable") as [v|] eqn:Hv; [|done].
    injection Hm as <-. case_bool_decide as Heq.
    + injection H as <-. split; [|done]. intros _. exists m. split; [by left|congruence].
    + rewrite (IH b H). split.
      * intros (m' & Hin & Hm'). exists m'. split; [by right|done].
      * intros (m' & Hin & Hm'). apply elem_of_cons in Hin as [->|Hin]; [congruence|].
        by exists m'.
Qed.

Lemma docxtpl_fold ms (l : list (text * pyval)) acc ctx :
  NoDup l.*1 →
  for_each (λ (acc : dict) (kv : text * pyval),
              named ← any_res (is_loop_variable kv.1) ms;
              Ok (if named : bool then acc else <[kv.1 := kv.2]> acc)) l acc = Ok ctx →
  ∀ k,
    (k ∉ l.*1 → ctx !! k = acc !! k) ∧
    (∀ v, (k, v) ∈ l →
       ((∃ m, m ∈ ms ∧ m !! txt "loop_variable" = Some (VScalar (SStr k))) →
        ctx !! k = acc !! k) ∧
       (¬ (∃ m, m ∈ ms ∧ m !! txt "loop_variable" = Some (VScalar (SStr k))) →
        ctx !! k = Some v)).
Proof.
  revert acc. induction l as [|[k0 v0] l IH]; intros acc Hnd; cbn [for_each].
  - intros [= <-] k. split; [done|]. intros v Hin. by apply elem_of_nil in Hin.
  - intros (acc1 & Hstep & Hrest)%bind_Ok k.
    apply bind_Ok in Hstep as (named & Hnamed & [= <-]).
    apply any_res_loop_variable in Hnamed. simpl in Hnamed.
    rewrite fmap_cons in Hnd. apply NoDup_cons in Hnd as [Hfresh Hnd].
    destruct (IH _ Hnd Hrest k) as [Hout Hin]. split.
    + rewrite fmap_cons. intros [Hne Hk]%not_elem_of_cons. rewrite (Hout Hk).
      destruct named; [done|]. by rewrite lookup_insert_ne.
    + intros v [[= -> ->]|Hv]%elem_of_cons.
      * rewrite (Hout Hfresh). split.
        -- intros Hn. apply Hnamed in Hn as ->. done.
        -- intros Hn. destruct named; [by destruct Hn; apply Hnamed|].
           by rewrite lookup_insert_eq.
      * destruct (Hin v Hv) as [Hyes Hno]. split; [|done].
        intros Hn. rewrite (Hyes Hn). destruct named; [done|].
        rewrite lookup_insert_ne; [done|]. intros <-. apply Hfresh.
        apply list_elem_of_fmap. by exists (k0, v).
Qed.

Lemma docxtpl_data_lookup ms data ctx :
  docxtpl_data ms data = Ok ctx →
  ∀ k, ((∃ m, m ∈ ms ∧ m !! txt "loop_variable" = Some (VScalar (SStr k))) →
        ctx !! k = None) ∧
       (¬ (∃ m, m ∈ ms ∧ m !! txt "loop_variable" = Some (VScalar (SStr k))) →
        ctx !! k = data !! k).
Proof.
  intros Hctx k. unfold docxtpl_data in Hctx.
  destruct (docxtpl_fold ms _ _ _ (NoDup_fst_map_to_list data) Hctx k) as [Hout Hin].
  destruct (data !! k) as [v|] eqn:Hk.
  - apply elem_of_map_to_list in Hk. destruct (Hin v Hk) as [Hyes Hno]. split; [|done].
    intros Hn. by rewrite (Hyes Hn).
  - assert (k ∉ (map_to_list data).*1) as Hnot.
    { intros ([k' v] & -> & Hkv)%list_elem_of_fmap. apply elem_of_map_to_list in Hkv.
      simpl in Hk. congruence. }
    rewrite (Hout Hnot). by split.
Qed.

(** X15: what rendering hands to docxtpl.  When [render_document] reaches
    its call of [render_template], the template is published, the render
    data holds a key for every loop variable that a loop mapping names, the
    document is the template with its loops expanded by
    [expand_table_loops], and the context is the render data without the
    loop variables: every other key keeps its value. *)
Theorem render_call_spec t exists_ template_id mappings tables data call :
  render_document (Some t) exists_ template_id mappings tables data = Ok (Some call) →
  template_status t = txt "published" ∧ exists_ = true ∧
  expand_table_loops tables data mappings = Ok (call_tables call) ∧
  (∀ k, loop_variable_of mappings k →
        is_Some (data !! k) ∧ call_context call !! k = None) ∧
  (∀ k, ¬ loop_variable_of mappings k → call_context call !! k = data !! k).
Proof.
  unfold render_document. case_bool_decide as Hstatus; [done|].
  destruct exists_; [|done]. cbn [negb].
  intros (schema & Hschema & H)%bind_Ok. apply bind_Ok in H as ([] & Hvalid & H).
  split; [done|]. split; [done|].
  unfold get_template_schema in Hschema.
  apply bind_Ok in Hschema as ([fields seen] & Hfold & [= <-]).
  apply schema_fold_loop_fields in Hfold as [_ Hloops].
  apply validate_fields_provided in Hvalid. cbn [schema_fields] in Hvalid.
  assert (∀ k, loop_variable_of mappings k → is_Some (data !! k)) as Hkeys.
  { intros k (m & Hin & Hloop & Hlv).
    destruct (Hloops m Hin Hloop) as (f & Hf & Hname & Hreq).
    destruct (proj1 (Forall_forall _ _) Hvalid f Hf) as (k' & Hk' & Hsome).
    { by rewrite Hreq. }
    rewrite Hlv in Hname. injection Hname as Hname. rewrite <- Hname in Hk'.
    by injection Hk' as ->. }
  assert (∀ k, loop_variable_of mappings k ↔
               ∃ m, m ∈ filter (has_mapping_type "table_loop") mappings ∧
                    m !! txt "loop_variable" = Some (VScalar (SStr k))) as Hnamed.
  { intros k. split.
    - intros (m & Hin & Hloop & Hlv). exists m. split; [by apply list_elem_of_filter|done].
    - intros (m & [Hloop Hin]%list_elem_of_filter & Hlv). by exists m. }
  destruct (filter (has_mapping_type "table_loop") mappings) as [|m0 loops] eqn:Hfilter.
  - injection H as <-. cbn [call_tables call_context].
    split; [by unfold expand_table_loops; rewrite Hfilter|]. split; [|done].
    intros k Hk. apply Hnamed in Hk as (m & Hin & _). by apply elem_of_nil in Hin.
  - apply bind_Ok in H as (expanded & Hexp & H). apply bind_Ok in H as (ctx & Hctx & [= <-]).
    cbn [call_tables call_context]. split; [done|].
    pose proof (docxtpl_data_lookup _ _ _ Hctx) as Hlook. split.
    + intros k Hk. split; [by apply Hkeys|]. by apply Hlook, Hnamed.
    + intros k Hk. apply Hlook. intros Hn. by apply Hk, Hnamed.
Qed.

Lemma render_call_spec_witness :
  ∃ call,
    render_document (Some published_template) true (txt "t1") registry [invoice_table]
      (<[ txt "customer_name" := VStr "Tran Binh" ]> invoice_data) = Ok (Some call) ∧
    expand_table_loops [invoice_table]
      (<[ txt "customer_name" := VStr "Tran Binh" ]> invoice_data) registry
      = Ok (call_tables call) ∧
    call_context call !! txt "items" = None.
Proof.
  assert (∃ c, render_document (Some published_template) true (txt "t1") registry
                 [invoice_table] (<[ txt "customer_name" := VStr "Tran Binh" ]> invoice_data)
               = Ok (Some c)) as [c Hc].
  { eexists. vm_compute. reflexivity. }
  exists c. split; [exact Hc|].
  destruct (render_call_spec _ _ _ _ _ _ _ Hc) as (_ & _ & Hexp & Hloops & _).
  split; [exact Hexp|]. apply Hloops.
  exists (db_create_mapping (txt "m2") (txt "t1") invoice_mapping).
  split; [|split; vm_compute; reflexivity].
  apply elem_of_cons. right. apply elem_of_cons. by left.
Defined.

(* ================================================================== *)
(** * Properties of the mapping registry and of publishing *)
(* ================================================================== *)

Ltac in_list := repeat (apply elem_of_cons; first [ left; reflexivity | right ]).

Ltac row_lookup :=
  unfold db_create_mapping; cbn [list_to_map foldr uncurry curry fst snd];
  repeat (first [ rewrite lookup_insert_eq; reflexivity
                | rewrite lookup_insert_ne by (vm_compute; discriminate) ]).

Lemma row_id i t d : db_create_mapping i t d !! txt "id" = Some (VScalar (SStr i)).
Proof. row_lookup. Qed.

Lemma row_template_id i t d :
  db_create_mapping i t d !! txt "template_id" = Some (VScalar (SStr t)).
Proof. row_lookup. Qed.

Lemma row_mapping_type i t d :
  db_create_mapping i t d !! txt "mapping_type" =
  Some (dict_get d "mapping_type" (VStr "paragraph")).
Proof. row_lookup. Qed.

Lemma row_cell_labels i t d :
  db_create_mapping i t d !! txt "cell_labels" =
  Some (if truthy_val (dict_get d "cell_labels" VNone)
        then dict_get d "cell_labels" VNone else VNone).
Proof. row_lookup. Qed.

(** A settable column of a new row holds the value given for it, or the
    default of the column. *)
Lemma row_settable c :
  c ∈ settable_columns →
  ∃ dflt, ∀ i t d, db_create_mapping i t d !! c = Some (default dflt (d !! c)).
Proof.
  unfold settable_columns. cbn [fmap list_fmap]. intros Hc.
  repeat (apply elem_of_cons in Hc as [->|Hc];
          [eexists; intros i t d; unfold dict_get; row_lookup|]).
  by apply elem_of_nil in Hc.
Qed.

Lemma merge_update_set row update_data c v :
  update_data !! c = Some v → v ≠ VNone → merge_update row update_data !! c = Some v.
Proof.
  intros Hc Hv. unfold merge_update. apply lookup_union_Some_l.
  by apply map_lookup_filter_Some.
Qed.

Lemma merge_update_unset row update_data c :
  unset update_data c → merge_update row update_data !! c = row !! c.
Proof.
  intros Hc. unfold merge_update. apply lookup_union_r.
  apply map_lookup_filter_None. destruct Hc as [Hc|Hc]; [by left|].
  right. intros v Hv. simpl. rewrite Hc in Hv. injection Hv as <-. by intros [].
Qed.

(** X16: an update re-creates the mapping.  On a template that is not
    published, [update_mapping] hands back a row under the new id that
    [db_create_mapping] draws, not under the id it was asked for.  A column
    for which the update has a value other than [None] takes that value,
    without any check; a column for which the update has no value, or
    [None], keeps what the row had.  [cell_labels] is stored only when
    truthy: an update to an empty list stores [None]. *)
Theorem update_recreates_row row template mapping_id template_id update_data :
  (∀ t, template = Some t → template_status t ≠ txt "published") →
  ∃ row',
    update_mapping (Some row) template mapping_id template_id update_data = Some row' ∧
    row' !! txt "id" = Some (VScalar (SStr mapping_id)) ∧
    row' !! txt "template_id" = Some (VScalar (SStr template_id)) ∧
    (∀ c v, c ∈ settable_columns → update_data !! c = Some v → v ≠ VNone →
            row' !! c = Some v) ∧
    (∀ c, c ∈ settable_columns → unset update_data c → is_Some (row !! c) →
          row' !! c = row !! c) ∧
    (∀ v, update_data !! txt "cell_labels" = Some v → v ≠ VNone →
          row' !! txt "cell_labels" = Some (if truthy_val v then v else VNone)) ∧
    (∀ v, unset update_data (txt "cell_labels") → row !! txt "cell_labels" = Some v →
          row' !! txt "cell_labels" = Some (if truthy_val v then v else VNone)).
Proof.
  intros Hdraft.
  exists (db_create_mapping mapping_id template_id (merge_update row update_data)).
  split; [|split; [apply row_id|split; [apply row_template_id|]]].
  { unfold update_mapping. destruct template as [t|]; [|done].
    by rewrite bool_decide_eq_false_2 by (by apply Hdraft). }
  split; [|split; [|split]].
  - intros c v Hc Hset Hv. destruct (row_settable c Hc) as [dflt ->].
    by rewrite (merge_update_set _ _ _ _ Hset Hv).
  - intros c Hc Hunset [x Hx]. destruct (row_settable c Hc) as [dflt ->].
    by rewrite (merge_update_unset _ _ _ Hunset), Hx.
  - intros v Hset Hv. rewrite row_cell_labels. unfold dict_get.
    by rewrite (merge_update_set _ _ _ _ Hset Hv).
  - intros v Hunset Hrow. rewrite row_cell_labels. unfold dict_get.
    by rewrite (merge_update_unset _ _ _ Hunset), Hrow.
Qed.

Lemma update_recreates_row_witness :
  ∃ row',
    update_mapping (Some stored_name_mapping) (Some draft_template) (txt "m9") (txt "t1")
      {[ txt "label" := VStr "client"; txt "required" := VNone ]} = Some row' ∧
    row' !! txt "id" = Some (VStr "m9") ∧
    row' !! txt "label" = Some (VStr "client") ∧
    row' !! txt "required" = stored_name_mapping !! txt "required" ∧
    row' !! txt "original_text" = stored_name_mapping !! txt "original_text".
Proof.
  destruct (update_recreates_row stored_name_mapping (Some draft_template)
              (txt "m9") (txt "t1")
              {[ txt "label" := VStr "client"; txt "required" := VNone ]})
    as (row' & Hrun & Hid & _ & Hset & Hkeep & _).
  { intros t [= <-]. vm_compute. discriminate. }
  exists row'. split; [exact Hrun|]. split; [exact Hid|]. split; [|split].
  - apply Hset; [|vm_compute; reflexivity|discriminate].
    unfold settable_columns. cbn [fmap list_fmap]. in_list.
  - apply Hkeep; [|right; vm_compute; reflexivity|eexists; vm_compute; reflexivity].
    unfold settable_columns. cbn [fmap list_fmap]. in_list.
  - apply Hkeep; [|left; vm_compute; reflexivity|eexists; vm_compute; reflexivity].
    unfold settable_columns. cbn [fmap list_fmap]. in_list.
Defined.

(** X17: the mapping type is checked on creation only.  On a draft
    template, a mapping type other than the three known ones makes
    [create_mapping] refuse, while [update_mapping] stores it; the row is
    then one that schema derivation and materialization pass over. *)
Theorem update_accepts_unknown_type
    repr_list t row mapping_id template_id v data doc :
  template_status t ≠ txt "published" → v ≠ VNone →
  v ∉ [VStr "paragraph"; VStr "table_cell"; VStr "table_loop"] →
  create_mapping (Some t) mapping_id template_id (<[txt "mapping_type" := v]> data) = None ∧
  ∃ row',
    update_mapping (Some row) (Some t) mapping_id template_id
      {[ txt "mapping_type" := v ]} = Some row' ∧
    row' !! txt "mapping_type" = Some v ∧
    get_template_schema (Some t) template_id [row'] =
      Ok (Some (mkSchema template_id (template_name t) (template_status t) [])) ∧
    apply_mappings_to_document repr_list doc [row'] = Ok (true, doc).
Proof.
  intros Hdraft Hv Hunknown. split.
  { unfold create_mapping, dict_get. rewrite bool_decide_eq_false_2 by done.
    rewrite lookup_insert_eq. cbn [from_option id].
    by rewrite bool_decide_eq_true_2. }
  set (row' := db_create_mapping mapping_id template_id
                 (merge_update row {[ txt "mapping_type" := v ]})).
  assert (row' !! txt "mapping_type" = Some v) as Htype.
  { unfold row'. rewrite row_mapping_type. unfold dict_get.
    rewrite (merge_update_set _ _ _ v); [done| |done]. apply lookup_singleton_eq. }
  assert (v ≠ VStr "paragraph" ∧ v ≠ VStr "table_cell" ∧ v ≠ VStr "table_loop")
    as (Hp & Hc & Hl).
  { repeat split; intros ->; apply Hunknown; in_list. }
  exists row'. split; [|split; [done|split]].
  - unfold update_mapping. by rewrite bool_decide_eq_false_2.
  - unfold get_template_schema. cbn [for_each]. unfold schema_step, dict_get.
    rewrite Htype. cbn [from_option id].
    rewrite bool_decide_eq_false_2.
    2:{ intros Hin. apply elem_of_cons in Hin as [Hin|Hin]; [exact (Hp Hin)|].
        apply elem_of_cons in Hin as [Hin|Hin]; [exact (Hc Hin)|].
        apply elem_of_nil in Hin. destruct Hin. }
    rewrite bool_decide_eq_false_2 by exact Hl. reflexivity.
  - unfold apply_mappings_to_document.
    rewrite (filter_cons_False is_paragraph_mapping).
    2:{ unfold is_paragraph_mapping, dict_get. rewrite Htype. exact Hp. }
    rewrite (filter_cons_False (has_mapping_type "table_cell")).
    2:{ unfold has_mapping_type, dict_get. rewrite Htype. exact Hc. }
    rewrite (filter_cons_False (has_mapping_type "table_loop")).
    2:{ unfold has_mapping_type, dict_get. rewrite Htype. exact Hl. }
    rewrite !filter_nil. reflexivity.
Qed.

Lemma update_accepts_unknown_type_witness :
  create_mapping (Some draft_template) (txt "m9") (txt "t1")
    (<[txt "mapping_type" := VStr "header"]> name_mapping) = None ∧
  ∃ row',
    update_mapping (Some stored_name_mapping) (Some draft_template) (txt "m9") (txt "t1")
      {[ txt "mapping_type" := VStr "header" ]} = Some row' ∧
    row' !! txt "mapping_type" = Some (VStr "header") ∧
    get_template_schema (Some draft_template) (txt "t1") [row'] =
      Ok (Some (mkSchema (txt "t1") (txt "contract.docx") (txt "draft") [])) ∧
    apply_mappings_to_document (λ _, []) two_paragraphs [row'] = Ok (true, two_paragraphs).
Proof.
  apply (update_accepts_unknown_type (λ _, []) draft_template stored_name_mapping
           (txt "m9") (txt "t1") (VStr "header") name_mapping two_paragraphs).
  - vm_compute. discriminate.
  - discriminate.
  - intros Hin. repeat (apply elem_of_cons in Hin as [Hin|Hin]; [discriminate Hin|]).
    by apply elem_of_nil in Hin.
Defined.

Lemma apply_mappings_flag repr_list doc mappings flag doc' :
  apply_mappings_to_document repr_list doc mappings = Ok (flag, doc') → flag = true.
Proof.
  unfold apply_mappings_to_document.
  intros (doc1 & _ & H)%bind_Ok. apply bind_Ok in H as (doc2 & _ & H).
  apply bind_Ok in H as (doc3 & _ & H). congruence.
Qed.

Lemma publish_template_draft repr_list t m mappings doc :
  publish_template repr_list (Some t) (m :: mappings) doc =
  '(_, saved) ← apply_mappings_to_document repr_list doc (m :: mappings);
  Ok (Some (mkTemplate (template_name t) (txt "published"), saved)).
Proof.
  unfold publish_template.
  destruct (apply_mappings_to_document repr_list doc (m :: mappings))
    as [[flag saved]|e] eqn:Hrun; [|done].
  apply apply_mappings_flag in Hrun as ->. done.
Qed.

(** X18: what the publish endpoint answers.  Without a template it answers
    404, for a published template 400, without mappings 400; otherwise it
    materializes the mappings and answers with the template, now published,
    unless materialization raises, in which case the exception is what
    comes out.  The answer 500 "Publish failed" is never given. *)
Theorem publish_outcomes repr_list template mappings doc :
  (∀ detail, publish repr_list template mappings doc ≠ Ok (PublishRefused 500 detail)) ∧
  (template = None →
   publish repr_list template mappings doc = Ok (PublishRefused 404 (txt "Template not found"))) ∧
  (∀ t, template = Some t → template_status t = txt "published" →
   publish repr_list template mappings doc = Ok (PublishRefused 400 (txt "Already published"))) ∧
  (∀ t, template = Some t → template_status t ≠ txt "published" → mappings = [] →
   publish repr_list template mappings doc =
     Ok (PublishRefused 400 (txt "No mappings defined"))) ∧
  (∀ t, template = Some t → template_status t ≠ txt "published" → mappings ≠ [] →
   publish repr_list template mappings doc =
     '(_, saved) ← apply_mappings_to_document repr_list doc mappings;
     Ok (Published (mkTemplate (template_name t) (txt "published")) saved)).
Proof.
  assert (∀ t, template = Some t → template_status t ≠ txt "published" → mappings ≠ [] →
   publish repr_list template mappings doc =
     '(_, saved) ← apply_mappings_to_document repr_list doc mappings;
     Ok (Published (mkTemplate (template_name t) (txt "published")) saved)) as Hdraft.
  { intros t -> Hstatus Hne. unfold publish. rewrite bool_decide_eq_false_2 by done.
    destruct mappings as [|m mappings]; [done|]. rewrite publish_template_draft.
    by destruct (apply_mappings_to_document repr_list doc (m :: mappings)) as [[? ?]|]. }
  split; [|split; [|split; [|split]]]; try done.
  - intros detail. destruct template as [t|]; [|done].
    destruct (decide (template_status t = txt "published")) as [Hpub|Hpub].
    { unfold publish. by rewrite bool_decide_eq_true_2. }
    destruct mappings as [|m mappings].
    { unfold publish. by rewrite bool_decide_eq_false_2. }
    rewrite (Hdraft t eq_refl Hpub) by done.
    by destruct (apply_mappings_to_document repr_list doc (m :: mappings)) as [[? ?]|].
  - by intros ->.
  - intros t -> Hpub. unfold publish. by rewrite bool_decide_eq_true_2.
  - intros t -> Hpub ->. unfold publish. by rewrite bool_decide_eq_false_2.
Qed.

Lemma publish_outcomes_witness :
  ∃ saved,
    publish (λ _, []) (Some draft_template) [customer_mapping] two_paragraphs =
      Ok (Published published_template saved) ∧
    paragraph_text <$> doc_paragraphs saved =
      [txt "Dear {{customer_name}},"; txt "Total: 5.000.000"].
Proof.
  destruct (publish_outcomes (λ _, []) (Some draft_template) [customer_mapping]
              two_paragraphs) as (_ & _ & _ & _ & Hdraft).
  assert (∃ d, apply_mappings_to_document (λ _, []) two_paragraphs [customer_mapping]
               = Ok (true, d)) as [d Hd].
  { eexists. vm_compute. reflexivity. }
  exists d. split.
  - rewrite (Hdraft draft_template eq_refl); [|vm_compute; discriminate|discriminate].
    by rewrite Hd.
  - vm_compute in Hd. injection Hd as <-. vm_compute. reflexivity.
Defined.

(** X19: publishing freezes the mappings.  Once the publish endpoint has
    answered with a template, that template is published, and from then on
    creating a mapping is refused with status 400, updating one returns
    nothing, deleting one returns false without reaching the database, and
    publishing again is refused as already published. *)
Theorem published_template_frozen repr_list template mappings doc updated saved :
  publish repr_list template mappings doc = Ok (Published updated saved) →
  template_status updated = txt "published" ∧
  (∀ mapping_id template_id m,
     create_mapping (Some updated) mapping_id template_id m = None ∧
     ∃ detail, create_template_mapping repr_list (Some updated) mapping_id template_id m
               = HTTPException 400 detail) ∧
  (∀ row mapping_id template_id update_data,
     update_mapping row (Some updated) mapping_id template_id update_data = None) ∧
  (∀ deleted, delete_mapping (Some updated) deleted = false) ∧
  (∀ mappings' doc',
     publish repr_list (Some updated) mappings' doc' =
       Ok (PublishRefused 400 (txt "Already published"))).
Proof.
  intros Hpub.
  assert (template_status updated = txt "published") as Hstatus.
  { unfold publish in Hpub. destruct template as [t|]; [|done].
    case_bool_decide; [done|]. destruct mappings as [|m mappings]; [done|].
    rewrite publish_template_draft in Hpub.
    destruct (apply_mappings_to_document repr_list doc (m :: mappings)) as [[? ?]|];
      [|done].
    by injection Hpub as <- _. }
  split; [done|].
  assert (∀ mapping_id template_id m,
            create_mapping (Some updated) mapping_id template_id m = None) as Hcreate.
  { intros. unfold create_mapping. by rewrite bool_decide_eq_true_2. }
  split; [|split; [|split]].
  - intros mapping_id template_id m. split; [done|].
    unfold create_template_mapping. rewrite Hcreate.
    destruct (check_mapping repr_list m) as [raised|] eqn:Hcheck; [|by eexists].
    unfold check_mapping in Hcheck.
    repeat case_bool_decide;
      try (apply fmap_Some in Hcheck as (f & _ & ->); by eexists);
      injection Hcheck as <-; by eexists.
  - intros [row|] mapping_id template_id update_data; [|done].
    unfold update_mapping. by rewrite bool_decide_eq_true_2.
  - intros deleted. unfold delete_mapping. by rewrite bool_decide_eq_true_2.
  - intros mappings' doc'. unfold publish. by rewrite bool_decide_eq_true_2.
Qed.

Lemma published_template_frozen_witness :
  template_status published_template = txt "published" ∧
  create_mapping (Some published_template) (txt "m9") (txt "t1") name_mapping = None ∧
  update_mapping (Some stored_name_mapping) (Some published_template) (txt "m9") (txt "t1")
    {[ txt "label" := VStr "client" ]} = None ∧
  delete_mapping (Some published_template) true = false.
Proof.
  assert (∃ d, publish (λ _, []) (Some draft_template) [customer_mapping] two_paragraphs
               = Ok (Published published_template d)) as [d Hd].
  { eexists. vm_compute. reflexivity. }
  destruct (published_template_frozen (λ _, []) (Some draft_template) [customer_mapping]
              two_paragraphs published_template d Hd)
    as (Hstatus & Hcreate & Hupdate & Hdelete & _).
  split; [exact Hstatus|]. split; [apply Hcreate|]. split; [apply Hupdate|apply Hdelete].
Defined.

Lemma row_label i t d :
  db_create_mapping i t d !! txt "label" = Some (dict_get d "label" VNone).
Proof. row_lookup. Qed.

Lemma row_loop_variable i t d :
  db_create_mapping i t d !! txt "loop_variable" = Some (dict_get d "loop_variable" VNone).
Proof. row_lookup. Qed.

Lemma row_variant i t d : variant_of (db_create_mapping i t d) = variant_of d.
Proof. unfold variant_of at 1, dict_get at 1. by rewrite row_mapping_type. Qed.

Lemma created_row_readable i t m :
  well_labelled m → readable_row (db_create_mapping i t m).
Proof.
  intros [Hscalar Hloop]. split.
  - unfold is_scalar_mapping. rewrite row_variant. intros Hm.
    rewrite row_label. unfold dict_get.
    destruct (m !! txt "label") as [[l|l]|] eqn:Hl; cbn [from_option id]; try by eexists.
    by destruct (Hscalar Hm l).
  - unfold is_loop_mapping. rewrite row_variant. intros Hm.
    destruct (Hloop Hm) as (cls & Hcls & Hne & Hall).
    split; [by rewrite row_loop_variable|]. exists cls. split; [|done].
    unfold dict_get at 1. rewrite row_cell_labels. unfold dict_get. rewrite Hcls.
    cbn [from_option id truthy_val]. by rewrite bool_decide_eq_false_2.
Qed.

Lemma create_template_mapping_row repr_list template i t m row :
  create_template_mapping repr_list template i t m = MappingCreated row →
  row = db_create_mapping i t m.
Proof.
  unfold create_template_mapping. destruct (check_mapping repr_list m) as [r|] eqn:Hcheck.
  { intros ->. unfold check_mapping in Hcheck.
    repeat case_bool_decide;
      try (by apply fmap_Some in Hcheck as (f & _ & ?)); by injection Hcheck. }
  unfold create_mapping. destruct template as [tpl|]; [|done].
  repeat case_bool_decide; try done. by intros [= <-].
Qed.

(** X20: creation and schema derivation fit together on well-labelled
    mappings.  When every row of the registry is what the creation endpoint
    answered for a mapping whose label is no list and whose cell labels, if
    it is a loop mapping, are a non-empty list of labelled dicts, schema
    derivation over the registry does not raise, and yields the fields that
    the rows emit in registry order. *)
Theorem created_registry_has_schema
    (repr_list : list item → text) (t : Template) (template_id : text)
    (submitted rows : list dict) :
  Forall2 (λ m row, well_labelled m ∧
             ∃ (template : option Template) (mapping_id : text),
               create_template_mapping repr_list template mapping_id template_id m
               = MappingCreated row)
          submitted rows →
  ∃ outs,
    get_template_schema (Some t) template_id rows =
      Ok (Some (mkSchema template_id (template_name t) (template_status t) (concat outs))) ∧
    length outs = length rows ∧
    ∀ i row out, rows !! i = Some row → outs !! i = Some out →
                 emits (take i rows) row out.
Proof.
  intros Hcreated.
  assert (Forall readable_row rows) as Hwf.
  { induction Hcreated as [|m row ms rows (Hm & tpl & i & Hrow) _ IH]; constructor; [|done].
    apply create_template_mapping_row in Hrow as ->. by apply created_row_readable. }
  destruct (schema_fold_emits [] rows [] ∅ Hwf) as (outs & seen' & Hfold & Hlen & Hall).
  { intros k. split; [by intros ?%not_elem_of_empty|].
    intros (m' & Hin & _). by apply elem_of_nil in Hin. }
  exists outs. split; [|split; [done|]].
  - unfold get_template_schema. by rewrite Hfold.
  - intros i m out Hi Ho. exact (Hall i m out Hi Ho).
Qed.

Lemma created_registry_has_schema_witness :
  ∃ outs,
    get_template_schema (Some draft_template) (txt "t1") registry =
      Ok (Some (mkSchema (txt "t1") (txt "contract.docx") (txt "draft") (concat outs))) ∧
    length outs = 3.
Proof.
  destruct (created_registry_has_schema (λ _, []) draft_template (txt "t1")
              [name_mapping; invoice_mapping; second_name_mapping] registry)
    as (outs & Hschema & Hlen & _).
  - unfold registry.
    apply Forall2_cons_2; [|apply Forall2_cons_2; [|apply Forall2_cons_2; [|apply Forall2_nil_2]]].
    + split.
      * split; [intros _ l H; vm_compute in H; discriminate|].
        intros H. vm_compute in H. discriminate.
      * exists (Some draft_template), (txt "m1"). vm_compute. reflexivity.
    + split.
      * split; [intros H; exfalso|].
        { unfold is_scalar_mapping in H.
          apply elem_of_cons in H as [H|H]; [vm_compute in H; discriminate|].
          apply elem_of_cons in H as [H|H]; [vm_compute in H; discriminate|].
          by apply elem_of_nil in H. }
        intros _. exists invoice_cell_labels. split; [vm_compute; reflexivity|].
        split; [discriminate|]. repeat constructor; eexists _, _; split; reflexivity.
      * exists (Some draft_template), (txt "m2"). vm_compute. reflexivity.
    + split.
      * split; [intros _ l H; vm_compute in H; discriminate|].
        intros H. vm_compute in H. discriminate.
      * exists (Some draft_template), (txt "m3"). vm_compute. reflexivity.
  - exists outs. split; [exact Hschema|exact Hlen].
Defined.
